(** * Lowering of the ibis expression graph to a SQL-like relational algebra

    A shallow embedding of [ibis/backends/sql/rewrites.py]: the term graph
    (relations and values), the pointwise lowering rules, the Select-merge
    engine with its blocking check and complexity guard, the CTE extractor
    and the orchestrator [sqlize], followed by the properties of the
    specification that they satisfy or violate. *)

From Stdlib Require Import String List ZArith QArith Bool Arith Lia.
Import ListNotations.
Open Scope string_scope.
Open Scope list_scope.
Open Scope nat_scope.

Set Warnings "-register-all".

(** ** Term graph model *)

(** Python scalars stored in node fields.  A float is carried as an exact
    rational token: the rewrites only move it around. *)
Inductive scalar : Type :=
| SNone
| SBool (b : bool)
| SInt (z : Z)
| SFloat (q : Q)
| SStr (s : string).

(** Class families of the operations that the rewrites only test with
    [isinstance]; the concrete class name is kept beside the family. *)
Inductive kind : Type :=
| KTable | KView | KAggregate | KJoinChain | KSet | KLimit | KRelation
| KCountStar | KCountDistinctStar | KExistsSubquery | KInSubquery | KUnnest
| KImpure | KScalarParameter | KValue.

(** Nodes are immutable terms; structural equality is node identity
    (interning).  The first six constructors and the relation kinds of [Op]
    are relations, the others are values.  Field order is the order of
    [__args__]. *)
Inductive node : Type :=
| Project (parent : node) (values : list (string * node))
| Filter (parent : node) (predicates : list node)
| Sort (parent : node) (keys : list node)
| Sample (parent : node) (fraction : Q) (method : string) (seed : option Z)
| Select (parent : node) (selections : list (string * node))
         (predicates : list node) (sort_keys : list node)
| CTE (parent : node)
| Field (rel : node) (name : string)
| Literal (value : scalar) (dtype : string)
| SortKey (expr : node) (ascending : bool)
| WindowFunction (func : node) (how : string) (start end_ : option node)
                 (group_by order_by : list node)
| First (arg : node) (where_ : option node)
| Last (arg : node) (where_ : option node)
| FirstValue (arg : node)
| LastValue (arg : node)
| Op (k : kind) (cls : string) (attrs : list scalar) (args : list node).

Definition Q_eq_dec (a b : Q) : {a = b} + {a <> b}.
Proof. decide equality; [apply Pos.eq_dec | apply Z.eq_dec]. Defined.

Definition scalar_eq_dec (a b : scalar) : {a = b} + {a <> b}.
Proof.
  decide equality;
    [apply Bool.bool_dec | apply Z.eq_dec | apply Q_eq_dec | apply string_dec].
Defined.

Definition kind_eq_dec (a b : kind) : {a = b} + {a <> b}.
Proof. decide equality. Defined.

(** Structural equality of nodes ([__eq__] / [__hash__] of interned nodes). *)
Fixpoint node_eq_dec (a b : node) {struct a} : {a = b} + {a <> b}.
Proof.
  decide equality;
    try apply string_dec; try apply Bool.bool_dec; try apply Q_eq_dec;
    try apply scalar_eq_dec; try apply kind_eq_dec;
    try (apply list_eq_dec;
         first [ apply node_eq_dec | apply scalar_eq_dec
               | decide equality; first [apply node_eq_dec | apply string_dec]]);
    try (decide equality; first [apply node_eq_dec | apply Z.eq_dec]).
Defined.

Definition node_eqb (a b : node) : bool :=
  if node_eq_dec a b then true else false.

Definition mem (n : node) (l : list node) : bool := existsb (node_eqb n) l.

(** *** [isinstance] tests *)

Definition kind_is_relation (k : kind) : bool :=
  match k with
  | KTable | KView | KAggregate | KJoinChain | KSet | KLimit | KRelation => true
  | _ => false
  end.

Definition is_Relation (n : node) : bool :=
  match n with
  | Project _ _ | Filter _ _ | Sort _ _ | Sample _ _ _ _
  | Select _ _ _ _ | CTE _ => true
  | Op k _ _ _ => kind_is_relation k
  | _ => false
  end.

Definition is_Value (n : node) : bool := negb (is_Relation n).

Definition is_Field (n : node) : bool :=
  match n with Field _ _ => true | _ => false end.

Definition is_Select (n : node) : bool :=
  match n with Select _ _ _ _ => true | _ => false end.

Definition is_CTE (n : node) : bool :=
  match n with CTE _ => true | _ => false end.

Definition is_kind (k0 : kind) (n : node) : bool :=
  match n with
  | Op k _ _ _ => if kind_eq_dec k k0 then true else false
  | _ => false
  end.

Definition is_View : node -> bool := is_kind KView.

Definition is_WindowFunction (n : node) : bool :=
  match n with WindowFunction _ _ _ _ _ _ => true | _ => false end.

(** *** Children and reconstruction *)

Definition opt_list {A : Type} (o : option A) : list A :=
  match o with Some x => [x] | None => [] end.

(** [__children__]: the node arguments, collections flattened, in field
    order and with repetitions. *)
Definition children (n : node) : list node :=
  match n with
  | Project p vs => p :: map snd vs
  | Filter p ps => p :: ps
  | Sort p ks => p :: ks
  | Sample p _ _ _ => [p]
  | Select p sels ps ks => p :: map snd sels ++ ps ++ ks
  | CTE p => [p]
  | Field r _ => [r]
  | Literal _ _ => []
  | SortKey e _ => [e]
  | WindowFunction f _ s e g o => f :: opt_list s ++ opt_list e ++ g ++ o
  | First a w => a :: opt_list w
  | Last a w => a :: opt_list w
  | FirstValue a => [a]
  | LastValue a => [a]
  | Op _ _ _ args => args
  end.

Definition re_node (d : node) (cs : list node) : node * list node :=
  match cs with c :: r => (c, r) | [] => (d, []) end.

Definition re_opt (o : option node) (cs : list node)
  : option node * list node :=
  match o with
  | None => (None, cs)
  | Some d => let (c, r) := re_node d cs in (Some c, r)
  end.

Definition re_list (l : list node) (cs : list node) : list node * list node :=
  (firstn (length l) cs, skipn (length l) cs).

Definition re_dict (d : list (string * node)) (cs : list node)
  : list (string * node) * list node :=
  (combine (map fst d) (firstn (length d) cs), skipn (length d) cs).

(** [node.__recreate__(kwargs)]: the same class and the same non-node fields
    over new children, given in the order of [children]. *)
Definition recreate (n : node) (cs : list node) : node :=
  match n with
  | Project p vs =>
      let (p', r) := re_node p cs in
      let (vs', _) := re_dict vs r in Project p' vs'
  | Filter p ps =>
      let (p', r) := re_node p cs in
      let (ps', _) := re_list ps r in Filter p' ps'
  | Sort p ks =>
      let (p', r) := re_node p cs in
      let (ks', _) := re_list ks r in Sort p' ks'
  | Sample p fr m sd => let (p', _) := re_node p cs in Sample p' fr m sd
  | Select p sels ps ks =>
      let (p', r) := re_node p cs in
      let (sels', r) := re_dict sels r in
      let (ps', r) := re_list ps r in
      let (ks', _) := re_list ks r in Select p' sels' ps' ks'
  | CTE p => let (p', _) := re_node p cs in CTE p'
  | Field r0 nm => let (r', _) := re_node r0 cs in Field r' nm
  | Literal v t => Literal v t
  | SortKey e asc => let (e', _) := re_node e cs in SortKey e' asc
  | WindowFunction f how s e g o =>
      let (f', r) := re_node f cs in
      let (s', r) := re_opt s r in
      let (e', r) := re_opt e r in
      let (g', r) := re_list g r in
      let (o', _) := re_list o r in WindowFunction f' how s' e' g' o'
  | First a w =>
      let (a', r) := re_node a cs in
      let (w', _) := re_opt w r in First a' w'
  | Last a w =>
      let (a', r) := re_node a cs in
      let (w', _) := re_opt w r in Last a' w'
  | FirstValue a => let (a', _) := re_node a cs in FirstValue a'
  | LastValue a => let (a', _) := re_node a cs in LastValue a'
  | Op k c at_ args => let (args', _) := re_list args cs in Op k c at_ args'
  end.

(** Bottom-up evaluation: [f] receives the node and the results of its
    children in the order of [children].  This is the recursion behind
    [Node.map] and [Node.map_nodes], whose result table is keyed by node. *)
Fixpoint fold_node {A : Type} (f : node -> list A -> A) (n : node) : A :=
  let go := fold_node f in
  let god := map (fun kv : string * node => go (snd kv)) in
  let goo := fun o : option node =>
               match o with Some x => [go x] | None => [] end in
  f n match n with
      | Project p vs => go p :: god vs
      | Filter p ps => go p :: map go ps
      | Sort p ks => go p :: map go ks
      | Sample p _ _ _ => [go p]
      | Select p sels ps ks => go p :: god sels ++ map go ps ++ map go ks
      | CTE p => [go p]
      | Field r _ => [go r]
      | Literal _ _ => []
      | SortKey e _ => [go e]
      | WindowFunction fn _ s e g o =>
          go fn :: goo s ++ goo e ++ map go g ++ map go o
      | First a w => go a :: goo w
      | Last a w => go a :: goo w
      | FirstValue a => [go a]
      | LastValue a => [go a]
      | Op _ _ _ args => map go args
      end.

Definition list_sum_nat (l : list nat) : nat := fold_right Nat.add 0 l.

(** Number of constructors of the term, used as induction measure. *)
Definition size (n : node) : nat :=
  fold_node (fun _ rs => S (list_sum_nat rs)) n.

(** ** Errors and rewrite rules *)

Inductive exn : Type :=
| UnsupportedOperationError (msg : string)
| KeyError
| AssertionError.

Inductive result (A : Type) : Type :=
| Ok (a : A)
| Raise (e : exn).
Arguments Ok {A} a.
Arguments Raise {A} e.

Definition bind {A B : Type} (m : result A) (k : A -> result B) : result B :=
  match m with Ok a => k a | Raise e => Raise e end.

Notation "x <- m ;; k" := (bind m (fun x => k))
  (at level 61, m at next level, right associativity).

(** A rule built with [@replace(pattern)]: [None] when the pattern does not
    match the node, otherwise the replacement or the exception raised. *)
Definition rule : Type := node -> option (result node).

(** Alternation [a | b] of rules: the first matching rule wins. *)
Definition alt (a b : rule) : rule :=
  fun n => match a n with Some r => Some r | None => b n end.

(** ** Dependency graph utility *)

(** A [Graph] is a dict from node to its (filtered) children, in insertion
    order. *)
Definition graph : Type := list (node * list node).

Definition nodes (g : graph) : list node := map fst g.

Definition total_size (l : list node) : nat := list_sum_nat (map size l).

(** The [while queue:] loop of [Graph.from_bfs].  Each iteration pops the
    head of the queue; the fuel bounds the number of iterations. *)
Fixpoint bfs_loop (filt : node -> bool) (fuel : nat) (queue : list node)
  (g : graph) : graph :=
  match fuel with
  | 0 => g
  | S fuel' =>
      match queue with
      | [] => g
      | n :: queue' =>
          if mem n (nodes g) then bfs_loop filt fuel' queue' g
          else
            let cs := filter filt (children n) in
            bfs_loop filt fuel' (queue' ++ cs) (g ++ [(n, cs)])
      end
  end.

(** Modelled from the spec: [Graph.from_bfs(roots, filter)] of
    [ibis.common.graph], a breadth-first traversal from the roots that does
    not descend past excluded nodes and exposes the reachable nodes in
    discovery order.  The fuel [total_size queue] is enough for the loop to
    empty the queue (lemma [bfs_loop_inv]). *)
Definition from_bfs (roots : list node) (filt : node -> bool) : graph :=
  let queue := filter filt roots in
  bfs_loop filt (total_size queue) queue [].

(** Nodes reachable from the admitted roots through admitted children. *)
Inductive reach (filt : node -> bool) (roots : list node) : node -> Prop :=
| reach_root r : In r roots -> filt r = true -> reach filt roots r
| reach_step m c :
    reach filt roots m -> In c (children m) -> filt c = true ->
    reach filt roots c.
Arguments reach_root {filt roots}.
Arguments reach_step {filt roots}.

Definition no_filter (_ : node) : bool := true.

(** The value subtrees of a node: its value arguments and whatever lies
    below them through values only, never entering a nested relation. *)
Definition value_below (n m : node) : Prop := reach is_Value (children n) m.

(** [m] is the value [v] or lies below it through values only. *)
Definition value_within (v m : node) : Prop := reach is_Value [v] m.

(** [m] is [n] or lies anywhere below it. *)
Definition descends (n m : node) : Prop := reach no_filter [n] m.

(** Invariant of the loop: every entry lists the admitted children of its
    node, and each of them is either expanded already or waiting in the
    queue. *)
Definition closed_upto (filt : node -> bool) (g : graph)
  (queue : list node) : Prop :=
  forall k cs, In (k, cs) g ->
    cs = filter filt (children k) /\
    forall c, In c cs -> In c (nodes g) \/ In c queue.

(** Modelled from the spec: [Graph.invert] of [ibis.common.graph], per node
    of the graph the nodes that directly reference it, in the order of the
    graph.  A referencing node is listed once for each of its references:
    a node that holds the same child twice counts twice in the
    [len(dependents)] of [extract_ctes].  (The spec speaks of distinct
    referencing nodes; the two readings agree unless a node lists the same
    child more than once.) *)
Definition dependents (g : graph) (n : node) : list node :=
  flat_map (fun e : node * list node =>
              map (fun _ : node => fst e) (filter (node_eqb n) (snd e))) g.

Definition invert (g : graph) : graph :=
  map (fun e : node * list node => (fst e, dependents g (fst e))) g.

(** Modelled from the spec: [Node.find(finder, filter)] and
    [Node.find_below(finder, filter)] of [ibis.common.graph]: the matching
    nodes of the breadth-first graph from the node, respectively from its
    children. *)
Definition find_nodes (finder : node -> bool) (filt : node -> bool)
  (n : node) : list node :=
  filter finder (nodes (from_bfs [n] filt)).

(** [Node.find_below]: as [find], from the children of the node. *)
Definition find_below (finder : node -> bool) (filt : node -> bool)
  (n : node) : list node :=
  filter finder (nodes (from_bfs (children n) filt)).

(** ** Substitution substrate *)

Definition dict_get (n : node) (d : list (node * node)) : option node :=
  match find (fun kv : node * node => node_eqb n (fst kv)) d with
  | Some kv => Some (snd kv)
  | None => None
  end.

(** [_recursive_lookup]: a child that the filter excludes has no entry in
    the result table and is kept as it is. *)
Fixpoint keep_filtered (filt : node -> bool) (cs rs : list node) : list node :=
  match cs, rs with
  | c :: cs', r :: rs' =>
      (if filt c then r else c) :: keep_filtered filt cs' rs'
  | _, _ => []
  end.

(** Modelled from the spec: [Node.replace(mapping, filter)] of
    [ibis.common.graph].  Bottom-up over the nodes that the filter admits: a
    node that is a key of the mapping becomes its value, any other node is
    recreated from its rewritten children.  The root is returned unchanged
    when the filter excludes it. *)
Definition replace_mapping (subs : list (node * node)) (filt : node -> bool)
  (n : node) : node :=
  if filt n then
    fold_node (fun m rs =>
                 match dict_get m subs with
                 | Some v => v
                 | None => recreate m (keep_filtered filt (children m) rs)
                 end) n
  else n.

Fixpoint sequence {A : Type} (l : list (result A)) : result (list A) :=
  match l with
  | [] => Ok []
  | r :: l' => x <- r ;; xs <- sequence l' ;; Ok (x :: xs)
  end.

(** Modelled from the spec: [Node.replace(pattern)] of [ibis.common.graph]
    without filter.  Bottom-up: the node is first recreated from its
    rewritten children, the rule is then tried on the recreated node; an
    exception raised by the rule aborts the traversal. *)
Definition replace_rule (r : rule) (n : node) : result node :=
  fold_node (fun m rs =>
               cs <- sequence rs ;;
               let recreated := recreate m cs in
               match r recreated with
               | Some res => res
               | None => Ok recreated
               end) n.

(** Modelled from the spec: [Node.replace(fn)] of [ibis.common.graph] for a
    function [fn(node, results, **kwargs)], here given the original node and
    its rewritten children. *)
Definition replace_fn (fn : node -> list node -> node) (n : node) : node :=
  fold_node fn n.

(** ** Memoised bottom-up evaluation *)

(** The result table of a traversal: a dict keyed by node, most recent
    entry first. *)
Definition table (A : Type) : Type := list (node * A).

Definition table_get {A : Type} (n : node) (t : table A) : option A :=
  match find (fun e : node * A => node_eqb n (fst e)) t with
  | Some e => Some (snd e)
  | None => None
  end.

(** Evaluate the children from left to right, threading the table. *)
Fixpoint run_all {A : Type} (cs : list (table A -> A * table A))
  (t : table A) : list A * table A :=
  match cs with
  | [] => ([], t)
  | c :: cs' =>
      let (r, t1) := c t in
      let (rs, t2) := run_all cs' t1 in
      (r :: rs, t2)
  end.

Definition map_nodes_from {A : Type} (fn : node -> list A -> A) (n : node)
  : table A -> A * table A :=
  fold_node
    (fun m cs t =>
       match table_get m t with
       | Some r => (r, t)
       | None =>
           let (rs, t') := run_all cs t in
           let r := fn m rs in
           (r, (m, r) :: t')
       end) n.

(** Modelled from the spec: [Node.map_nodes(fn)] of [ibis.common.graph]:
    [fn] receives a node and the results of its children; results are
    memoised per distinct node, so that a subtree visited from several
    parents is evaluated once and reused.  The table of all results is
    returned. *)
Definition map_nodes {A : Type} (fn : node -> list A -> A) (n : node)
  : table A :=
  snd (map_nodes_from fn n []).

(** Invariant of the table: no node is entered twice, every entry holds
    the node's recursive result, and a node is entered after its
    children. *)
Definition table_ok {A : Type} (fn : node -> list A -> A) (t : table A)
  : Prop :=
  NoDup (map fst t)
  /\ (forall m r, In (m, r) t -> r = fold_node fn m)
  /\ (forall m, In m (map fst t) ->
                forall c, In c (children m) -> In c (map fst t)).

(** What one evaluation of node [n] from table [t] guarantees. *)
Definition step_ok {A : Type} (fn : node -> list A -> A) (n : node)
  (t : table A) (out : A * table A) : Prop :=
  fst out = fold_node fn n
  /\ table_ok fn (snd out)
  /\ In n (map fst (snd out))
  /\ incl (map fst t) (map fst (snd out))
  /\ (forall m, In m (map fst (snd out)) ->
                In m (map fst t) \/ descends n m).

(** ** Derived attributes of relations *)

Definition keys {A : Type} (d : list (string * A)) : list string := map fst d.

Definition attr_names (attrs : list scalar) : list string :=
  flat_map (fun a => match a with SStr s => [s] | _ => [] end) attrs.

(** Modelled from the spec: the column names of the [schema] attribute.
    [Select] and [CTE] follow the source; the relation classes of
    [ibis.expr.operations] are not part of this file: a projection has the
    names of its values, a filter, sort or sample those of its parent, a
    view, set operation or limit those of its first argument, and any other
    relation lists its column names in [attrs]. *)
Fixpoint schema_names (n : node) : list string :=
  match n with
  | Select _ sels _ _ => keys sels
  | CTE p => schema_names p
  | Project _ vs => keys vs
  | Filter p _ | Sort p _ | Sample p _ _ _ => schema_names p
  | Op k _ attrs args =>
      match k, args with
      | (KView | KSet | KLimit), p :: _ => schema_names p
      | _, _ => attr_names attrs
      end
  | _ => []
  end.

(** The [values] attribute: [Select.values] and [CTE.values] as in the
    source; the stored values of a projection; for the other relations the
    fields of the relation's columns. *)
Fixpoint values_of (n : node) : list (string * node) :=
  match n with
  | Select _ sels _ _ => sels
  | CTE p => values_of p
  | Project _ vs => vs
  | Filter p _ | Sort p _ | Sample p _ _ _ =>
      map (fun k => (k, Field p k)) (schema_names p)
  | _ => map (fun k => (k, Field n k)) (schema_names n)
  end.

(** [_.parent] of the relations that have one. *)
Definition parent_of (n : node) : node :=
  match n with
  | Project p _ | Filter p _ | Sort p _ | Sample p _ _ _
  | Select p _ _ _ | CTE p => p
  | _ => n
  end.

(** [s.expr] of a sort key ([sort_keys] holds [SortKey] nodes only). *)
Definition expr_of (s : node) : node :=
  match s with SortKey e _ => e | _ => s end.

(** ** Lowering rules *)

(** Convert a Project node to a Select node. *)
Definition project_to_select : rule := fun n =>
  match n with
  | Project parent _ => Some (Ok (Select parent (values_of n) [] []))
  | _ => None
  end.

(** Convert a Filter node to a Select node. *)
Definition filter_to_select : rule := fun n =>
  match n with
  | Filter parent predicates =>
      Some (Ok (Select parent (values_of n) predicates []))
  | _ => None
  end.

(** Convert a Sort node to a Select node. *)
Definition sort_to_select : rule := fun n =>
  match n with
  | Sort parent keys_ => Some (Ok (Select parent (values_of n) [] keys_))
  | _ => None
  end.

Definition is_First (n : node) : bool :=
  match n with First _ _ => true | _ => false end.

(** [_.copy(func=f)] of a window function: the same node with another
    [func] field. *)
Definition copy_func (n : node) (f : node) : node :=
  match n with
  | WindowFunction _ how start end_ group_by order_by =>
      WindowFunction f how start end_ group_by order_by
  | _ => n
  end.

(** Convert a First or Last node to a FirstValue or LastValue node. *)
Definition first_to_firstvalue : rule := fun n =>
  match n with
  | WindowFunction func _ _ _ _ _ =>
      match func with
      | First arg where_ | Last arg where_ =>
          match where_ with
          | Some _ =>
              Some (Raise (UnsupportedOperationError
                ("`" ++ (if is_First func then "first" else "last")
                 ++ "` with `where` is unsupported in a window function")))
          | None =>
              let klass := if is_First func then FirstValue else LastValue in
              Some (Ok (copy_func n (klass arg)))
          end
      | _ => None
      end
  | _ => None
  end.

(** Modelled from the spec: [replace_parameter] of [ibis.expr.rewrites]: a
    scalar parameter becomes the literal bound to it in [params]; an unbound
    parameter is an error.  The parameter's type name is its class field. *)
Definition replace_parameter (params : list (node * scalar)) : rule := fun n =>
  match n with
  | Op KScalarParameter dtype _ _ =>
      match find (fun kv : node * scalar => node_eqb n (fst kv)) params with
      | Some kv => Some (Ok (Literal (snd kv) dtype))
      | None => Some (Raise KeyError)
      end
  | _ => None
  end.

(** ** Select-merge engine *)

Definition accum (n : node) (args : list nat) : nat :=
  if is_Field n then 1 else 1 + list_sum_nat args.

(** Assign a complexity score to a node. *)
Definition complexity (n : node) : nat :=
  match table_get n (map_nodes accum n) with
  | Some score => score
  | None => 0
  end.

(** [toolz.unique]: the items in order, each kept the first time it is
    seen. *)
Fixpoint unique_from (seen : list node) (l : list node) : list node :=
  match l with
  | [] => []
  | x :: l' =>
      if mem x seen then unique_from seen l'
      else x :: unique_from (x :: seen) l'
  end.

Definition unique (l : list node) : list node := unique_from [] l.

Definition blocking (n : node) : bool :=
  is_WindowFunction n || is_kind KExistsSubquery n || is_kind KInSubquery n
  || is_kind KUnnest n || is_kind KImpure n.

(** Truth value of a Python list. *)
Definition truthy {A : Type} (l : list A) : bool :=
  match l with [] => false | _ :: _ => true end.

(** The substitution of the inner relation's fields by their expressions. *)
Definition field_subs (inner : node) : list (node * node) :=
  map (fun kv : string * node => (Field inner (fst kv), snd kv))
      (values_of inner).

(** [_.selections], [_.predicates] and [_.sort_keys] of a Select. *)
Definition selections_of (n : node) : list (string * node) :=
  match n with Select _ sels _ _ => sels | _ => [] end.

Definition predicates_of (n : node) : list node :=
  match n with Select _ _ ps _ => ps | _ => [] end.

Definition sort_keys_of (n : node) : list node :=
  match n with Select _ _ _ ks => ks | _ => [] end.

(** Lookup of a name in a [FrozenDict] (its keys are unique). *)
Definition dict_lookup (name : string) (d : list (string * node))
  : option node :=
  match find (fun kv : string * node => String.eqb name (fst kv)) d with
  | Some kv => Some (snd kv)
  | None => None
  end.

(** De-duplication by structural equality that keeps the first occurrence
    of every item, stated directly. *)
Fixpoint dedup_first (l : list node) : list node :=
  match l with
  | [] => []
  | x :: l' => x :: filter (fun y => negb (node_eqb y x)) (dedup_first l')
  end.

(** No blocking operation lies in the value subtrees of the node. *)
Definition unblocked (n : node) : Prop :=
  forall m, value_below n m -> blocking m = false.

(** The candidate built by [merge_select_select] once the blocking check
    has passed, before the complexity guard; [outer] is the matched node
    [_] and [inner] is [_.parent]. *)
Definition merged_select (outer : node) : node :=
  let inner := parent_of outer in
  let subs := field_subs inner in
  let selections :=
    map (fun kv : string * node =>
           (fst kv, replace_mapping subs is_Value (snd kv)))
        (selections_of outer) in
  let predicates :=
    map (replace_mapping subs is_Value) (predicates_of outer) in
  let unique_predicates := unique (predicates_of inner ++ predicates) in
  let sort_keys :=
    map (replace_mapping subs is_Value) (sort_keys_of outer) in
  let sort_key_exprs := map expr_of sort_keys in
  let parent_sort_keys :=
    filter (fun k => negb (mem (expr_of k) sort_key_exprs))
           (sort_keys_of inner) in
  let unique_sort_keys := sort_keys ++ parent_sort_keys in
  Select (parent_of inner) selections unique_predicates unique_sort_keys.

(** Merge subsequent Select relations into one. *)
Definition merge_select_select : rule := fun n =>
  match n with
  | Select (Select _ _ _ _ as inner) _ _ _ =>
      if truthy (find_below blocking is_Value n) then Some (Ok n)
      else if truthy (find_below blocking is_Value inner) then Some (Ok n)
      else
        let result := merged_select n in
        Some (Ok (if complexity result <=? complexity n then result else n))
  | _ => None
  end.

(** ** CTE extractor and orchestrator *)

Definition is_Sample (n : node) : bool :=
  match n with Sample _ _ _ _ => true | _ => false end.

Definition cte_types (n : node) : bool :=
  is_Select n || is_kind KAggregate n || is_kind KJoinChain n
  || is_kind KSet n || is_kind KLimit n || is_Sample n.

Definition dont_count (n : node) : bool :=
  is_Field n || is_kind KCountStar n || is_kind KCountDistinctStar n.

(** [~InstanceOf(dont_count)]. *)
Definition counted (n : node) : bool := negb (dont_count n).

Definition extract_ctes (n : node) : list node :=
  let g := from_bfs [n] counted in
  map fst
    (filter (fun e : node * list node =>
               is_View (fst e)
               || ((1 <? length (snd e)) && cte_types (fst e)))
            (invert g)).

(** The closure [wrap] of [sqlize]. *)
Definition wrap (ctes : list node) (n : node) (kwargs : list node) : node :=
  let new := recreate n kwargs in
  if mem n ctes then CTE new else new.

Definition core_rules (params : list (node * scalar)) : rule :=
  alt (replace_parameter params)
    (alt project_to_select
      (alt filter_to_select
        (alt sort_to_select first_to_firstvalue))).

(** Lower the ibis expression graph to a SQL-like relational algebra:
    the rewritten graph and the list of CTEs. *)
Definition sqlize (root : node) (params : list (node * scalar))
  (rewrites : list rule) : result (node * list node) :=
  if negb (is_Relation root) then Raise AssertionError
  else
    n1 <- match rewrites with
          | [] => Ok root
          | r :: rs => replace_rule (fold_left alt rs r) root
          end ;;
    sqlized <- replace_rule (core_rules params) n1 ;;
    simplified <- replace_rule merge_select_select sqlized ;;
    let ctes := extract_ctes simplified in
    let result := replace_fn (wrap ctes) simplified in
    let ctes' := rev (map parent_of (find_nodes is_CTE no_filter result)) in
    Ok (result, ctes').

(** The dependency graph of the CTE extractor and the rewriting done by
    [simplified.replace(wrap)]. *)
Definition dependency_graph (n : node) : graph := from_bfs [n] counted.

Definition wrap_ctes (simplified : node) : node -> node :=
  replace_fn (wrap (extract_ctes simplified)).

(** The number of references to [n] from the nodes of the graph: a node
    that holds [n] twice among its children refers to it twice. *)
Definition references (g : graph) (n : node) : nat :=
  list_sum_nat (map (fun m => count_occ node_eq_dec (children m) n)
                  (nodes g)).

(** A rule leaves the node alone: it does not match, or returns it. *)
Definition rule_fixes (r : rule) (n : node) : Prop :=
  r n = None \/ r n = Some (Ok n).

Definition rule_fixesb (r : rule) (n : node) : bool :=
  match r n with
  | None => true
  | Some (Ok m) => node_eqb m n
  | Some (Raise _) => false
  end.

(** The shape [Object(Select, Object(Select))] that [merge_select_select]
    matches. *)
Definition is_select_pair (n : node) : bool :=
  match n with
  | Select (Select _ _ _ _) _ _ _ => true
  | _ => false
  end.

(** Fully merged: every Select directly over a Select is one that
    [merge_select_select] gives up, because the outer or the inner Select
    holds a blocking operation or because the merged node would score
    more. *)
Definition fully_merged (g : node) : Prop :=
  forall m, descends g m -> is_select_pair m = true ->
    truthy (find_below blocking is_Value m) = true
    \/ truthy (find_below blocking is_Value (parent_of m)) = true
    \/ complexity m < complexity (merged_select m).

(** The graph holds no view. *)
Definition view_free (g : node) : Prop :=
  forall m, descends g m -> is_View m = false.

(** [node.__recreate__(kwargs)] in the closure [wrap]: the node over its
    rewritten children. *)
Definition reconstructed (simplified n : node) : node :=
  recreate n (map (wrap_ctes simplified) (children n)).

(** [isinstance(n, (ops.First, ops.Last))]. *)
Definition first_last (n : node) : bool :=
  match n with First _ _ | Last _ _ => true | _ => false end.

(** ** Supplemental rewrites *)

Definition RandomScalar : node := Op KImpure "RandomScalar" [] [].

Definition LessEqual (left right : node) : node :=
  Op KValue "LessEqual" [] [left; right].

(** Rewrite Sample as [t.filter(random() <= fraction)]; errors as
    unsupported if a seed is specified.  The Python float [_.fraction] is
    coerced to a literal by the comparison's constructor. *)
Definition rewrite_sample_as_filter : rule := fun n =>
  match n with
  | Sample parent fraction _ seed =>
      match seed with
      | Some _ =>
          Some (Raise (UnsupportedOperationError
            "`Table.sample` with a random seed is unsupported"))
      | None =>
          Some (Ok (Filter parent
                      [LessEqual RandomScalar
                         (Literal (SFloat fraction) "float64")]))
      end
  | _ => None
  end.

(** ** Example graphs *)

Definition Add (left right : node) : node := Op KValue "Add" [] [left; right].

Definition Multiply (left right : node) : node :=
  Op KValue "Multiply" [] [left; right].

Definition int_lit (z : Z) : node := Literal (SInt z) "int64".

(** A table [r] with columns [x] and [y]. *)
Definition ex_R : node := Op KTable "r" [SStr "x"; SStr "y"] [].

(** [Select(Select(R, {a: R.x + 1}), {b: a * 2})]. *)
Definition ex_inner : node :=
  Select ex_R [("a", Add (Field ex_R "x") (int_lit 1))] [] [].

Definition ex_outer : node :=
  Select ex_inner [("b", Multiply (Field ex_inner "a") (int_lit 2))] [] [].

Definition ex_merged : node :=
  Select ex_R
    [("b", Multiply (Add (Field ex_R "x") (int_lit 1)) (int_lit 2))] [] [].

Definition ScalarSubquery (r : node) : node :=
  Op KValue "ScalarSubquery" [] [r].

(** [Select(inner, {b: (SELECT max(a) FROM inner)})]: the outer selection
    refers to the inner relation through a scalar subquery. *)
Definition ex_agg : node :=
  Op KAggregate "Aggregate" [SStr "m"]
     [ex_inner; Op KValue "Max" [] [Field ex_inner "a"]].

Definition ex_sub_outer : node :=
  Select ex_inner [("b", ScalarSubquery ex_agg)] [] [].

(** [Select(Select(R, sort by x desc, y), {x: x}, sort by x asc)]: the
    inner key on [x] is superseded by the outer key on the same
    expression. *)
Definition ex_sort_inner : node :=
  Select ex_R [("x", Field ex_R "x")] []
    [SortKey (Field ex_R "x") false; SortKey (Field ex_R "y") true].

Definition ex_sort_outer : node :=
  Select ex_sort_inner [("x", Field ex_sort_inner "x")] []
    [SortKey (Field ex_sort_inner "x") true].

Definition Limit (parent : node) (n : Z) : node :=
  Op KLimit "Limit" [SInt n; SInt 0] [parent].

Definition Union (left right : node) : node :=
  Op KSet "Union" [SBool true] [left; right].

(** [a = r.limit(10); b = a.limit(5);
     a.union(b.limit(1).union(b.limit(2)))]: [a] and [b] are both shared,
    and [b] is built on [a]. *)
Definition ex_a : node := Limit ex_R 10.
Definition ex_b : node := Limit ex_a 5.
Definition ex_union : node :=
  Union ex_a (Union (Limit ex_b 1) (Limit ex_b 2)).

(** The same relations once [a] and [b] are wrapped. *)
Definition ex_b' : node := Limit (CTE ex_a) 5.
Definition ex_union' : node :=
  Union (CTE ex_a) (Union (Limit (CTE ex_b') 1) (Limit (CTE ex_b') 2)).

(** A view over the table, and a selection from it. *)
Definition ex_view : node := Op KView "View" [SStr "v"] [ex_R].




Definition ex_from_view : node :=
  Select ex_view [("x", Field ex_view "x")] [] [].

(** [Project(Project(R, {a: R.x + 1}), {b: a * 2})]. *)
Definition ex_project : node :=
  let p1 := Project ex_R [("a", Add (Field ex_R "x") (int_lit 1))] in
  Project p1 [("b", Multiply (Field p1 "a") (int_lit 2))].

(** The outer selection uses [a] twice (a tie of the scores), respectively
    three times (inlining costs more than the nested pair). *)
Definition ex_twice : node :=
  Select ex_inner
    [("b", Add (Field ex_inner "a") (Field ex_inner "a"))] [] [].

Definition ex_thrice : node :=
  Select ex_inner
    [("b", Add (Add (Field ex_inner "a") (Field ex_inner "a"))
               (Field ex_inner "a"))] [] [].

(** A chain of three projections whose middle step is too costly to merge
    into the innermost one. *)
Definition ex_chain : node :=
  let p1 := Project ex_R [("a", Add (Field ex_R "x") (int_lit 1))] in
  let p2 := Project p1
              [("b", Add (Add (Field p1 "a") (Field p1 "a"))
                         (Field p1 "a"))] in
  Project p2 [("c", int_lit 1)].

(** [Project(Project(R, {a: first(R.x) over ()}), {b: a})]. *)
Definition ex_window : node :=
  let w := WindowFunction (First (Field ex_R "x") None) "rows" None None
             [] [] in
  let p1 := Project ex_R [("a", w)] in
  Project p1 [("b", Field p1 "a")].

(** ** Further notions for the properties of the rewrites *)

(** The projection of every column of a relation: [{k: Field(rel, k)}]. *)
Definition all_fields (rel : node) (names : list string)
  : list (string * node) :=
  map (fun k => (k, Field rel k)) names.

(** A First or Last that carries a [where] filter. *)
Definition where_set (f : node) : bool :=
  match f with
  | First _ (Some _) | Last _ (Some _) => true
  | _ => false
  end.

(** A window function over such a First or Last: what
    [first_to_firstvalue] rejects. *)
Definition filtered_first_last (n : node) : bool :=
  match n with
  | WindowFunction f _ _ _ _ _ => where_set f
  | _ => false
  end.

(** The operations that [project_to_select], [filter_to_select] and
    [sort_to_select] lower. *)
Definition is_high_level (n : node) : bool :=
  match n with
  | Project _ _ | Filter _ _ | Sort _ _ => true
  | _ => false
  end.

(** Every node of the graph satisfies [P]. *)
Definition all_below (P : node -> bool) (g : node) : Prop :=
  forall m, descends g m -> P m = true.

Definition lowered_head (n : node) : bool := negb (is_high_level n).

(** ** More supplemental rewrites *)

(** [isinstance] against one of several leaf classes, by class name. *)
Definition is_class (names : list string) (n : node) : bool :=
  match n with
  | Op _ cls _ _ => existsb (String.eqb cls) names
  | _ => false
  end.

(** [_.copy(start=s, end=e, order_by=o)] of a window function. *)
Definition copy_frame (n : node) (s e : option node) (o : list node) : node :=
  match n with
  | WindowFunction f how _ _ group_by _ => WindowFunction f how s e group_by o
  | _ => n
  end.

(** [_.copy(order_by=o)] of a window function. *)
Definition copy_order_by (n : node) (o : list node) : node :=
  match n with
  | WindowFunction f how s e group_by _ => WindowFunction f how s e group_by o
  | _ => n
  end.

(** [_.order_by or (ops.NULL,)]: an empty tuple is falsy. *)
Definition order_by_or (o : list node) (default : list node) : list node :=
  match o with [] => default | _ :: _ => o end.

Section Supplemental.

(** The constant [ops.NULL] of [ibis.expr.operations], and the nodes that
    the Python integers [0] (as a frame bound) and [1] (as an operand) are
    coerced to by the constructors; none is defined in this file. *)
Variables (NULL zero one : node).

Definition Subtract (left right : node) : node :=
  Op KValue "Subtract" [] [left; right].

(** [@replace(p.WindowFunction(order_by=()))]. *)
Definition rewrite_empty_order_by_window : rule := fun n =>
  match n with
  | WindowFunction _ _ _ _ _ [] => Some (Ok (copy_order_by n [NULL]))
  | _ => None
  end.

(** [@replace(p.WindowFunction(p.RowNumber | p.NTile))]. *)
Definition exclude_unsupported_window_frame_from_row_number : rule := fun n =>
  match n with
  | WindowFunction f _ _ _ _ order_by =>
      if is_class ["RowNumber"; "NTile"] f
      then Some (Ok (Subtract (copy_frame n None (Some zero) order_by) one))
      else None
  | _ => None
  end.

(** [@replace(p.WindowFunction(p.MinRank | p.DenseRank, start=None))]. *)
Definition exclude_unsupported_window_frame_from_rank : rule := fun n =>
  match n with
  | WindowFunction f _ None _ _ order_by =>
      if is_class ["MinRank"; "DenseRank"] f
      then Some (Ok (Subtract
                       (copy_frame n None (Some zero)
                          (order_by_or order_by [NULL])) one))
      else None
  | _ => None
  end.

(** [@replace(p.WindowFunction(p.Lag | p.Lead | p.PercentRank | p.CumeDist
    | p.Any | p.All, start=None))]. *)
Definition exclude_unsupported_window_frame_from_ops : rule := fun n =>
  match n with
  | WindowFunction f _ None _ _ order_by =>
      if is_class ["Lag"; "Lead"; "PercentRank"; "CumeDist"; "Any"; "All"] f
      then Some (Ok (copy_frame n None (Some zero)
                       (order_by_or order_by [NULL])))
      else None
  | _ => None
  end.

End Supplemental.

(** No core lowering rule matches the node. *)
Definition no_core_match (params : list (node * scalar)) (n : node) : bool :=
  match core_rules params n with None => true | Some _ => false end.

(** Removal of every CTE wrapper of a graph, bottom-up. *)
Definition strip_ctes (n : node) : node :=
  fold_node (fun m cs =>
               match m, cs with
               | CTE _, c :: _ => c
               | _, _ => recreate m cs
               end) n.

Definition not_CTE (n : node) : bool := negb (is_CTE n).

(** A window function has at least one ordering key; every other node
    counts as ordered. *)
Definition ordered (n : node) : bool :=
  match n with
  | WindowFunction _ _ _ _ _ [] => false
  | _ => true
  end.

Definition no_window (n : node) : bool := negb (is_WindowFunction n).
(** ** Basic facts about the term graph model *)

Lemma node_eqb_eq (a b : node) : node_eqb a b = true <-> a = b.
Proof.
  unfold node_eqb. destruct (node_eq_dec a b); split; congruence.
Qed.

Lemma node_eqb_refl (a : node) : node_eqb a a = true.
Proof. now apply node_eqb_eq. Qed.

Lemma node_eqb_neq (a b : node) : node_eqb a b = false <-> a <> b.
Proof.
  unfold node_eqb. destruct (node_eq_dec a b); split; congruence.
Qed.

Lemma mem_In (n : node) (l : list node) : mem n l = true <-> In n l.
Proof.
  unfold mem. rewrite existsb_exists. split.
  - intros (x & Hx & E). apply node_eqb_eq in E. now subst.
  - intros H. exists n. split; [assumption | apply node_eqb_refl].
Qed.

Lemma mem_not_In (n : node) (l : list node) : mem n l = false <-> ~ In n l.
Proof.
  rewrite <- mem_In. destruct (mem n l); split; congruence.
Qed.

Lemma opt_list_map {A B : Type} (g : A -> B) (o : option A) :
  match o with Some x => [g x] | None => [] end = map g (opt_list o).
Proof. now destruct o. Qed.

Lemma fold_node_eq {A : Type} (f : node -> list A -> A) (n : node) :
  fold_node f n = f n (map (fold_node f) (children n)).
Proof.
  destruct n; simpl; f_equal;
    repeat rewrite map_app; repeat rewrite map_map;
    repeat rewrite opt_list_map; reflexivity.
Qed.

Lemma size_eq (n : node) : size n = S (list_sum_nat (map size (children n))).
Proof. unfold size at 1. now rewrite fold_node_eq. Qed.

Lemma list_sum_nat_In (x : nat) (l : list nat) :
  In x l -> x <= list_sum_nat l.
Proof.
  induction l as [|y l IH]; simpl; [tauto|].
  intros [->|H]; [lia | specialize (IH H); lia].
Qed.

Lemma children_size (n c : node) : In c (children n) -> size c < size n.
Proof.
  intros H. rewrite (size_eq n).
  assert (size c <= list_sum_nat (map size (children n))).
  { apply list_sum_nat_In. now apply in_map. }
  lia.
Qed.

(** Induction over the term graph through [children]. *)
Lemma node_children_ind (P : node -> Prop) :
  (forall n, (forall c, In c (children n) -> P c) -> P n) ->
  forall n, P n.
Proof.
  intros step n.
  remember (size n) as k eqn:Hk.
  revert n Hk. induction k as [k IH] using lt_wf_ind.
  intros n ->. apply step. intros c Hc.
  apply (IH (size c)); [now apply children_size | reflexivity].
Qed.

Lemma re_list_app (l rest : list node) :
  re_list l (l ++ rest) = (l, rest).
Proof.
  unfold re_list. f_equal.
  - rewrite firstn_app, Nat.sub_diag, firstn_all. simpl. apply app_nil_r.
  - rewrite skipn_app, Nat.sub_diag, skipn_all. reflexivity.
Qed.

Lemma re_dict_app (d : list (string * node)) (rest : list node) :
  re_dict d (map snd d ++ rest) = (d, rest).
Proof.
  unfold re_dict. f_equal.
  - rewrite <- (length_map snd d) at 1.
    rewrite firstn_app, Nat.sub_diag, firstn_all. simpl. rewrite app_nil_r.
    induction d as [|[k v] d IH]; simpl; [reflexivity | now rewrite IH].
  - rewrite <- (length_map snd d).
    rewrite skipn_app, Nat.sub_diag, skipn_all. reflexivity.
Qed.

Lemma re_opt_app (o : option node) (rest : list node) :
  re_opt o (opt_list o ++ rest) = (o, rest).
Proof. destruct o; reflexivity. Qed.

Lemma re_list_all (l : list node) : re_list l l = (l, []).
Proof. rewrite <- (app_nil_r l) at 2. apply re_list_app. Qed.

Lemma re_dict_all (d : list (string * node)) : re_dict d (map snd d) = (d, []).
Proof. rewrite <- (app_nil_r (map snd d)). apply re_dict_app. Qed.

Lemma re_opt_all (o : option node) : re_opt o (opt_list o) = (o, []).
Proof. destruct o; reflexivity. Qed.

Lemma recreate_children (n : node) : recreate n (children n) = n.
Proof.
  destruct n; cbn [recreate children re_node];
    repeat first [ rewrite re_dict_app | rewrite re_opt_app
                 | rewrite re_list_app | rewrite re_dict_all
                 | rewrite re_opt_all | rewrite re_list_all ];
    reflexivity.
Qed.


(** ** Reconstruction keeps the shape *)

Lemma map_snd_combine (ks : list string) (vs : list node) :
  length vs <= length ks -> map snd (combine ks vs) = vs.
Proof.
  revert vs. induction ks as [|k ks IH]; intros [|v vs] H; simpl in *;
    try reflexivity; try lia.
  f_equal. apply IH. lia.
Qed.

Lemma re_dict_children (d : list (string * node)) (cs : list node) :
  map snd (fst (re_dict d cs)) ++ snd (re_dict d cs) = cs
  /\ length (snd (re_dict d cs)) = length cs - length d.
Proof.
  unfold re_dict. simpl. split.
  - rewrite map_snd_combine; [apply firstn_skipn|].
    rewrite length_map, length_firstn. lia.
  - apply length_skipn.
Qed.

Lemma re_list_children (l cs : list node) :
  fst (re_list l cs) ++ snd (re_list l cs) = cs
  /\ length (snd (re_list l cs)) = length cs - length l.
Proof.
  unfold re_list. simpl. split; [apply firstn_skipn | apply length_skipn].
Qed.

Lemma re_opt_children (o : option node) (cs : list node) :
  length (opt_list o) <= length cs ->
  opt_list (fst (re_opt o cs)) ++ snd (re_opt o cs) = cs
  /\ length (snd (re_opt o cs)) = length cs - length (opt_list o).
Proof.
  destruct o as [d|]; simpl; [|intros _; split; [reflexivity | lia]].
  destruct cs as [|c r]; simpl; [lia|]. intros _. split; [reflexivity | lia].
Qed.

Lemma length_zero_nil {A : Type} (l : list A) : length l = 0 -> l = [].
Proof. now destruct l. Qed.

Ltac re_step :=
  match goal with
  | |- context [re_dict ?d ?cs] =>
      let E := fresh "E" in let L := fresh "L" in
      destruct (re_dict_children d cs) as [E L];
      destruct (re_dict d cs) as [? ?]; simpl in E, L; subst cs
  | |- context [re_opt ?o ?cs] =>
      let E := fresh "E" in let L := fresh "L" in
      destruct (re_opt_children o cs) as [E L];
      [ repeat (rewrite ?length_app in *; simpl in * ); lia
      | destruct (re_opt o cs) as [? ?]; simpl in E, L; subst cs ]
  | |- context [re_list ?l ?cs] =>
      let E := fresh "E" in let L := fresh "L" in
      destruct (re_list_children l cs) as [E L];
      destruct (re_list l cs) as [? ?]; simpl in E, L; subst cs
  end.

Lemma children_recreate (n : node) (cs : list node) :
  length cs = length (children n) -> children (recreate n cs) = cs.
Proof.
  destruct n; cbn [children recreate]; intros H;
    repeat (rewrite ?length_app, ?length_map in H; cbn [length] in H);
    try (destruct cs as [|c cs]; cbn [length] in H; [lia|];
         cbn [re_node]);
    repeat re_step;
    repeat (rewrite ?length_app, ?length_map in *; cbn [length] in * );
    cbn [children];
    repeat match goal with
           | L : length ?r = _ |- _ =>
               assert (r = []) by (apply length_zero_nil; lia);
               subst r; clear L
           end;
    rewrite ?app_nil_r; try reflexivity;
    try (destruct cs; [reflexivity | simpl in H; lia]).
Qed.

(** ** The breadth-first graph *)

Section Bfs.

Variable filt : node -> bool.

Lemma size_pos (n : node) : 1 <= size n.
Proof. rewrite size_eq. lia. Qed.

Lemma total_size_app (l1 l2 : list node) :
  total_size (l1 ++ l2) = total_size l1 + total_size l2.
Proof.
  unfold total_size. induction l1 as [|x l1 IH]; simpl; [reflexivity|].
  rewrite IH. lia.
Qed.

Lemma total_size_filter (f : node -> bool) (l : list node) :
  total_size (filter f l) <= total_size l.
Proof.
  unfold total_size. induction l as [|x l IH]; simpl; [lia|].
  destruct (f x); simpl; lia.
Qed.

Lemma total_size_children (n : node) :
  S (total_size (children n)) = size n.
Proof. unfold total_size. now rewrite (size_eq n). Qed.

Lemma nodes_app (g1 g2 : graph) : nodes (g1 ++ g2) = nodes g1 ++ nodes g2.
Proof. apply map_app. Qed.

Ltac split5 := split; [|split; [|split; [|split]]].

Lemma bfs_loop_inv (fuel : nat) :
  forall queue g,
    total_size queue <= fuel ->
    closed_upto filt g queue ->
    NoDup (nodes g) ->
    (forall q, In q queue -> filt q = true) ->
    let g' := bfs_loop filt fuel queue g in
    closed_upto filt g' []
    /\ NoDup (nodes g')
    /\ (exists rest, g' = g ++ rest)
    /\ incl queue (nodes g')
    /\ (forall k, In k (nodes g') ->
          In k (nodes g) \/ exists q, In q queue /\ reach filt [q] k).
Proof.
  induction fuel as [|fuel IH]; intros queue g Hsz Hcl Hnd Hq; simpl.
  - destruct queue as [|n queue'].
    + split5; auto.
      * exists []. now rewrite app_nil_r.
      * intros x [].
    + exfalso. unfold total_size in Hsz. simpl in Hsz.
      pose proof (size_pos n). lia.
  - destruct queue as [|n queue'].
    + split5; auto.
      * exists []. now rewrite app_nil_r.
      * intros x [].
    + assert (Hsz' : total_size queue' + size n <= S fuel).
      { unfold total_size in *. simpl in Hsz. lia. }
      pose proof (size_pos n) as Hpos.
      destruct (mem n (nodes g)) eqn:Hmem.
      * apply mem_In in Hmem.
        destruct (IH queue' g) as (C & N & (rest & E) & I & S_); auto.
        { lia. }
        { intros k cs Hk. destruct (Hcl k cs Hk) as [E1 E2]. split; auto.
          intros c Hc. destruct (E2 c Hc) as [?|[<-|?]]; auto. }
        { intros q Hq'. apply Hq. now right. }
        split5; auto.
        -- now exists rest.
        -- intros x [<-|Hx]; [|now apply I].
           rewrite E, nodes_app. apply in_or_app. now left.
        -- intros k Hk. destruct (S_ k Hk) as [?|(q & Hq1 & Hq2)]; auto.
           right. exists q. split; [now right | assumption].
      * apply mem_not_In in Hmem.
        set (cs := filter filt (children n)) in *.
        destruct (IH (queue' ++ cs) (g ++ [(n, cs)]))
          as (C & N & (rest & E) & I & S_).
        { rewrite total_size_app.
          pose proof (total_size_filter filt (children n)).
          pose proof (total_size_children n). fold cs in H. lia. }
        { intros k cs' Hk. apply in_app_or in Hk.
          destruct Hk as [Hk|[Hk|[]]].
          - destruct (Hcl k cs' Hk) as [E1 E2]. split; auto.
            intros c Hc. rewrite nodes_app.
            destruct (E2 c Hc) as [?|[<-|?]].
            + left. apply in_or_app. now left.
            + left. apply in_or_app. right. now left.
            + right. apply in_or_app. now left.
          - inversion Hk; subst k cs'. split; [reflexivity|].
            intros c Hc. right. apply in_or_app. now right. }
        { rewrite nodes_app. simpl.
          apply NoDup_app; [assumption | repeat constructor; intros [] | ].
          intros x Hx [<-|[]]. contradiction. }
        { intros q Hq'. apply in_app_or in Hq'. destruct Hq' as [?|Hc].
          - apply Hq. now right.
          - unfold cs in Hc. apply filter_In in Hc. tauto. }
        split5; auto.
        -- exists ([(n, cs)] ++ rest). now rewrite app_assoc.
        -- intros x [<-|Hx].
           ++ rewrite E, !nodes_app. apply in_or_app. left.
              apply in_or_app. right. now left.
           ++ apply I. apply in_or_app. now left.
        -- intros k Hk. destruct (S_ k Hk) as [Hk'|(q & Hq1 & Hq2)].
           ++ rewrite nodes_app in Hk'. apply in_app_or in Hk'.
              destruct Hk' as [?|[<-|[]]]; auto.
              right. exists n. split; [now left|].
              apply reach_root; [now left | apply Hq; now left].
           ++ right. apply in_app_or in Hq1. destruct Hq1 as [Hq1|Hq1].
              ** exists q. split; [now right | assumption].
              ** exists n. split; [now left|].
                 unfold cs in Hq1. apply filter_In in Hq1.
                 destruct Hq1 as [Hc Hf].
                 assert (Hn : reach filt [n] n).
                 { apply reach_root; [now left | apply Hq; now left]. }
                 clear - Hq2 Hn Hc Hf.
                 induction Hq2 as [r [<-|[]] Hr | m c Hm IHm Hin Hfc].
                 --- now apply reach_step with (m := n).
                 --- now apply reach_step with (m := m).
Qed.

Lemma from_bfs_inv (roots : list node) :
  let g := from_bfs roots filt in
  closed_upto filt g []
  /\ NoDup (nodes g)
  /\ incl (filter filt roots) (nodes g)
  /\ (forall k, In k (nodes g) -> reach filt roots k).
Proof.
  unfold from_bfs.
  destruct (bfs_loop_inv (total_size (filter filt roots))
              (filter filt roots) [])
    as (C & N & _ & I & S_).
  - lia.
  - intros k cs [].
  - constructor.
  - intros q Hq. apply filter_In in Hq. tauto.
  - split; [|split; [|split]]; auto.
    intros k Hk. destruct (S_ k Hk) as [[]|(q & Hq1 & Hq2)].
    apply filter_In in Hq1. destruct Hq1 as [Hq1 Hf].
    clear - Hq1 Hq2.
    induction Hq2 as [r [<-|[]] Hr | m c Hm IHm Hin Hfc].
    + now apply reach_root.
    + now apply reach_step with (m := m).
Qed.

(** The graph holds exactly the reachable nodes. *)
Lemma from_bfs_nodes (roots : list node) (n : node) :
  In n (nodes (from_bfs roots filt)) <-> reach filt roots n.
Proof.
  destruct (from_bfs_inv roots) as (C & N & I & S_).
  split; [apply S_|].
  induction 1 as [r Hr Hf | m c Hm IHm Hin Hfc].
  - apply I. apply filter_In. now split.
  - unfold nodes in IHm. apply in_map_iff in IHm.
    destruct IHm as ([k cs] & Ek & Hk). simpl in Ek. subst k.
    destruct (C m cs Hk) as [E1 E2].
    destruct (E2 c) as [?|[]]; auto.
    rewrite E1. apply filter_In. now split.
Qed.

Lemma from_bfs_NoDup (roots : list node) :
  NoDup (nodes (from_bfs roots filt)).
Proof. now destruct (from_bfs_inv roots) as (_ & N & _). Qed.

Lemma from_bfs_entry (roots : list node) (k : node) (cs : list node) :
  In (k, cs) (from_bfs roots filt) -> cs = filter filt (children k).
Proof.
  destruct (from_bfs_inv roots) as (C & _). intros H.
  now destruct (C k cs H).
Qed.

End Bfs.


(** ** First/last in a window *)

(** C7: lowering a [WindowFunction] over [First] or [Last] raises
    [UnsupportedOperationError] when the function's [where] filter is not
    null, and otherwise replaces the function by [FirstValue(arg)],
    respectively [LastValue(arg)]. *)
Theorem first_to_firstvalue_spec :
  forall (arg w : node) (how : string) (start end_ : option node)
         (group_by order_by : list node),
    first_to_firstvalue
      (WindowFunction (First arg (Some w)) how start end_ group_by order_by)
    = Some (Raise (UnsupportedOperationError
         "`first` with `where` is unsupported in a window function"))
    /\ first_to_firstvalue
         (WindowFunction (Last arg (Some w)) how start end_ group_by order_by)
       = Some (Raise (UnsupportedOperationError
            "`last` with `where` is unsupported in a window function"))
    /\ first_to_firstvalue
         (WindowFunction (First arg None) how start end_ group_by order_by)
       = Some (Ok (WindowFunction (FirstValue arg)
                     how start end_ group_by order_by))
    /\ first_to_firstvalue
         (WindowFunction (Last arg None) how start end_ group_by order_by)
       = Some (Ok (WindowFunction (LastValue arg)
                     how start end_ group_by order_by)).
Proof. intros. repeat split. Qed.

(** C10: when the first/last rule succeeds, the matched node is a window
    function whose [where] filter is null, and the result differs from it
    in the [func] field only: [how], the frame bounds [start] and [end],
    the grouping keys and the ordering keys are those of the input. *)
Theorem first_to_firstvalue_frame (n n' : node) :
  first_to_firstvalue n = Some (Ok n') ->
  exists func func' how start end_ group_by order_by,
    n = WindowFunction func how start end_ group_by order_by
    /\ n' = WindowFunction func' how start end_ group_by order_by
    /\ exists arg, (func = First arg None /\ func' = FirstValue arg)
                   \/ (func = Last arg None /\ func' = LastValue arg).
Proof.
  destruct n; try discriminate. simpl.
  destruct n; try discriminate; destruct where_; try discriminate;
    intros [= <-]; do 7 eexists; (split; [reflexivity|]);
    (split; [reflexivity|]); eexists; [left | right]; split; reflexivity.
Qed.

(** The frame property on a window with a frame, a grouping key and an
    ordering key. *)
Lemma first_to_firstvalue_frame_witness :
  let t := Op KTable "t" [SStr "x"; SStr "g"] [] in
  let n := WindowFunction (Last (Field t "x") None) "rows"
             (Some (Literal (SInt 2) "int8")) (Some (Literal (SInt 0) "int8"))
             [Field t "g"] [SortKey (Field t "x") true] in
  let n' := WindowFunction (LastValue (Field t "x")) "rows"
             (Some (Literal (SInt 2) "int8")) (Some (Literal (SInt 0) "int8"))
             [Field t "g"] [SortKey (Field t "x") true] in
  first_to_firstvalue n = Some (Ok n')
  /\ exists func func' how start end_ group_by order_by,
       n = WindowFunction func how start end_ group_by order_by
       /\ n' = WindowFunction func' how start end_ group_by order_by
       /\ exists arg, (func = First arg None /\ func' = FirstValue arg)
                      \/ (func = Last arg None /\ func' = LastValue arg).
Proof.
  intros t n n'. split; [reflexivity|].
  apply (first_to_firstvalue_frame n n'). reflexivity.
Defined.

(** ** Sample as filter *)

(** C8: the sample-as-filter rule raises [UnsupportedOperationError] when
    the seed is not null, and with a null seed rewrites
    [Sample(parent, fraction, seed)] into
    [Filter(parent, RandomScalar() <= fraction)]. *)
Theorem rewrite_sample_as_filter_spec :
  forall (parent : node) (fraction : Q) (method : string) (s : Z),
    rewrite_sample_as_filter (Sample parent fraction method (Some s))
    = Some (Raise (UnsupportedOperationError
         "`Table.sample` with a random seed is unsupported"))
    /\ rewrite_sample_as_filter (Sample parent fraction method None)
       = Some (Ok (Filter parent
                     [LessEqual RandomScalar
                        (Literal (SFloat fraction) "float64")])).
Proof. intros. split; reflexivity. Qed.

(** ** Blocking check *)

Lemma truthy_filter_In {A : Type} (f : A -> bool) (l : list A) (x : A) :
  In x l -> f x = true -> truthy (filter f l) = true.
Proof.
  intros Hin Hf.
  assert (H : In x (filter f l)) by (apply filter_In; now split).
  destruct (filter f l); [destruct H | reflexivity].
Qed.

Lemma truthy_filter_false {A : Type} (f : A -> bool) (l : list A) :
  truthy (filter f l) = false <-> forall x, In x l -> f x = false.
Proof.
  split.
  - intros H x Hin. destruct (f x) eqn:E; [|reflexivity].
    rewrite (truthy_filter_In f l x Hin E) in H. discriminate.
  - intros H. destruct (filter f l) as [|y r] eqn:E; [reflexivity|].
    assert (Hy : In y (filter f l)) by (rewrite E; now left).
    apply filter_In in Hy. destruct Hy as [Hy1 Hy2].
    rewrite (H y Hy1) in Hy2. discriminate.
Qed.

(** [find_below] is non-empty exactly when a matching node lies in the
    admitted subtrees below the node. *)
Lemma find_below_truthy (finder filt : node -> bool) (n m : node) :
  reach filt (children n) m -> finder m = true ->
  truthy (find_below finder filt n) = true.
Proof.
  intros Hr Hf. unfold find_below.
  apply truthy_filter_In with (x := m); [|assumption].
  now apply from_bfs_nodes.
Qed.

Lemma find_below_falsy (finder filt : node -> bool) (n : node) :
  truthy (find_below finder filt n) = false <->
  forall m, reach filt (children n) m -> finder m = false.
Proof.
  unfold find_below. rewrite truthy_filter_false. split.
  - intros H m Hm. apply H. now apply from_bfs_nodes.
  - intros H m Hm. apply H. now apply from_bfs_nodes.
Qed.

(** C3: for every nested Select pair, when a blocking node (window function,
    EXISTS-subquery, IN-subquery, unnest or impure value) lies in the value
    subtrees of the outer or of the inner Select, the merge returns the
    outer node unchanged; in particular a window function among the inner
    selections leaves the two nested Select nodes. *)
Theorem merge_select_select_blocked :
  forall (R : node) (sel1 sel2 : list (string * node))
         (pred1 sort1 pred2 sort2 : list node),
    let inner := Select R sel1 pred1 sort1 in
    let outer := Select inner sel2 pred2 sort2 in
    (forall m, blocking m = true ->
               value_below outer m \/ value_below inner m ->
               merge_select_select outer = Some (Ok outer))
    /\ (forall a func how start end_ group_by order_by,
          In (a, WindowFunction func how start end_ group_by order_by) sel1 ->
          merge_select_select outer
          = Some (Ok (Select (Select R sel1 pred1 sort1) sel2 pred2 sort2))).
Proof.
  intros R sel1 sel2 pred1 sort1 pred2 sort2 inner outer.
  assert (H : forall m, blocking m = true ->
               value_below outer m \/ value_below inner m ->
               merge_select_select outer = Some (Ok outer)).
  { intros m Hb [Hm|Hm]; unfold merge_select_select, outer; fold inner.
    - fold outer. now rewrite (find_below_truthy blocking is_Value outer m).
    - fold outer. rewrite (find_below_truthy blocking is_Value inner m Hm Hb).
      now destruct (truthy (find_below blocking is_Value outer)). }
  split; [exact H|].
  intros a func how start end_ group_by order_by Hin.
  apply (H (WindowFunction func how start end_ group_by order_by));
    [reflexivity|].
  right. apply reach_root; [|reflexivity].
  unfold inner. simpl. right. apply in_or_app. left.
  apply in_map_iff. now exists (a, WindowFunction func how start end_ group_by order_by).
Qed.

(** The blocked-merge scenario:
    [Select(Select(R, {a: WindowFunction(...)}), {b: a})]. *)
Lemma merge_select_select_blocked_witness :
  let R := Op KTable "r" [SStr "x"] [] in
  let w := WindowFunction (FirstValue (Field R "x")) "rows" None None [] [] in
  let inner := Select R [("a", w)] [] [] in
  let outer := Select inner [("b", Field inner "a")] [] [] in
  In ("a", w) [("a", w)]
  /\ merge_select_select outer = Some (Ok (Select (Select R [("a", w)] [] [])
                                           [("b", Field inner "a")] [] [])).
Proof.
  intros R w inner outer. split; [now left|].
  apply (proj2 (merge_select_select_blocked R [("a", w)]
                  [("b", Field inner "a")] [] [] [] [])
           "a" (FirstValue (Field R "x")) "rows" None None [] []).
  now left.
Defined.

(** ** Descendants *)

Lemma descends_refl (n : node) : descends n n.
Proof. apply reach_root; [now left | reflexivity]. Qed.

Lemma descends_child (n c m : node) :
  In c (children n) -> descends c m -> descends n m.
Proof.
  intros Hc Hm. induction Hm as [r [<-|[]] _ | m' c' Hm' IH Hin _].
  - apply reach_step with (m := n); [apply descends_refl | assumption
                                    | reflexivity].
  - apply reach_step with (m := m'); [assumption | assumption | reflexivity].
Qed.

Lemma descends_size (n m : node) : descends n m -> size m <= size n.
Proof.
  induction 1 as [r [<-|[]] _ | m' c' Hm' IH Hin _]; [lia|].
  apply children_size in Hin. lia.
Qed.

Lemma descends_inv (n m : node) :
  descends n m -> m = n \/ exists c, In c (children n) /\ descends c m.
Proof.
  induction 1 as [r [<-|[]] _ | m' c' Hm' IH Hin _]; [now left|].
  right. destruct IH as [->|(c & Hc & Hd)].
  - exists c'. split; [assumption | apply descends_refl].
  - exists c. split; [assumption|].
    apply reach_step with (m := m'); [assumption | assumption | reflexivity].
Qed.

(** ** The memoised traversal computes the recursive score *)

Section Memo.

Context {A : Type}.
Variable fn : node -> list A -> A.

Let F : node -> A := fold_node fn.

Lemma table_get_Some (n : node) (t : table A) (r : A) :
  table_get n t = Some r -> In (n, r) t.
Proof.
  unfold table_get.
  destruct (find _ t) as [[k v]|] eqn:E; [|discriminate].
  intros [= <-]. apply find_some in E. destruct E as [Hin Heq].
  simpl in Heq. apply node_eqb_eq in Heq. now subst.
Qed.

Lemma table_get_None (n : node) (t : table A) :
  table_get n t = None -> ~ In n (map fst t).
Proof.
  unfold table_get.
  destruct (find _ t) as [[k v]|] eqn:E; [discriminate|].
  intros _ Hin. apply in_map_iff in Hin. destruct Hin as ([k v] & <- & Hin).
  pose proof (find_none _ _ E _ Hin) as Hf. simpl in Hf.
  rewrite node_eqb_refl in Hf. discriminate.
Qed.

Lemma table_get_In (n : node) (t : table A) :
  In n (map fst t) -> exists r, table_get n t = Some r.
Proof.
  intros Hin. destruct (table_get n t) as [r|] eqn:E; [now exists r|].
  now apply table_get_None in E.
Qed.

Lemma run_all_ok (cs : list node) :
  (forall c, In c cs ->
     forall t, table_ok fn t -> step_ok fn c t (map_nodes_from fn c t)) ->
  forall t, table_ok fn t ->
    let out := run_all (map (map_nodes_from fn) cs) t in
    fst out = map F cs
    /\ table_ok fn (snd out)
    /\ incl cs (map fst (snd out))
    /\ incl (map fst t) (map fst (snd out))
    /\ (forall m, In m (map fst (snd out)) ->
          In m (map fst t) \/ exists c, In c cs /\ descends c m).
Proof.
  induction cs as [|c cs IH]; intros Hcs t Ht; simpl.
  - split; [reflexivity|]. split; [assumption|].
    split; [intros x []|]. split; [apply incl_refl|]. now left.
  - destruct (Hcs c (or_introl eq_refl) t Ht) as (E1 & T1 & I1 & S1 & D1).
    destruct (map_nodes_from fn c t) as [r t1]. simpl in *.
    destruct (IH (fun c' Hc' => Hcs c' (or_intror Hc')) t1 T1)
      as (E2 & T2 & I2 & S2 & D2).
    destruct (run_all (map (map_nodes_from fn) cs) t1) as [rs t2].
    simpl in *. split; [now rewrite E1, E2|]. split; [assumption|].
    split.
    { intros x [<-|Hx]; [now apply S2 | now apply I2]. }
    split.
    { intros x Hx. now apply S2, S1. }
    intros m Hm. destruct (D2 m Hm) as [Hm1|(c' & Hc' & Hd)].
    + destruct (D1 m Hm1) as [?|Hd]; [now left|].
      right. exists c. split; [now left | assumption].
    + right. exists c'. split; [now right | assumption].
Qed.

Lemma map_nodes_from_eq (n : node) (t : table A) :
  map_nodes_from fn n t =
  match table_get n t with
  | Some r => (r, t)
  | None =>
      let (rs, t') := run_all (map (map_nodes_from fn) (children n)) t in
      let r := fn n rs in
      (r, (n, r) :: t')
  end.
Proof. unfold map_nodes_from at 1. now rewrite fold_node_eq. Qed.

Lemma map_nodes_from_ok (n : node) :
  forall t, table_ok fn t -> step_ok fn n t (map_nodes_from fn n t).
Proof.
  induction n as [n IH] using node_children_ind. intros t Ht.
  rewrite map_nodes_from_eq.
  destruct (table_get n t) as [r|] eqn:G.
  - apply table_get_Some in G. destruct Ht as (N & V & C).
    split; [simpl; now apply V|]. split; [now split|].
    split; [simpl; apply in_map_iff; now exists (n, r)|].
    split; [apply incl_refl | now left].
  - apply table_get_None in G.
    destruct (run_all_ok (children n) IH t Ht) as (E & T & I & S_ & D).
    destruct (run_all (map (map_nodes_from fn) (children n)) t)
      as [rs t'].
    simpl in *. subst rs. destruct T as (N & V & C).
    assert (Hfresh : ~ In n (map fst t')).
    { intros Hin. destruct (D n Hin) as [?|(c & Hc & Hd)]; [contradiction|].
      apply descends_size in Hd. apply children_size in Hc. lia. }
    split; [unfold F; now rewrite fold_node_eq|].
    split.
    { split; [simpl; now constructor|]. split.
      - intros m r [[= <- <-]|Hin]; [|now apply V].
        unfold F. now rewrite fold_node_eq.
      - simpl. intros m [<-|Hm] c Hc; right; [now apply I|].
        now apply (C m). }
    split; [now left|].
    split; [intros x Hx; right; now apply S_|].
    intros m [<-|Hm]; [right; apply descends_refl|].
    destruct (D m Hm) as [?|(c & Hc & Hd)]; [now left|].
    right. now apply descends_child with (c := c).
Qed.

Lemma table_ok_nil : table_ok fn [].
Proof.
  split; [constructor|]. split; [intros m r []|intros m []].
Qed.

Lemma table_ok_closed (t : table A) (n m : node) :
  table_ok fn t -> In n (map fst t) -> descends n m -> In m (map fst t).
Proof.
  intros (_ & _ & C) Hn Hd.
  induction Hd as [r [<-|[]] _ | m' c' Hm' IH Hin _]; [assumption|].
  now apply (C m').
Qed.

(** The table of [map_nodes] has one entry per distinct node reachable
    from the root, holding the node's recursive result. *)
Lemma map_nodes_spec (n : node) :
  NoDup (map fst (map_nodes fn n))
  /\ (forall m, In m (map fst (map_nodes fn n)) <-> descends n m)
  /\ (forall m r, In (m, r) (map_nodes fn n) -> r = F m)
  /\ table_get n (map_nodes fn n) = Some (F n).
Proof.
  unfold map_nodes.
  destruct (map_nodes_from_ok n [] table_ok_nil) as (E & T & I & _ & D).
  destruct (map_nodes_from fn n []) as [r t]. simpl in *.
  split; [apply T|]. split.
  { intros m. split.
    - intros Hm. destruct (D m Hm) as [[]|?]. assumption.
    - intros Hd. now apply (table_ok_closed t n m). }
  split; [apply T|].
  destruct (table_get_In n t I) as (r' & G). rewrite G.
  apply table_get_Some in G. destruct T as (_ & V & _).
  now rewrite (V n r' G).
Qed.

End Memo.

(** ** Complexity score *)

Lemma complexity_fold (n : node) : complexity n = fold_node accum n.
Proof.
  unfold complexity.
  destruct (map_nodes_spec accum n) as (_ & _ & _ & G). now rewrite G.
Qed.

Lemma complexity_eq (n : node) :
  complexity n = accum n (map complexity (children n)).
Proof.
  rewrite complexity_fold, fold_node_eq. f_equal.
  apply map_ext. intros c. now rewrite complexity_fold.
Qed.

Lemma complexity_Field (r : node) (name : string) :
  complexity (Field r name) = 1.
Proof. now rewrite complexity_eq. Qed.

Lemma complexity_other (n : node) :
  is_Field n = false ->
  complexity n = 1 + list_sum_nat (map complexity (children n)).
Proof. intros H. rewrite complexity_eq. unfold accum. now rewrite H. Qed.

(** ** Complexity guard *)

Lemma unblocked_find_below (n : node) :
  unblocked n -> truthy (find_below blocking is_Value n) = false.
Proof. intros H. now apply find_below_falsy. Qed.

Lemma find_below_unblocked (n : node) :
  truthy (find_below blocking is_Value n) = false -> unblocked n.
Proof.
  intros H. unfold unblocked, value_below.
  now apply (proj1 (find_below_falsy blocking is_Value n)).
Qed.

(** Past the blocking check the rule is the complexity guard alone. *)
Lemma merge_select_select_guard (R : node) (sel1 sel2 : list (string * node))
  (pred1 sort1 pred2 sort2 : list node) :
  let inner := Select R sel1 pred1 sort1 in
  let outer := Select inner sel2 pred2 sort2 in
  unblocked outer -> unblocked inner ->
  merge_select_select outer
  = Some (Ok (if complexity (merged_select outer) <=? complexity outer
              then merged_select outer else outer)).
Proof.
  intros inner outer Ho Hi. unfold merge_select_select, outer. fold inner.
  fold outer.
  now rewrite (unblocked_find_below outer Ho), (unblocked_find_below inner Hi).
Qed.

Lemma node_neq_size (a b : node) : size a < size b -> a <> b.
Proof. intros H ->. lia. Qed.

Lemma merged_select_neq (R : node) (sel1 sel2 : list (string * node))
  (pred1 sort1 pred2 sort2 : list node) :
  let inner := Select R sel1 pred1 sort1 in
  let outer := Select inner sel2 pred2 sort2 in
  merged_select outer <> outer.
Proof.
  intros inner outer. unfold merged_select, outer. simpl.
  intros [= E _]. revert E. apply node_neq_size.
  apply children_size. unfold inner. now left.
Qed.

(** C2: past the blocking check the Select-merge engine returns the merged
    node if and only if its complexity score is at most the score of the
    unmerged node, and otherwise returns the original node; a [Field]
    scores 1 whatever relation it references, any other node scores 1 plus
    the sum of the scores of its children; the scores are computed from a
    table with one entry per distinct node. *)
Theorem complexity_guard :
  forall (R : node) (sel1 sel2 : list (string * node))
         (pred1 sort1 pred2 sort2 : list node),
    let inner := Select R sel1 pred1 sort1 in
    let outer := Select inner sel2 pred2 sort2 in
    let merged := merged_select outer in
    unblocked outer -> unblocked inner ->
    (merge_select_select outer = Some (Ok merged)
     <-> complexity merged <= complexity outer)
    /\ (complexity outer < complexity merged ->
        merge_select_select outer = Some (Ok outer))
    /\ merged <> outer
    /\ (forall r name, complexity (Field r name) = 1)
    /\ (forall n, is_Field n = false ->
          complexity n = 1 + list_sum_nat (map complexity (children n)))
    /\ (forall n,
          let scores := map_nodes accum n in
          complexity n = match table_get n scores with
                         | Some s => s
                         | None => 0
                         end
          /\ NoDup (map fst scores)
          /\ (forall m, In m (map fst scores) <-> descends n m)
          /\ (forall m s, In (m, s) scores -> s = complexity m)).
Proof.
  intros R sel1 sel2 pred1 sort1 pred2 sort2 inner outer merged Ho Hi.
  pose proof (merge_select_select_guard R sel1 sel2 pred1 sort1 pred2 sort2
                Ho Hi) as G.
  fold inner outer merged in G.
  pose proof (merged_select_neq R sel1 sel2 pred1 sort1 pred2 sort2) as N.
  cbv zeta in N. fold inner outer merged in N.
  split.
  { rewrite G. destruct (complexity merged <=? complexity outer) eqn:E.
    - apply Nat.leb_le in E. tauto.
    - apply Nat.leb_gt in E. split; [|lia]. intros H. exfalso. apply N. congruence. }
  split.
  { intros H. rewrite G.
    destruct (complexity merged <=? complexity outer) eqn:E; [|reflexivity].
    apply Nat.leb_le in E. lia. }
  split; [exact N|].
  split; [exact complexity_Field|].
  split; [exact complexity_other|].
  intros n scores.
  destruct (map_nodes_spec accum n) as (ND & K & V & _).
  split; [reflexivity|]. split; [exact ND|]. split; [exact K|].
  intros m s Hin. rewrite complexity_fold. now apply V.
Qed.

Ltac by_find_below :=
  apply find_below_unblocked; vm_compute; reflexivity.

(** The guard on the double projection: the merged node scores 7, the
    nested pair scores 9, the merged node is returned. *)
Lemma complexity_guard_witness :
  unblocked ex_outer /\ unblocked ex_inner
  /\ complexity ex_merged = 7 /\ complexity ex_outer = 9
  /\ merge_select_select ex_outer = Some (Ok ex_merged).
Proof.
  assert (Ho : unblocked ex_outer) by by_find_below.
  assert (Hi : unblocked ex_inner) by by_find_below.
  split; [exact Ho|]. split; [exact Hi|].
  split; [reflexivity|]. split; [reflexivity|].
  apply (proj1 (complexity_guard ex_R
                  [("a", Add (Field ex_R "x") (int_lit 1))]
                  [("b", Multiply (Field ex_inner "a") (int_lit 2))]
                  [] [] [] [] Ho Hi)).
  vm_compute. lia.
Defined.

(** ** Substitution *)

Lemma keep_filtered_map (filt : node -> bool) (g : node -> node)
  (cs : list node) :
  keep_filtered filt cs (map g cs)
  = map (fun c => if filt c then g c else c) cs.
Proof. induction cs as [|c cs IH]; simpl; [reflexivity | now rewrite IH]. Qed.

Lemma replace_mapping_excluded (subs : list (node * node))
  (filt : node -> bool) (n : node) :
  filt n = false -> replace_mapping subs filt n = n.
Proof. intros H. unfold replace_mapping. now rewrite H. Qed.

Lemma replace_mapping_eq (subs : list (node * node)) (filt : node -> bool)
  (n : node) :
  filt n = true ->
  replace_mapping subs filt n
  = match dict_get n subs with
    | Some v => v
    | None => recreate n (map (replace_mapping subs filt) (children n))
    end.
Proof.
  intros H. unfold replace_mapping at 1. rewrite H, fold_node_eq.
  destruct (dict_get n subs); [reflexivity|].
  rewrite keep_filtered_map. reflexivity.
Qed.

Lemma dict_get_Some (n v : node) (d : list (node * node)) :
  dict_get n d = Some v -> In (n, v) d.
Proof.
  unfold dict_get. destruct (find _ d) as [[k w]|] eqn:E; [|discriminate].
  intros [= <-]. apply find_some in E. destruct E as [Hin Heq].
  simpl in Heq. apply node_eqb_eq in Heq. now subst.
Qed.

(** A mapping whose keys are all larger than the term leaves it as it is. *)
Lemma replace_mapping_id (subs : list (node * node)) (filt : node -> bool)
  (n : node) :
  (forall k v, In (k, v) subs -> size n < size k) ->
  replace_mapping subs filt n = n.
Proof.
  induction n as [n IH] using node_children_ind. intros Hk.
  destruct (filt n) eqn:F; [|now apply replace_mapping_excluded].
  rewrite (replace_mapping_eq subs filt n F).
  destruct (dict_get n subs) as [v|] eqn:G.
  - apply dict_get_Some in G. apply Hk in G. lia.
  - transitivity (recreate n (children n)); [|apply recreate_children].
    f_equal. rewrite <- (map_id (children n)) at 2. apply map_ext_in.
    intros c Hc. apply IH; [assumption|].
    intros k v Hin. apply Hk in Hin. apply children_size in Hc. lia.
Qed.

Lemma field_subs_key (inner k v : node) :
  In (k, v) (field_subs inner) -> exists name, k = Field inner name.
Proof.
  unfold field_subs. intros H. apply in_map_iff in H.
  destruct H as ([name e] & [= <- <-] & _). now exists name.
Qed.

Lemma size_Field (r : node) (name : string) : size (Field r name) = S (size r).
Proof. rewrite size_eq. simpl. lia. Qed.

(** The inner relation's own terms hold none of its fields. *)
Lemma field_subs_id (inner n : node) :
  size n <= size inner ->
  replace_mapping (field_subs inner) is_Value n = n.
Proof.
  intros H. apply replace_mapping_id. intros k v Hin.
  destruct (field_subs_key inner k v Hin) as (name & ->).
  rewrite size_Field. lia.
Qed.

Lemma dict_get_fields (inner : node) (l : list (string * node))
  (name : string) :
  dict_get (Field inner name)
    (map (fun kv : string * node => (Field inner (fst kv), snd kv)) l)
  = dict_lookup name l.
Proof.
  unfold dict_get, dict_lookup.
  induction l as [|[k e] l IH]; simpl; [reflexivity|].
  destruct (String.eqb name k) eqn:E.
  - apply String.eqb_eq in E. subst k. now rewrite node_eqb_refl.
  - assert (N : node_eqb (Field inner name) (Field inner k) = false).
    { apply node_eqb_neq. intros [= ->]. now rewrite String.eqb_refl in E. }
    rewrite N. exact IH.
Qed.

Lemma dict_get_field_subs (R : node) (sel1 : list (string * node))
  (pred1 sort1 : list node) (name : string) :
  let inner := Select R sel1 pred1 sort1 in
  dict_get (Field inner name) (field_subs inner) = dict_lookup name sel1.
Proof. intros inner. apply dict_get_fields. Qed.

Lemma dict_get_field_subs_other (inner v : node) :
  (forall name, v <> Field inner name) ->
  dict_get v (field_subs inner) = None.
Proof.
  intros H. destruct (dict_get v (field_subs inner)) as [e|] eqn:G;
    [|reflexivity].
  apply dict_get_Some, field_subs_key in G. destruct G as (name & ->).
  now destruct (H name).
Qed.

(** *** Every field of the inner relation in value position is replaced *)

Lemma reach_root_admitted (filt : node -> bool) (v m : node) :
  reach filt [v] m -> filt v = true.
Proof. induction 1 as [r [<-|[]] Hr | ]; assumption. Qed.

Lemma reach_descends (filt : node -> bool) (v m : node) :
  reach filt [v] m -> descends v m.
Proof.
  induction 1 as [r [<-|[]] _ | m' c' Hm' IH Hin _].
  - apply descends_refl.
  - apply reach_step with (m := m'); [assumption | assumption | reflexivity].
Qed.

Lemma reach_inv (filt : node -> bool) (v m : node) :
  reach filt [v] m ->
  m = v \/ exists c, In c (children v) /\ reach filt [c] m.
Proof.
  induction 1 as [r [<-|[]] _ | m' c' Hm' IH Hin Hf]; [now left|].
  right. destruct IH as [->|(c & Hc & Hd)].
  - exists c'. split; [assumption|]. apply reach_root; [now left | assumption].
  - exists c. split; [assumption|].
    now apply reach_step with (m := m').
Qed.

Lemma recreate_is_Value (n : node) (cs : list node) :
  is_Value (recreate n cs) = is_Value n.
Proof.
  destruct n; cbn [recreate];
    repeat match goal with
           | |- context [let (_, _) := ?e in _] => destruct e
           end; reflexivity.
Qed.

Lemma recreate_Field_inv (n : node) (cs : list node) (a : node)
  (b : string) :
  recreate n cs = Field a b ->
  exists r, n = Field r b /\ a = fst (re_node r cs).
Proof.
  destruct n; cbn [recreate];
    repeat match goal with
           | |- context [let (_, _) := ?e in _] => destruct e eqn:?
           end; try discriminate.
  intros [= <- <-]. exists n. split; [reflexivity|].
  match goal with E : re_node _ _ = _ |- _ => now rewrite E end.
Qed.

Lemma field_subs_value (inner k e : node) :
  In (k, e) (field_subs inner) -> In e (map snd (values_of inner)).
Proof.
  unfold field_subs. intros H. apply in_map_iff in H.
  destruct H as ([nm e'] & [= <- <-] & Hin). apply in_map_iff.
  now exists (nm, e').
Qed.

Section Inlined.

Variables (R : node) (sel1 : list (string * node)) (pred1 sort1 : list node).

Let inner : node := Select R sel1 pred1 sort1.
Let sub : node -> node := replace_mapping (field_subs inner) is_Value.

Lemma inner_expr_size (k e : node) :
  In (k, e) (field_subs inner) -> size e < size inner.
Proof.
  intros H. apply field_subs_value in H. apply children_size.
  unfold inner. simpl. right. apply in_or_app. now left.
Qed.

Lemma sub_value_neq_inner (r : node) :
  is_Value r = true -> sub r <> inner.
Proof.
  intros Hr. unfold sub. rewrite replace_mapping_eq by assumption.
  destruct (dict_get r (field_subs inner)) as [e|] eqn:G.
  - apply dict_get_Some in G. apply inner_expr_size in G.
    now apply node_neq_size.
  - intros E. pose proof (recreate_is_Value r
                            (map (replace_mapping (field_subs inner) is_Value)
                                 (children r))) as V.
    rewrite E, Hr in V. discriminate.
Qed.

(** After the substitution no bound field of the inner relation is left in
    value position. *)
Lemma sub_no_inner_field (name : string) :
  dict_lookup name sel1 <> None ->
  forall v, ~ value_within (sub v) (Field inner name).
Proof.
  intros Hb v. induction v as [v IH] using node_children_ind.
  unfold value_within. intros H.
  destruct (is_Value v) eqn:Hv.
  - unfold sub in H. rewrite replace_mapping_eq in H by assumption.
    destruct (dict_get v (field_subs inner)) as [e|] eqn:G.
    + apply dict_get_Some in G. apply inner_expr_size in G.
      apply reach_descends, descends_size in H.
      rewrite size_Field in H. lia.
    + fold sub in H.
      set (cs := map sub (children v)) in *.
      destruct (reach_inv _ _ _ H) as [E|(c & Hc & Hr)].
      * symmetry in E. apply recreate_Field_inv in E.
        destruct E as (r & -> & E). simpl in cs. subst cs. simpl in E.
        destruct (is_Value r) eqn:Vr.
        -- symmetry in E. now apply sub_value_neq_inner in E.
        -- unfold sub in E. rewrite replace_mapping_excluded in E
             by assumption.
           subst r. pose proof (dict_get_field_subs R sel1 pred1 sort1 name)
             as D. cbv zeta in D. fold inner in D. congruence.
      * rewrite children_recreate in Hc
          by (unfold cs; now rewrite length_map).
        unfold cs in Hc. apply in_map_iff in Hc.
        destruct Hc as (c0 & <- & Hc0). now apply (IH c0 Hc0).
  - unfold sub in H. rewrite replace_mapping_excluded in H by assumption.
    apply reach_root_admitted in H. congruence.
Qed.

End Inlined.

(** ** [toolz.unique] keeps first occurrences *)

Lemma filter_filter {A : Type} (f g : A -> bool) (l : list A) :
  filter f (filter g l) = filter (fun x => g x && f x) l.
Proof.
  induction l as [|x l IH]; simpl; [reflexivity|].
  destruct (g x); simpl; [destruct (f x)|]; now rewrite IH.
Qed.

Lemma mem_cons (y x : node) (seen : list node) :
  mem y (x :: seen) = node_eqb y x || mem y seen.
Proof. reflexivity. Qed.

Lemma unique_from_dedup (l : list node) :
  forall seen,
    unique_from seen l = filter (fun y => negb (mem y seen)) (dedup_first l).
Proof.
  induction l as [|x l IH]; intros seen; [reflexivity|].
  cbn [unique_from dedup_first filter].
  destruct (mem x seen) eqn:M; cbn [negb].
  - rewrite IH, filter_filter. apply filter_ext_in. intros y _.
    destruct (node_eqb y x) eqn:E; simpl; [|reflexivity].
    apply node_eqb_eq in E. subst y. now rewrite M.
  - f_equal. rewrite IH, filter_filter. apply filter_ext. intros y.
    rewrite mem_cons, negb_orb. reflexivity.
Qed.

Lemma unique_dedup (l : list node) : unique l = dedup_first l.
Proof.
  unfold unique. rewrite unique_from_dedup. apply forallb_filter_id.
  apply forallb_forall. reflexivity.
Qed.

Lemma dedup_first_In (l : list node) (x : node) :
  In x (dedup_first l) <-> In x l.
Proof.
  induction l as [|y l IH]; simpl; [tauto|].
  rewrite filter_In, IH. split.
  - tauto.
  - intros [->|H]; [now left|].
    destruct (node_eq_dec x y) as [->|N]; [now left|].
    right. split; [assumption|]. apply negb_true_iff. now apply node_eqb_neq.
Qed.

Lemma dedup_first_NoDup (l : list node) : NoDup (dedup_first l).
Proof.
  induction l as [|y l IH]; simpl; constructor.
  - rewrite filter_In. intros [_ H]. now rewrite node_eqb_refl in H.
  - now apply NoDup_filter.
Qed.

(** ** The merged Select *)

Lemma merged_select_eq (R : node) (sel1 sel2 : list (string * node))
  (pred1 sort1 pred2 sort2 : list node) :
  let inner := Select R sel1 pred1 sort1 in
  let outer := Select inner sel2 pred2 sort2 in
  let subst := replace_mapping (field_subs inner) is_Value in
  merged_select outer
  = Select R
      (map (fun kv : string * node => (fst kv, subst (snd kv))) sel2)
      (unique (pred1 ++ map subst pred2))
      (map subst sort2
       ++ filter (fun k => negb (mem (expr_of k)
                                     (map expr_of (map subst sort2))))
                 sort1).
Proof. reflexivity. Qed.

Lemma merge_select_select_ok (R : node) (sel1 sel2 : list (string * node))
  (pred1 sort1 pred2 sort2 : list node) :
  let inner := Select R sel1 pred1 sort1 in
  let outer := Select inner sel2 pred2 sort2 in
  unblocked outer -> unblocked inner ->
  complexity (merged_select outer) <= complexity outer ->
  merge_select_select outer = Some (Ok (merged_select outer)).
Proof.
  intros inner outer Ho Hi Hc.
  pose proof (merge_select_select_guard R sel1 sel2 pred1 sort1 pred2 sort2
                Ho Hi) as G.
  cbv zeta in G. fold inner outer in G. rewrite G.
  apply Nat.leb_le in Hc. now rewrite Hc.
Qed.

(** C1: a nested pair
    [Select(Select(R, sel1, pred1, sort1), sel2, pred2, sort2)] that passes
    the blocking check and the complexity guard merges into one Select over
    [R]; its selections are the outer selections under the substitution,
    its predicates are the inner predicates followed by the substituted
    outer predicates, de-duplicated keeping first occurrences.  The
    substitution leaves no field of the inner relation in value position:
    it replaces [Field(inner, name)] by the inner selection bound to
    [name], rebuilds any other value from its substituted children, and
    leaves relations, hence whatever is nested inside them, as they are. *)
Theorem merge_select_select_merged :
  forall (R : node) (sel1 sel2 : list (string * node))
         (pred1 sort1 pred2 sort2 : list node),
    let inner := Select R sel1 pred1 sort1 in
    let outer := Select inner sel2 pred2 sort2 in
    let subst := replace_mapping (field_subs inner) is_Value in
    unblocked outer -> unblocked inner ->
    complexity (merged_select outer) <= complexity outer ->
    (exists sort_keys',
       merge_select_select outer
       = Some (Ok (Select R
                     (map (fun kv : string * node =>
                             (fst kv, subst (snd kv))) sel2)
                     (dedup_first (pred1 ++ map subst pred2))
                     sort_keys')))
    /\ NoDup (dedup_first (pred1 ++ map subst pred2))
    /\ (forall v name, dict_lookup name sel1 <> None ->
          ~ value_within (subst v) (Field inner name))
    /\ (forall name,
          subst (Field inner name)
          = match dict_lookup name sel1 with
            | Some e => e
            | None => Field inner name
            end)
    /\ (forall v, is_Value v = true -> (forall name, v <> Field inner name) ->
          subst v = recreate v (map subst (children v)))
    /\ (forall r, is_Value r = false -> subst r = r).
Proof.
  intros R sel1 sel2 pred1 sort1 pred2 sort2 inner outer sub Ho Hi Hc.
  split.
  { eexists.
    pose proof (merge_select_select_ok R sel1 sel2 pred1 sort1 pred2 sort2
                  Ho Hi Hc) as M.
    pose proof (merged_select_eq R sel1 sel2 pred1 sort1 pred2 sort2) as Q.
    cbv zeta in M, Q. fold inner outer in M, Q. fold sub in Q.
    rewrite M, Q, unique_dedup. reflexivity. }
  split; [apply dedup_first_NoDup|].
  split.
  { intros v name Hb. now apply sub_no_inner_field. }
  split.
  { intros name. unfold sub.
    rewrite replace_mapping_eq by reflexivity.
    pose proof (dict_get_field_subs R sel1 pred1 sort1 name) as D.
    cbv zeta in D. fold inner in D. rewrite D.
    destruct (dict_lookup name sel1); [reflexivity|].
    simpl. now rewrite replace_mapping_excluded. }
  split.
  { intros v Hv Hn. unfold sub. rewrite replace_mapping_eq by assumption.
    now rewrite dict_get_field_subs_other. }
  intros r Hr. now apply replace_mapping_excluded.
Qed.

(** The double projection
    [Select(Select(R, {a: R.x + 1}), {b: a * 2})] merges into
    [Select(R, {b: (R.x + 1) * 2})]. *)
Lemma merge_select_select_merged_witness :
  unblocked ex_outer /\ unblocked ex_inner
  /\ complexity (merged_select ex_outer) <= complexity ex_outer
  /\ exists sort_keys',
       merge_select_select ex_outer
       = Some (Ok (Select ex_R
            (map (fun kv : string * node =>
                    (fst kv,
                     replace_mapping (field_subs ex_inner) is_Value (snd kv)))
                 [("b", Multiply (Field ex_inner "a") (int_lit 2))])
            (dedup_first
               ([] ++ map (replace_mapping (field_subs ex_inner) is_Value) []))
            sort_keys')).
Proof.
  assert (Ho : unblocked ex_outer) by by_find_below.
  assert (Hi : unblocked ex_inner) by by_find_below.
  assert (Hc : complexity (merged_select ex_outer) <= complexity ex_outer)
    by (vm_compute; lia).
  split; [exact Ho|]. split; [exact Hi|]. split; [exact Hc|].
  exact (proj1 (merge_select_select_merged ex_R
                  [("a", Add (Field ex_R "x") (int_lit 1))]
                  [("b", Multiply (Field ex_inner "a") (int_lit 2))]
                  [] [] [] [] Ho Hi Hc)).
Defined.

Lemma descends_by_bfs (n m : node) :
  mem m (nodes (from_bfs [n] no_filter)) = true -> descends n m.
Proof. intros H. apply mem_In in H. now apply from_bfs_nodes in H. Qed.

(** The substitution is scoped to value subtrees: when the outer selection
    refers to the inner relation through a scalar subquery the pair passes
    both checks and merges, the selections are the outer selections under
    the substitution, and the relation of the subquery, with the
    [Field(inner, a)] inside it, is kept as it is. *)
Example merge_select_select_nested_relation :
  unblocked ex_sub_outer /\ unblocked ex_inner
  /\ complexity (merged_select ex_sub_outer) <= complexity ex_sub_outer
  /\ merge_select_select ex_sub_outer
     = Some (Ok (Select ex_R [("b", ScalarSubquery ex_agg)] [] []))
  /\ map (fun kv : string * node =>
            (fst kv,
             replace_mapping (field_subs ex_inner) is_Value (snd kv)))
         (selections_of ex_sub_outer)
     = [("b", ScalarSubquery ex_agg)]
  /\ descends (ScalarSubquery ex_agg) (Field ex_inner "a").
Proof.
  split; [by_find_below|]. split; [by_find_below|].
  split; [vm_compute; lia|]. split; [vm_compute; reflexivity|].
  split; [vm_compute; reflexivity|].
  apply descends_by_bfs; vm_compute; reflexivity.
Qed.

(** C4: in a successful merge the sort keys are the outer keys after
    substitution followed by the inner keys after substitution (which
    leaves them as they are), without the inner keys whose expression is
    the expression of a substituted outer key. *)
Theorem merge_select_select_sort_keys :
  forall (R : node) (sel1 sel2 : list (string * node))
         (pred1 sort1 pred2 sort2 : list node),
    let inner := Select R sel1 pred1 sort1 in
    let outer := Select inner sel2 pred2 sort2 in
    let subst := replace_mapping (field_subs inner) is_Value in
    let outer_keys := map subst sort2 in
    let inner_keys := map subst sort1 in
    unblocked outer -> unblocked inner ->
    complexity (merged_select outer) <= complexity outer ->
    (exists selections' predicates',
       merge_select_select outer
       = Some (Ok (Select R selections' predicates'
                     (outer_keys
                      ++ filter (fun k => negb (mem (expr_of k)
                                                    (map expr_of outer_keys)))
                                inner_keys))))
    /\ inner_keys = sort1
    /\ (forall k, In k (filter (fun k => negb (mem (expr_of k)
                                                 (map expr_of outer_keys)))
                               inner_keys)
                  <-> In k inner_keys
                      /\ ~ In (expr_of k) (map expr_of outer_keys)).
Proof.
  intros R sel1 sel2 pred1 sort1 pred2 sort2 inner outer sub outer_keys
         inner_keys Ho Hi Hc.
  assert (E : inner_keys = sort1).
  { unfold inner_keys. rewrite <- (map_id sort1) at 2. apply map_ext_in.
    intros k Hk. apply field_subs_id. apply Nat.lt_le_incl, children_size.
    unfold inner. simpl. right. apply in_or_app. right.
    apply in_or_app. now right. }
  split.
  { do 2 eexists.
    pose proof (merge_select_select_ok R sel1 sel2 pred1 sort1 pred2 sort2
                  Ho Hi Hc) as M.
    pose proof (merged_select_eq R sel1 sel2 pred1 sort1 pred2 sort2) as Q.
    cbv zeta in M, Q. fold inner outer in M, Q. fold sub in Q.
    fold outer_keys in Q. rewrite M, Q, E. reflexivity. }
  split; [exact E|].
  intros k. rewrite filter_In, negb_true_iff, mem_not_In. reflexivity.
Qed.

(** The outer ascending key on [x] supersedes the inner descending key on
    [x]; the inner key on [y] follows it. *)
Lemma merge_select_select_sort_keys_witness :
  unblocked ex_sort_outer /\ unblocked ex_sort_inner
  /\ complexity (merged_select ex_sort_outer) <= complexity ex_sort_outer
  /\ exists selections' predicates',
       merge_select_select ex_sort_outer
       = Some (Ok (Select ex_R selections' predicates'
                     [SortKey (Field ex_R "x") true;
                      SortKey (Field ex_R "y") true])).
Proof.
  assert (Ho : unblocked ex_sort_outer) by by_find_below.
  assert (Hi : unblocked ex_sort_inner) by by_find_below.
  assert (Hc : complexity (merged_select ex_sort_outer)
               <= complexity ex_sort_outer) by (vm_compute; lia).
  split; [exact Ho|]. split; [exact Hi|]. split; [exact Hc|].
  destruct (proj1 (merge_select_select_sort_keys ex_R
                     [("x", Field ex_R "x")]
                     [("x", Field ex_sort_inner "x")] []
                     [SortKey (Field ex_R "x") false;
                      SortKey (Field ex_R "y") true] []
                     [SortKey (Field ex_sort_inner "x") true] Ho Hi Hc))
    as (s & p & E).
  exists s, p. exact E.
Defined.

(** ** CTE extraction *)

Lemma NoDup_map_fst_filter {A B : Type} (f : A * B -> bool)
  (l : list (A * B)) :
  NoDup (map fst l) -> NoDup (map fst (filter f l)).
Proof.
  induction l as [|e l IH]; simpl; [trivial|].
  intros H. inversion H as [|x xs Hx Hn]; subst.
  destruct (f e); simpl; [|now apply IH].
  constructor; [|now apply IH].
  intros Hin. apply Hx. apply in_map_iff in Hin.
  destruct Hin as (e' & E & Hin). apply filter_In in Hin.
  apply in_map_iff. exists e'. tauto.
Qed.

Lemma length_filter_eqb (n : node) (l : list node) :
  length (filter (node_eqb n) l) = count_occ node_eq_dec l n.
Proof.
  induction l as [|x l IH]; simpl; [reflexivity|].
  destruct (node_eq_dec x n) as [->|N].
  - rewrite node_eqb_refl. simpl. now rewrite IH.
  - destruct (node_eqb n x) eqn:E; [|exact IH].
    apply node_eqb_eq in E. congruence.
Qed.

Lemma count_occ_filter (f : node -> bool) (n : node) (l : list node) :
  f n = true ->
  count_occ node_eq_dec (filter f l) n = count_occ node_eq_dec l n.
Proof.
  intros Hn. induction l as [|x l IH]; simpl; [reflexivity|].
  destruct (node_eq_dec x n) as [->|N].
  - rewrite Hn. simpl. destruct (node_eq_dec n n); [now rewrite IH|easy].
  - destruct (f x); simpl; [|exact IH].
    destruct (node_eq_dec x n); [easy | exact IH].
Qed.

(** The dependents of a node: one entry for each reference to it from a
    node of the graph. *)
Lemma dependents_length (g : graph) (n : node) :
  length (dependents g n)
  = list_sum_nat (map (fun e : node * list node =>
                         count_occ node_eq_dec (snd e) n) g).
Proof.
  unfold dependents. induction g as [|e g IH]; simpl; [reflexivity|].
  now rewrite length_app, length_map, length_filter_eqb, IH.
Qed.

Lemma dependents_In (g : graph) (n m : node) :
  In m (dependents g n) <-> exists cs, In (m, cs) g /\ In n cs.
Proof.
  unfold dependents. rewrite in_flat_map. split.
  - intros ([k cs] & Hin & Hm). simpl in Hm. apply in_map_iff in Hm.
    destruct Hm as (x & <- & Hx). apply filter_In in Hx.
    destruct Hx as [Hx E]. apply node_eqb_eq in E. subst x.
    now exists cs.
  - intros (cs & Hin & Hn). exists (m, cs). split; [assumption|].
    simpl. apply in_map_iff. exists n. split; [reflexivity|].
    apply filter_In. split; [assumption | apply node_eqb_refl].
Qed.


Lemma dependents_spec (root n : node) :
  let g := dependency_graph root in
  (counted n = true -> length (dependents g n) = references g n)
  /\ (forall m, In m (dependents g n)
                <-> reach counted [root] m /\ In n (children m)
                    /\ counted n = true).
Proof.
  intros g. split.
  - intros Hn. rewrite dependents_length. unfold references, nodes.
    rewrite map_map.
    assert (E : forall e, In e g ->
                  snd e = filter counted (children (fst e))).
    { intros [k cs] Hin. simpl.
      exact (from_bfs_entry counted [root] k cs Hin). }
    induction g as [|e g' IH]; simpl; [reflexivity|].
    rewrite IH by (intros e' He'; apply E; now right).
    rewrite (E e (or_introl eq_refl)), count_occ_filter by assumption.
    reflexivity.
  - intros m. rewrite dependents_In. split.
    + intros (cs & Hin & Hmem).
      rewrite (from_bfs_entry counted [root] m cs Hin) in Hmem.
      apply filter_In in Hmem. split; [|tauto].
      apply from_bfs_nodes. apply in_map_iff. now exists (m, cs).
    + intros (Hr & Hc & Hn). apply from_bfs_nodes in Hr.
      apply in_map_iff in Hr. destruct Hr as ([k cs] & E & Hin).
      simpl in E. subst k. exists cs. split; [assumption|].
      rewrite (from_bfs_entry counted [root] m cs Hin).
      apply filter_In. now split.
Qed.

Lemma extract_ctes_In (root n : node) :
  let g := dependency_graph root in
  In n (extract_ctes root)
  <-> reach counted [root] n
      /\ (is_View n = true
          \/ (cte_types n = true /\ 2 <= length (dependents g n))).
Proof.
  intros g. unfold extract_ctes, invert. fold (dependency_graph root).
  fold g. rewrite in_map_iff. split.
  - intros ([k ds] & E & Hin). simpl in E. subst k.
    apply filter_In in Hin. destruct Hin as [Hin Hq].
    apply in_map_iff in Hin. destruct Hin as ([k cs] & [= <- <-] & Hin).
    simpl in Hq. split.
    + apply from_bfs_nodes. apply in_map_iff. now exists (k, cs).
    + apply orb_true_iff in Hq. destruct Hq as [?|Hq]; [now left|].
      apply andb_true_iff in Hq. destruct Hq as [Hl Hc].
      apply Nat.ltb_lt in Hl. right. split; [assumption | lia].
  - intros [Hr Hq]. apply from_bfs_nodes in Hr. apply in_map_iff in Hr.
    destruct Hr as ([k cs] & E & Hin). simpl in E. subst k.
    exists (n, dependents g n). split; [reflexivity|].
    apply filter_In. split.
    + apply in_map_iff. now exists (n, cs).
    + simpl. apply orb_true_iff. destruct Hq as [?|[Hc Hl]]; [now left|].
      right. apply andb_true_iff. split; [|assumption].
      apply Nat.ltb_lt. lia.
Qed.

Lemma cte_types_counted (n : node) : cte_types n = true -> counted n = true.
Proof. destruct n as [| | | | | | | | | | | | | |k c a l]; try easy. now destruct k. Qed.

Lemma replace_fn_eq (fn : node -> list node -> node) (n : node) :
  replace_fn fn n = fn n (map (replace_fn fn) (children n)).
Proof. unfold replace_fn. apply fold_node_eq. Qed.

Lemma recreate_is_CTE (n : node) (cs : list node) :
  is_CTE (recreate n cs) = is_CTE n.
Proof.
  destruct n; cbn [recreate];
    repeat match goal with
           | |- context [let (_, _) := ?e in _] => destruct e
           end; reflexivity.
Qed.





(** In the union example the shared relations [a] and [b] are referenced
    twice each and are wrapped once. *)
Example cte_wrapping_union :
  dependents (dependency_graph ex_union) ex_a = [ex_union; ex_b]
  /\ dependents (dependency_graph ex_union) ex_b
     = [Limit ex_b 1; Limit ex_b 2]
  /\ extract_ctes ex_union = [ex_a; ex_b]
  /\ wrap_ctes ex_union ex_union = ex_union'.
Proof. repeat split; vm_compute; reflexivity. Qed.


(** ** The orchestrator *)

(** The stages of [sqlize] behind a successful run. *)
Lemma sqlize_stages (root : node) (params : list (node * scalar))
  (rewrites : list rule) (g : node) (l : list node) :
  sqlize root params rewrites = Ok (g, l) ->
  exists simplified,
    g = wrap_ctes simplified simplified
    /\ l = rev (map parent_of (find_nodes is_CTE no_filter g)).
Proof.
  unfold sqlize. destruct (negb (is_Relation root)); [discriminate|].
  destruct (match rewrites with
            | [] => Ok root
            | r :: rs => replace_rule (fold_left alt rs r) root
            end) as [n1|]; [|discriminate]. simpl.
  destruct (replace_rule (core_rules params) n1) as [sqlized|];
    [|discriminate]. simpl.
  destruct (replace_rule merge_select_select sqlized) as [simplified|];
    [|discriminate]. simpl.
  intros [= <- <-]. exists simplified. split; reflexivity.
Qed.

(** C6: on the union example, where the shared relation [b] is built on the
    shared relation [a], the list returned by [sqlize] is the reverse of the
    breadth-first discovery order of the CTE nodes, yet it holds [b], whose
    body references [a], before [a]: the list is not dependency-first. *)
Theorem sqlize_ctes_not_dependency_first :
  sqlize ex_union [] [] = Ok (ex_union', [ex_b'; ex_a])
  /\ find_nodes is_CTE no_filter ex_union' = [CTE ex_a; CTE ex_b']
  /\ [ex_b'; ex_a] = rev (map parent_of [CTE ex_a; CTE ex_b'])
  /\ descends ex_b' (CTE ex_a)
  /\ ~ descends ex_a (CTE ex_b').
Proof.
  split; [vm_compute; reflexivity|]. split; [vm_compute; reflexivity|].
  split; [reflexivity|].
  split; [apply descends_by_bfs; vm_compute; reflexivity|].
  intros H. apply descends_size in H. vm_compute in H. lia.
Qed.

Lemma sequence_Ok_id {A : Type} (f : A -> result A) (l : list A) :
  (forall x, In x l -> f x = Ok x) -> sequence (map f l) = Ok l.
Proof.
  induction l as [|x l IH]; intros H; simpl; [reflexivity|].
  rewrite (H x (or_introl eq_refl)). simpl.
  rewrite IH; [reflexivity|]. intros y Hy. apply H. now right.
Qed.

Lemma replace_rule_eq (r : rule) (n : node) :
  replace_rule r n
  = (cs <- sequence (map (replace_rule r) (children n)) ;;
     match r (recreate n cs) with
     | Some res => res
     | None => Ok (recreate n cs)
     end).
Proof. unfold replace_rule at 1. now rewrite fold_node_eq. Qed.

(** A rule that changes no node of the graph leaves the graph as it is. *)
Lemma replace_rule_fixed (r : rule) (g : node) :
  (forall n, descends g n -> rule_fixes r n) -> replace_rule r g = Ok g.
Proof.
  induction g as [g IH] using node_children_ind. intros H.
  rewrite replace_rule_eq, sequence_Ok_id; simpl.
  - rewrite recreate_children.
    destruct (H g (descends_refl g)) as [E|E]; now rewrite E.
  - intros c Hc. apply IH; [assumption|].
    intros n Hn. apply H. now apply descends_child with (c := c).
Qed.

Lemma wrap_nil_id (g : node) : replace_fn (wrap []) g = g.
Proof.
  induction g as [g IH] using node_children_ind.
  rewrite replace_fn_eq. unfold wrap. simpl.
  transitivity (recreate g (children g)); [|apply recreate_children].
  f_equal. rewrite <- (map_id (children g)) at 2. now apply map_ext_in.
Qed.

Lemma rule_fixesb_true (r : rule) (n : node) :
  rule_fixesb r n = true -> rule_fixes r n.
Proof.
  unfold rule_fixesb, rule_fixes. destruct (r n) as [[m|e]|]; auto.
  - intros H. apply node_eqb_eq in H. subst. now right.
  - discriminate.
Qed.

(** ** Scenarios *)

(** Double projection inlining. *)
Example sqlize_double_projection :
  sqlize ex_project [] [] = Ok (ex_merged, []).
Proof. vm_compute. reflexivity. Qed.

(** A window function in the inner projection blocks the merge: the output
    keeps two nested Select nodes. *)
Example sqlize_blocked_merge :
  let w := WindowFunction (FirstValue (Field ex_R "x")) "rows" None None
             [] [] in
  let inner := Select ex_R [("a", w)] [] [] in
  sqlize ex_window [] []
  = Ok (Select inner [("b", Field inner "a")] [] [], []).
Proof. vm_compute. reflexivity. Qed.

(** Equal scores: the merged node is preferred. *)
Example merge_select_select_tie :
  complexity (merged_select ex_twice) = 9 /\ complexity ex_twice = 9
  /\ merge_select_select ex_twice = Some (Ok (merged_select ex_twice)).
Proof. vm_compute. repeat split. Qed.

(** A merged node that would score more is given up. *)
Example merge_select_select_too_complex :
  complexity (merged_select ex_thrice) = 13 /\ complexity ex_thrice = 11
  /\ merge_select_select ex_thrice = Some (Ok ex_thrice).
Proof. vm_compute. repeat split. Qed.

(** Sampling without a seed becomes a filter on a random number; with a
    seed it is rejected. *)
Example sqlize_sample :
  sqlize (Sample ex_R (3 # 10) "row" None) [] [rewrite_sample_as_filter]
  = Ok (Select ex_R [("x", Field ex_R "x"); ("y", Field ex_R "y")]
          [LessEqual RandomScalar (Literal (SFloat (3 # 10)) "float64")] [],
        [])
  /\ sqlize (Sample ex_R (3 # 10) "row" (Some 42%Z)) []
       [rewrite_sample_as_filter]
     = Raise (UnsupportedOperationError
                "`Table.sample` with a random seed is unsupported").
Proof. split; vm_compute; reflexivity. Qed.

(** A merge that becomes possible only after another merge is not retried
    within the pass: the chain keeps two nested Select nodes, and a second
    lowering merges them. *)
Example sqlize_merge_not_retried :
  let kept := Select ex_inner [("c", int_lit 1)] [] [] in
  sqlize ex_chain [] [] = Ok (kept, [])
  /\ sqlize kept [] [] = Ok (Select ex_R [("c", int_lit 1)] [] [], []).
Proof. split; vm_compute; reflexivity. Qed.

(** ** Further properties of the Select-merge engine *)

(** The three ways out of [merge_select_select] on a nested pair. *)
Lemma merge_select_select_cases (n : node) :
  is_select_pair n = true ->
  merge_select_select n = Some (Ok n)
  \/ (unblocked n /\ unblocked (parent_of n)
      /\ complexity (merged_select n) <= complexity n
      /\ merge_select_select n = Some (Ok (merged_select n))).
Proof.
  destruct n as [| | | |p sels ps ks| | | | | | | | | |]; try discriminate.
  destruct p as [| | | |pp sels1 ps1 ks1| | | | | | | | | |]; try discriminate.
  intros _. unfold merge_select_select.
  set (inner := Select pp sels1 ps1 ks1).
  set (outer := Select inner sels ps ks).
  destruct (truthy (find_below blocking is_Value outer)) eqn:Bo;
    [now left|].
  destruct (truthy (find_below blocking is_Value inner)) eqn:Bi;
    [now left|].
  destruct (complexity (merged_select outer) <=? complexity outer) eqn:G;
    [|now left].
  right. apply Nat.leb_le in G.
  split; [now apply find_below_unblocked|].
  split; [now apply find_below_unblocked|]. now split.
Qed.

Lemma merge_select_select_match (n : node) :
  merge_select_select n <> None -> is_select_pair n = true.
Proof.
  destruct n as [| | | |p sels ps ks| | | | | | | | | |];
    try (intros H; now destruct H).
  destruct p; try (intros H; now destruct H). reflexivity.
Qed.

Lemma keys_map_snd {A B : Type} (f : A -> B) (l : list (string * A)) :
  keys (map (fun kv : string * A => (fst kv, f (snd kv))) l) = keys l.
Proof. unfold keys. rewrite map_map. reflexivity. Qed.

(** X1: whenever [merge_select_select] matches, it returns a Select (it
    never raises) whose selections have the names of the matched Select's
    selections, in the same order: the schema's column names are kept. *)
Theorem merge_select_select_schema (n : node) (r : result node) :
  merge_select_select n = Some r ->
  exists m, r = Ok m /\ is_Select m = true
            /\ keys (selections_of m) = keys (selections_of n).
Proof.
  intros H.
  assert (P : is_select_pair n = true)
    by (apply merge_select_select_match; congruence).
  destruct (merge_select_select_cases n P) as [E|(_ & _ & _ & E)];
    rewrite E in H; injection H as <-.
  - exists n. split; [reflexivity|]. split; [|reflexivity].
    destruct n; try discriminate. reflexivity.
  - exists (merged_select n). split; [reflexivity|]. split; [reflexivity|].
    destruct n; try discriminate. unfold merged_select. simpl.
    apply keys_map_snd.
Qed.

Lemma merge_select_select_schema_witness :
  merge_select_select ex_outer = Some (Ok ex_merged)
  /\ exists m, Ok ex_merged = Ok m /\ is_Select m = true
               /\ keys (selections_of m) = keys (selections_of ex_outer).
Proof.
  assert (H : merge_select_select ex_outer = Some (Ok ex_merged))
    by (vm_compute; reflexivity).
  split; [exact H|].
  exact (merge_select_select_schema ex_outer (Ok ex_merged) H).
Defined.

(** X2: the node returned by [merge_select_select] never scores more than
    the node it was given. *)
Theorem merge_select_select_not_more_complex (n m : node) :
  merge_select_select n = Some (Ok m) -> complexity m <= complexity n.
Proof.
  intros H.
  assert (P : is_select_pair n = true)
    by (apply merge_select_select_match; congruence).
  destruct (merge_select_select_cases n P) as [E|(_ & _ & G & E)];
    rewrite E in H; injection H as <-; [lia | exact G].
Qed.

Lemma merge_select_select_not_more_complex_witness :
  merge_select_select ex_thrice = Some (Ok ex_thrice)
  /\ complexity ex_thrice <= complexity ex_thrice.
Proof.
  assert (H : merge_select_select ex_thrice = Some (Ok ex_thrice))
    by (vm_compute; reflexivity).
  split; [exact H|].
  exact (merge_select_select_not_more_complex ex_thrice ex_thrice H).
Defined.

(** X3: [merge_select_select] changes a node only when neither Select of
    the pair holds a blocking operation in its value subtrees and the
    merged candidate scores at most as much; the node it then returns is
    the candidate, a Select over the inner Select's parent. *)
Theorem merge_select_select_only_when_safe (n m : node) :
  merge_select_select n = Some (Ok m) -> m <> n ->
  unblocked n /\ unblocked (parent_of n)
  /\ complexity m <= complexity n
  /\ m = merged_select n
  /\ parent_of m = parent_of (parent_of n).
Proof.
  intros H Hne.
  assert (P : is_select_pair n = true)
    by (apply merge_select_select_match; congruence).
  destruct (merge_select_select_cases n P) as [E|(Ho & Hi & G & E)];
    rewrite E in H; injection H as <-; [now destruct Hne|].
  repeat split; assumption || reflexivity.
Qed.

Lemma merge_select_select_only_when_safe_witness :
  merge_select_select ex_outer = Some (Ok ex_merged)
  /\ ex_merged <> ex_outer
  /\ unblocked ex_outer /\ unblocked (parent_of ex_outer)
  /\ complexity ex_merged <= complexity ex_outer
  /\ ex_merged = merged_select ex_outer
  /\ parent_of ex_merged = parent_of (parent_of ex_outer).
Proof.
  assert (H : merge_select_select ex_outer = Some (Ok ex_merged))
    by (vm_compute; reflexivity).
  assert (N : ex_merged <> ex_outer) by discriminate.
  split; [exact H|]. split; [exact N|].
  exact (merge_select_select_only_when_safe ex_outer ex_merged H N).
Defined.

Lemma NoDup_map_filter {A B : Type} (g : A -> B) (f : A -> bool)
  (l : list A) :
  NoDup (map g l) -> NoDup (map g (filter f l)).
Proof.
  induction l as [|x l IH]; simpl; [trivial|].
  intros H. inversion H as [|y ys Hy Hn]; subst.
  destruct (f x); simpl; [|now apply IH].
  constructor; [|now apply IH].
  intros Hin. apply Hy. apply in_map_iff in Hin.
  destruct Hin as (z & E & Hz). apply filter_In in Hz.
  apply in_map_iff. exists z. tauto.
Qed.

(** X4: when the substituted outer sort keys order by pairwise different
    expressions, and so do the inner sort keys, the merged Select orders by
    pairwise different expressions: no expression is sorted on twice. *)
Theorem merged_select_sort_exprs_distinct :
  forall (R : node) (sel1 sel2 : list (string * node))
         (pred1 sort1 pred2 sort2 : list node),
    let inner := Select R sel1 pred1 sort1 in
    let outer := Select inner sel2 pred2 sort2 in
    let subst := replace_mapping (field_subs inner) is_Value in
    NoDup (map expr_of (map subst sort2)) ->
    NoDup (map expr_of sort1) ->
    NoDup (map expr_of (sort_keys_of (merged_select outer))).
Proof.
  intros R sel1 sel2 pred1 sort1 pred2 sort2 inner outer sub H2 H1.
  pose proof (merged_select_eq R sel1 sel2 pred1 sort1 pred2 sort2) as Q.
  cbv zeta in Q. fold inner outer in Q. fold sub in Q. rewrite Q.
  cbn [sort_keys_of]. rewrite map_app.
  apply NoDup_app; [assumption | now apply NoDup_map_filter |].
  intros e He Hin. apply in_map_iff in Hin. destruct Hin as (k & <- & Hk).
  apply filter_In in Hk. destruct Hk as [_ Hk].
  apply negb_true_iff, mem_not_In in Hk. contradiction.
Qed.

Lemma merged_select_sort_exprs_distinct_witness :
  NoDup (map expr_of
           (map (replace_mapping (field_subs ex_sort_inner) is_Value)
                [SortKey (Field ex_sort_inner "x") true]))
  /\ NoDup (map expr_of [SortKey (Field ex_R "x") false;
                         SortKey (Field ex_R "y") true])
  /\ NoDup (map expr_of (sort_keys_of (merged_select ex_sort_outer))).
Proof.
  assert (H2 : NoDup (map expr_of
           (map (replace_mapping (field_subs ex_sort_inner) is_Value)
                [SortKey (Field ex_sort_inner "x") true]))).
  { vm_compute. repeat constructor. intros []. }
  assert (H1 : NoDup (map expr_of [SortKey (Field ex_R "x") false;
                                   SortKey (Field ex_R "y") true])).
  { simpl. repeat constructor; simpl; [|tauto].
    intros [E|[]]. discriminate. }
  split; [exact H2|]. split; [exact H1|].
  exact (merged_select_sort_exprs_distinct ex_R [("x", Field ex_R "x")]
           [("x", Field ex_sort_inner "x")] []
           [SortKey (Field ex_R "x") false; SortKey (Field ex_R "y") true]
           [] [SortKey (Field ex_sort_inner "x") true] H2 H1).
Defined.

(** X5: merging loses no condition and no ordering: the merged predicates
    are exactly the inner predicates and the substituted outer predicates,
    every substituted outer sort key is kept, and the expression of every
    inner sort key is still sorted on. *)
Theorem merged_select_loses_nothing :
  forall (R : node) (sel1 sel2 : list (string * node))
         (pred1 sort1 pred2 sort2 : list node),
    let inner := Select R sel1 pred1 sort1 in
    let outer := Select inner sel2 pred2 sort2 in
    let subst := replace_mapping (field_subs inner) is_Value in
    let merged := merged_select outer in
    (forall p, In p (predicates_of merged)
               <-> In p pred1 \/ In p (map subst pred2))
    /\ (forall k, In k (map subst sort2) -> In k (sort_keys_of merged))
    /\ (forall k, In k sort1 ->
                  In (expr_of k) (map expr_of (sort_keys_of merged))).
Proof.
  intros R sel1 sel2 pred1 sort1 pred2 sort2 inner outer sub merged.
  pose proof (merged_select_eq R sel1 sel2 pred1 sort1 pred2 sort2) as Q.
  cbv zeta in Q. fold inner outer in Q. fold sub merged in Q.
  rewrite Q. cbn [predicates_of sort_keys_of]. split.
  { intros p. rewrite unique_dedup, dedup_first_In. apply in_app_iff. }
  split.
  { intros k Hk. apply in_or_app. now left. }
  intros k Hk. rewrite map_app. apply in_or_app.
  destruct (mem (expr_of k) (map expr_of (map sub sort2))) eqn:M.
  - left. now apply mem_In.
  - right. apply in_map. apply filter_In. split; [assumption|].
    now rewrite M.
Qed.

(** *** A projection of all columns is absorbed *)

Lemma dict_lookup_NoDup (l : list (string * node)) (k : string) (e : node) :
  NoDup (keys l) -> In (k, e) l -> dict_lookup k l = Some e.
Proof.
  unfold dict_lookup, keys.
  induction l as [|[k' e'] l IH]; simpl; [tauto|].
  intros H Hin. inversion H as [|x xs Hx Hn]; subst.
  destruct Hin as [[= -> ->]|Hin].
  - now rewrite String.eqb_refl.
  - destruct (String.eqb k k') eqn:E; [|now apply IH].
    apply String.eqb_eq in E. subst k'. exfalso. apply Hx.
    apply in_map_iff. now exists (k, e).
Qed.

Lemma list_sum_nat_app (l1 l2 : list nat) :
  list_sum_nat (l1 ++ l2) = list_sum_nat l1 + list_sum_nat l2.
Proof. induction l1 as [|x l1 IH]; simpl; [reflexivity | rewrite IH; lia]. Qed.

Lemma list_sum_nat_filter {A : Type} (g : A -> nat) (f : A -> bool)
  (l : list A) :
  list_sum_nat (map g (filter f l)) <= list_sum_nat (map g l).
Proof.
  induction l as [|x l IH]; simpl; [lia|]. destruct (f x); simpl; lia.
Qed.

Lemma list_sum_nat_dedup (g : node -> nat) (l : list node) :
  list_sum_nat (map g (dedup_first l)) <= list_sum_nat (map g l).
Proof.
  induction l as [|x l IH]; simpl; [lia|].
  pose proof (list_sum_nat_filter g (fun y => negb (node_eqb y x))
                (dedup_first l)). lia.
Qed.

Lemma complexity_Select (p : node) (sels : list (string * node))
  (ps ks : list node) :
  complexity (Select p sels ps ks)
  = 1 + (complexity p
         + (list_sum_nat (map complexity (map snd sels))
            + (list_sum_nat (map complexity ps)
               + list_sum_nat (map complexity ks)))).
Proof.
  rewrite complexity_other by reflexivity. simpl.
  rewrite !map_app, !list_sum_nat_app. reflexivity.
Qed.

Lemma all_fields_unblocked (inner : node) (names : list string) :
  is_Value inner = false ->
  unblocked (Select inner (all_fields inner names) [] []).
Proof.
  intros Hrel m Hm. unfold value_below in Hm.
  assert (G : forall x, reach is_Value
                (children (Select inner (all_fields inner names) [] [])) x ->
              exists k, x = Field inner k).
  { intros x Hx. induction Hx as [r Hr Hv | m' c Hm' IH Hc Hv].
    - simpl in Hr. destruct Hr as [<-|Hr]; [congruence|].
      rewrite !app_nil_r in Hr. unfold all_fields in Hr.
      rewrite map_map in Hr. apply in_map_iff in Hr.
      destruct Hr as (k & <- & _). now exists k.
    - destruct IH as (k & ->). simpl in Hc. destruct Hc as [<-|[]].
      congruence. }
  destruct (G m Hm) as (k & ->). reflexivity.
Qed.

(** X6: a Select that only projects every column of an inner Select as it
    is (no predicate, no sort key), as the lowering of a filter or a sort
    builds its selections, is absorbed by the merge whenever the inner
    Select holds no blocking operation: the result is the inner Select with
    duplicate predicates removed. *)
Theorem merge_select_select_all_fields :
  forall (R : node) (sel1 : list (string * node)) (pred1 sort1 : list node),
    let inner := Select R sel1 pred1 sort1 in
    NoDup (keys sel1) -> unblocked inner ->
    merge_select_select (Select inner (all_fields inner (keys sel1)) [] [])
    = Some (Ok (Select R sel1 (dedup_first pred1) sort1)).
Proof.
  intros R sel1 pred1 sort1 inner Hnd Hi.
  set (outer := Select inner (all_fields inner (keys sel1)) [] []).
  assert (Ho : unblocked outer) by now apply all_fields_unblocked.
  assert (M : merged_select outer = Select R sel1 (dedup_first pred1) sort1).
  { pose proof (merged_select_eq R sel1 (all_fields inner (keys sel1))
                  pred1 sort1 [] []) as Q.
    cbv zeta in Q. fold inner outer in Q. rewrite Q.
    cbn [map app]. rewrite app_nil_r, unique_dedup.
    assert (S1 : map (fun kv : string * node =>
                        (fst kv, replace_mapping (field_subs inner) is_Value
                                   (snd kv)))
                     (all_fields inner (keys sel1)) = sel1).
    { unfold all_fields, keys. rewrite !map_map. cbn [fst snd].
      rewrite <- (map_id sel1) at 2. apply map_ext_in.
      intros [k e] Hin. cbn [fst]. f_equal.
      rewrite replace_mapping_eq by reflexivity.
      pose proof (dict_get_field_subs R sel1 pred1 sort1 k) as D.
      cbv zeta in D. fold inner in D. rewrite D.
      now rewrite (dict_lookup_NoDup sel1 k e Hnd Hin). }
    rewrite S1. f_equal. apply forallb_filter_id.
    apply forallb_forall. reflexivity. }
  pose proof (merge_select_select_guard R sel1 (all_fields inner (keys sel1))
                pred1 sort1 [] [] Ho Hi) as G.
  cbv zeta in G. fold inner outer in G. rewrite G, M.
  assert (C : complexity (Select R sel1 (dedup_first pred1) sort1)
              <= complexity outer).
  { unfold outer. rewrite (complexity_Select inner).
    unfold inner at 1. rewrite !complexity_Select.
    pose proof (list_sum_nat_dedup complexity pred1). lia. }
  apply Nat.leb_le in C. now rewrite C.
Qed.

Lemma merge_select_select_all_fields_witness :
  NoDup (keys [("a", Add (Field ex_R "x") (int_lit 1))])
  /\ unblocked ex_inner
  /\ merge_select_select
       (Select ex_inner (all_fields ex_inner ["a"]) [] [])
     = Some (Ok ex_inner).
Proof.
  assert (Hn : NoDup (keys [("a", Add (Field ex_R "x") (int_lit 1))]))
    by (repeat constructor; intros []).
  assert (Hi : unblocked ex_inner) by by_find_below.
  split; [exact Hn|]. split; [exact Hi|].
  exact (merge_select_select_all_fields ex_R
           [("a", Add (Field ex_R "x") (int_lit 1))] [] [] Hn Hi).
Defined.

(** ** Bounds of the complexity score *)

Lemma list_sum_nat_le {A : Type} (f g : A -> nat) (l : list A) :
  (forall x, In x l -> f x <= g x) ->
  list_sum_nat (map f l) <= list_sum_nat (map g l).
Proof.
  induction l as [|x l IH]; intros H; simpl; [lia|].
  pose proof (H x (or_introl eq_refl)).
  assert (list_sum_nat (map f l) <= list_sum_nat (map g l))
    by (apply IH; intros y Hy; apply H; now right).
  lia.
Qed.

Lemma list_sum_nat_eq {A : Type} (f g : A -> nat) (l : list A) :
  (forall x, In x l -> f x <= g x) ->
  list_sum_nat (map f l) = list_sum_nat (map g l) ->
  forall x, In x l -> f x = g x.
Proof.
  induction l as [|y l IH]; intros H E x Hx; [destruct Hx|]. simpl in E.
  pose proof (H y (or_introl eq_refl)) as Hy.
  assert (L : list_sum_nat (map f l) <= list_sum_nat (map g l))
    by (apply list_sum_nat_le; intros z Hz; apply H; now right).
  destruct Hx as [<-|Hx]; [lia|].
  apply IH; [intros z Hz; apply H; now right | lia | assumption].
Qed.

(** X7: the complexity score of a node is at least 1 and at most the
    number of nodes of its term, and it equals that number exactly when no
    Field occurs in the term: only what lies behind fields is left out. *)
Theorem complexity_bounds (n : node) :
  1 <= complexity n <= size n
  /\ (complexity n = size n
      <-> forall m, descends n m -> is_Field m = false).
Proof.
  induction n as [n IH] using node_children_ind.
  destruct (is_Field n) eqn:F.
  - destruct n; try discriminate. rewrite complexity_Field, size_Field.
    pose proof (size_pos n) as Hp. split; [lia|]. split; [lia|].
    intros Hall. specialize (Hall _ (descends_refl _)). discriminate.
  - rewrite (complexity_other n F), (size_eq n).
    assert (L : forall c, In c (children n) -> complexity c <= size c)
      by (intros c Hc; apply (IH c Hc)).
    pose proof (list_sum_nat_le complexity size (children n) L) as S_.
    split; [lia|]. split.
    + intros E m Hm. destruct (descends_inv n m Hm) as [->|(c & Hc & Hd)];
        [assumption|].
      apply (proj2 (IH c Hc)); [|assumption].
      apply (list_sum_nat_eq complexity size (children n) L); [lia|assumption].
    + intros Hall. simpl. do 2 f_equal. apply map_ext_in.
      intros c Hc. apply (proj2 (IH c Hc)). intros m Hm. apply Hall.
      now apply descends_child with (c := c).
Qed.

(** ** Further properties of the CTE extractor *)

Lemma map_fst_invert (g : graph) : map fst (invert g) = nodes g.
Proof. unfold invert, nodes. rewrite map_map. reflexivity. Qed.

Lemma reach_counted (root n : node) :
  reach counted [root] n -> counted n = true.
Proof. induction 1; assumption. Qed.

Lemma View_is_Relation (n : node) : is_View n = true -> is_Relation n = true.
Proof.
  destruct n; try discriminate. unfold is_View, is_kind. simpl.
  destruct (kind_eq_dec k KView) as [->|]; [reflexivity | discriminate].
Qed.

Lemma cte_types_is_Relation (n : node) :
  cte_types n = true -> is_Relation n = true.
Proof.
  destruct n; try discriminate; try reflexivity.
  unfold cte_types, is_kind. simpl.
  destruct (kind_eq_dec k KAggregate) as [->|]; [reflexivity|].
  destruct (kind_eq_dec k KJoinChain) as [->|]; [reflexivity|].
  destruct (kind_eq_dec k KSet) as [->|]; [reflexivity|].
  destruct (kind_eq_dec k KLimit) as [->|]; [reflexivity | discriminate].
Qed.

(** X8: [extract_ctes] returns no node twice; every node it returns is a
    relation reachable from the root without passing through a Field,
    CountStar or CountDistinctStar, and is a view or of a CTE-eligible
    kind; the root itself is returned only if it is a view. *)
Theorem extract_ctes_sound (root : node) :
  NoDup (extract_ctes root)
  /\ (forall n, In n (extract_ctes root) ->
        reach counted [root] n
        /\ is_Relation n = true
        /\ (is_View n = true \/ cte_types n = true))
  /\ (In root (extract_ctes root) -> is_View root = true).
Proof.
  split.
  { unfold extract_ctes. apply NoDup_map_fst_filter.
    rewrite map_fst_invert. apply from_bfs_NoDup. }
  assert (S_ : forall n, In n (extract_ctes root) ->
        reach counted [root] n
        /\ (is_View n = true
            \/ (cte_types n = true
                /\ 2 <= length (dependents (dependency_graph root) n)))).
  { intros n Hn. now apply extract_ctes_In in Hn. }
  split.
  { intros n Hn. destruct (S_ n Hn) as [Hr Hq]. split; [assumption|].
    destruct Hq as [V|[C _]].
    - split; [now apply View_is_Relation | now left].
    - split; [now apply cte_types_is_Relation | now right]. }
  intros Hn. destruct (S_ root Hn) as [_ [V|[_ L]]]; [assumption|].
  exfalso. destruct (dependents_spec root root) as [_ D].
  destruct (dependents (dependency_graph root) root) as [|m ds] eqn:E;
    [simpl in L; lia|].
  destruct (proj1 (D m) (or_introl eq_refl)) as (Hm & Hc & _).
  apply reach_descends, descends_size in Hm. apply children_size in Hc. lia.
Qed.

(** ** Further properties of the orchestrator *)

Lemma parent_of_CTE_inj (a b : node) :
  is_CTE a = true -> is_CTE b = true -> parent_of a = parent_of b -> a = b.
Proof.
  destruct a; try discriminate. destruct b; try discriminate.
  simpl. now intros _ _ ->.
Qed.

Lemma NoDup_map_inj_in {A B : Type} (f : A -> B) (l : list A) :
  (forall x y, In x l -> In y l -> f x = f y -> x = y) ->
  NoDup l -> NoDup (map f l).
Proof.
  induction l as [|x l IH]; simpl; intros Hinj H; [constructor|].
  inversion H as [|y ys Hy Hn]; subst. constructor.
  - intros Hin. apply in_map_iff in Hin. destruct Hin as (z & E & Hz).
    assert (z = x) by (apply Hinj; auto). now subst.
  - apply IH; [|assumption]. intros a b Ha Hb. apply Hinj; now right.
Qed.

(** X9: the CTE list returned by [sqlize] holds no relation twice, and it
    holds exactly the relations that stand under a CTE node somewhere in
    the returned graph. *)
Theorem sqlize_ctes_are_the_wrapped (root : node)
  (params : list (node * scalar)) (rewrites : list rule)
  (g : node) (ctes : list node) :
  sqlize root params rewrites = Ok (g, ctes) ->
  NoDup ctes /\ forall b, In b ctes <-> descends g (CTE b).
Proof.
  intros H. destruct (sqlize_stages root params rewrites g ctes H)
    as (s & _ & ->).
  unfold find_nodes.
  set (ns := nodes (from_bfs [g] no_filter)).
  assert (Hns : NoDup ns) by apply from_bfs_NoDup.
  split.
  - apply NoDup_rev. apply NoDup_map_inj_in; [|now apply NoDup_filter].
    intros x y Hx Hy. apply filter_In in Hx, Hy.
    now apply parent_of_CTE_inj.
  - intros b. rewrite <- in_rev, in_map_iff. split.
    + intros (c & E & Hc). apply filter_In in Hc. destruct Hc as [Hc Hcte].
      destruct c; try discriminate. simpl in E. subst.
      now apply from_bfs_nodes in Hc.
    + intros Hd. exists (CTE b). split; [reflexivity|].
      apply filter_In. split; [|reflexivity]. now apply from_bfs_nodes.
Qed.

Lemma sqlize_ctes_are_the_wrapped_witness :
  sqlize ex_union [] [] = Ok (ex_union', [ex_b'; ex_a])
  /\ NoDup [ex_b'; ex_a]
  /\ forall b, In b [ex_b'; ex_a] <-> descends ex_union' (CTE b).
Proof.
  assert (H : sqlize ex_union [] [] = Ok (ex_union', [ex_b'; ex_a]))
    by (vm_compute; reflexivity).
  split; [exact H|].
  exact (sqlize_ctes_are_the_wrapped ex_union [] [] ex_union'
           [ex_b'; ex_a] H).
Defined.

(** *** Exceptions abort the whole traversal *)

Lemma sequence_Raise {A : Type} (l : list (result A)) (e : exn) :
  In (Raise e) l -> exists e', sequence l = Raise e'.
Proof.
  induction l as [|r l IH]; simpl; [tauto|].
  intros [->|Hin]; [now exists e|].
  destruct r as [x|e0]; [|now exists e0]. simpl.
  destruct (IH Hin) as (e' & ->). now exists e'.
Qed.

Lemma sequence_Ok_inv {A B : Type} (f : A -> result B) (l : list A)
  (xs : list B) :
  sequence (map f l) = Ok xs ->
  length xs = length l
  /\ (forall x, In x xs -> exists c, In c l /\ f c = Ok x)
  /\ match l, xs with
     | c :: _, x :: _ => f c = Ok x
     | _, _ => True
     end.
Proof.
  revert xs. induction l as [|c l IH]; simpl; intros xs H.
  - injection H as <-. split; [reflexivity|]. split; [intros x []|exact I].
  - destruct (f c) as [x|e] eqn:E; [|discriminate]. simpl in H.
    destruct (sequence (map f l)) as [ys|e]; [|discriminate]. simpl in H.
    injection H as <-. destruct (IH ys eq_refl) as (L & S_ & _).
    split; [simpl; now rewrite L|]. split; [|reflexivity].
    intros y [<-|Hy].
    + exists c. split; [now left | assumption].
    + destruct (S_ y Hy) as (c' & Hc' & E'). exists c'. split; [now right|].
      assumption.
Qed.

Lemma sequence_all_Ok {A B : Type} (f : A -> result B) (l : list A) :
  (forall c, In c l -> exists x, f c = Ok x) ->
  exists xs, sequence (map f l) = Ok xs.
Proof.
  induction l as [|c l IH]; intros H; simpl; [now exists []|].
  destruct (H c (or_introl eq_refl)) as (x & ->).
  destruct IH as (xs & ->); [intros c' Hc'; apply H; now right|].
  simpl. now exists (x :: xs).
Qed.

Lemma replace_rule_raise_child (r : rule) (n c : node) (e : exn) :
  In c (children n) -> replace_rule r c = Raise e ->
  exists e', replace_rule r n = Raise e'.
Proof.
  intros Hc Hr. rewrite replace_rule_eq.
  destruct (sequence_Raise (map (replace_rule r) (children n)) e)
    as (e' & ->).
  - rewrite <- Hr. now apply in_map.
  - now exists e'.
Qed.

Lemma replace_rule_raise_below (r : rule) (n m : node) :
  descends n m ->
  forall e, replace_rule r m = Raise e ->
            exists e', replace_rule r n = Raise e'.
Proof.
  induction 1 as [x [<-|[]] _ | m' c Hm' IH Hc _]; intros e He.
  - now exists e.
  - destruct (replace_rule_raise_child r m' c e Hc He) as (e1 & H1).
    now apply (IH e1).
Qed.

(** What [replace_rule] does once the children are rewritten. *)
Lemma replace_rule_Ok_inv (r : rule) (n g : node) :
  replace_rule r n = Ok g ->
  exists cs,
    sequence (map (replace_rule r) (children n)) = Ok cs
    /\ match r (recreate n cs) with
       | Some res => res
       | None => Ok (recreate n cs)
       end = Ok g.
Proof.
  rewrite replace_rule_eq.
  destruct (sequence (map (replace_rule r) (children n))) as [cs|e];
    [|discriminate].
  simpl. intros H. now exists cs.
Qed.

Lemma recreate_where_set (f : node) (cs : list node) :
  where_set (recreate f cs) = where_set f.
Proof.
  destruct f; cbn [recreate];
    repeat match goal with
           | |- context [let (_, _) := ?e in _] => destruct e eqn:?
           end; try reflexivity;
    match goal with
    | E : re_opt ?w _ = (?w', _) |- _ =>
        destruct w; simpl in E;
        [ match type of E with
          | (let (_, _) := ?x in _) = _ => destruct x
          end; injection E as <- _
        | injection E as <- _ ]; reflexivity
    end.
Qed.

Lemma recreate_is_kind (k : kind) (n : node) (cs : list node) :
  is_kind k (recreate n cs) = is_kind k n.
Proof.
  destruct n; cbn [recreate];
    repeat match goal with
           | |- context [let (_, _) := ?e in _] => destruct e
           end; reflexivity.
Qed.

Lemma recreate_is_high_level (n : node) (cs : list node) :
  is_high_level (recreate n cs) = is_high_level n.
Proof.
  destruct n; cbn [recreate];
    repeat match goal with
           | |- context [let (_, _) := ?e in _] => destruct e
           end; reflexivity.
Qed.

(** The core rules raise exactly on a filtered windowed first/last
    ([UnsupportedOperationError]) and on an unbound scalar parameter
    ([KeyError]). *)
Lemma core_rules_raise (params : list (node * scalar)) (n : node) (e : exn) :
  core_rules params n = Some (Raise e) ->
  (filtered_first_last n = true /\ exists msg, e = UnsupportedOperationError msg)
  \/ (is_kind KScalarParameter n = true /\ e = KeyError).
Proof.
  unfold core_rules, alt.
  destruct n; simpl; try discriminate.
  - destruct n; simpl; try discriminate;
      destruct where_; simpl; try discriminate;
      intros [= <-]; left; split; try reflexivity; eexists; reflexivity.
  - destruct k; simpl; try discriminate.
    destruct (find _ params); intros [= <-]. right. now split.
Qed.

Lemma core_rules_filtered (params : list (node * scalar)) (n : node) :
  filtered_first_last n = true ->
  exists e, core_rules params n = Some (Raise e).
Proof.
  unfold core_rules, alt.
  destruct n; simpl; try discriminate.
  destruct n; simpl; try discriminate;
    destruct where_; simpl; try discriminate; intros _; eexists; reflexivity.
Qed.

Lemma core_rules_where_set (params : list (node * scalar)) (n m : node) :
  core_rules params n = Some (Ok m) ->
  where_set m = false /\ where_set n = false.
Proof.
  unfold core_rules, alt.
  destruct n; simpl; try discriminate;
    try (intros [= <-]; split; reflexivity).
  - destruct n; simpl; try discriminate;
      destruct where_; simpl; try discriminate;
      intros [= <-]; split; reflexivity.
  - destruct k; simpl; try discriminate.
    destruct (find _ params); intros [= <-]. split; reflexivity.
Qed.

Lemma replace_core_where_set (params : list (node * scalar)) (f f' : node) :
  replace_rule (core_rules params) f = Ok f' -> where_set f' = where_set f.
Proof.
  intros H. apply replace_rule_Ok_inv in H. destruct H as (cs & _ & H).
  destruct (core_rules params (recreate f cs)) as [res|] eqn:E.
  - subst res. apply core_rules_where_set in E. destruct E as [E1 E2].
    rewrite recreate_where_set in E2. congruence.
  - injection H as <-. apply recreate_where_set.
Qed.

Lemma recreate_filtered (params : list (node * scalar)) (n : node)
  (cs : list node) :
  sequence (map (replace_rule (core_rules params)) (children n)) = Ok cs ->
  filtered_first_last (recreate n cs) = filtered_first_last n.
Proof.
  intros H. apply sequence_Ok_inv in H. destruct H as (L & _ & H).
  destruct n; cbn [recreate];
    repeat match goal with
           | |- context [let (_, _) := ?e in _] => destruct e eqn:?
           end; try reflexivity.
  cbn [children] in H, L. destruct cs as [|c cs]; [discriminate L|].
  apply replace_core_where_set in H. simpl in Heqp. injection Heqp as <- _.
  exact H.
Qed.

Lemma sequence_Raise_inv {A B : Type} (f : A -> result B) (l : list A)
  (e : exn) :
  sequence (map f l) = Raise e -> exists c, In c l /\ f c = Raise e.
Proof.
  induction l as [|c l IH]; simpl; [discriminate|].
  destruct (f c) as [x|e0] eqn:E; simpl.
  - destruct (sequence (map f l)) as [xs|e1]; simpl; [discriminate|].
    intros [= <-]. destruct (IH eq_refl) as (c' & Hc' & E').
    exists c'. split; [now right | assumption].
  - intros [= <-]. exists c. split; [now left | assumption].
Qed.

Lemma replace_core_filtered (params : list (node * scalar)) (m : node) :
  filtered_first_last m = true ->
  exists e, replace_rule (core_rules params) m = Raise e.
Proof.
  intros F. destruct (replace_rule (core_rules params) m) as [g|e] eqn:E;
    [|now exists e].
  apply replace_rule_Ok_inv in E. destruct E as (cs & S_ & E).
  rewrite <- (recreate_filtered params m cs S_) in F.
  destruct (core_rules_filtered params _ F) as (e & R).
  rewrite R in E. discriminate.
Qed.

Lemma replace_core_raise_origin (params : list (node * scalar)) (n : node) :
  forall e, replace_rule (core_rules params) n = Raise e ->
  exists m, descends n m
            /\ ((filtered_first_last m = true
                 /\ exists msg, e = UnsupportedOperationError msg)
                \/ (is_kind KScalarParameter m = true /\ e = KeyError)).
Proof.
  induction n as [n IH] using node_children_ind. intros e H.
  rewrite replace_rule_eq in H.
  destruct (sequence (map (replace_rule (core_rules params)) (children n)))
    as [cs|e0] eqn:S_; simpl in H.
  - destruct (core_rules params (recreate n cs)) as [res|] eqn:R;
      [|discriminate].
    subst res. apply core_rules_raise in R.
    rewrite (recreate_filtered params n cs S_), recreate_is_kind in R.
    exists n. split; [apply descends_refl | exact R].
  - injection H as <-. apply sequence_Raise_inv in S_.
    destruct S_ as (c & Hc & E). destruct (IH c Hc e0 E) as (m & Hm & Q).
    exists m. split; [now apply descends_child with (c := c) | exact Q].
Qed.

Lemma replace_core_ok (params : list (node * scalar)) (n : node) :
  (forall m, descends n m ->
             filtered_first_last m = false
             /\ is_kind KScalarParameter m = false) ->
  exists g, replace_rule (core_rules params) n = Ok g.
Proof.
  intros H. destruct (replace_rule (core_rules params) n) as [g|e] eqn:E;
    [now exists g|].
  destruct (replace_core_raise_origin params n e E) as (m & Hm & Q).
  destruct (H m Hm) as [F K]. destruct Q as [[Q _]|[Q _]]; congruence.
Qed.

Lemma replace_rule_total (r : rule) :
  (forall n e, r n <> Some (Raise e)) ->
  forall n, exists g, replace_rule r n = Ok g.
Proof.
  intros Hr n. induction n as [n IH] using node_children_ind.
  rewrite replace_rule_eq.
  destruct (sequence_all_Ok (replace_rule r) (children n) IH) as (cs & ->).
  simpl. destruct (r (recreate n cs)) as [[g|e]|] eqn:E.
  - now exists g.
  - now destruct (Hr _ _ E).
  - now exists (recreate n cs).
Qed.

Lemma merge_select_select_no_raise (n : node) (e : exn) :
  merge_select_select n <> Some (Raise e).
Proof.
  intros H.
  assert (P : is_select_pair n = true)
    by (apply merge_select_select_match; congruence).
  destruct (merge_select_select_cases n P) as [E|(_ & _ & _ & E)];
    rewrite E in H; discriminate.
Qed.

Lemma recreate_is_Relation (n : node) (cs : list node) :
  is_Relation (recreate n cs) = is_Relation n.
Proof.
  pose proof (recreate_is_Value n cs) as H. unfold is_Value in H.
  destruct (is_Relation (recreate n cs)), (is_Relation n);
    simpl in H; congruence.
Qed.

Lemma replace_rule_class (r : rule) :
  (forall n m, r n = Some (Ok m) -> is_Relation m = is_Relation n) ->
  forall n g, replace_rule r n = Ok g -> is_Relation g = is_Relation n.
Proof.
  intros Hr n g H. apply replace_rule_Ok_inv in H.
  destruct H as (cs & _ & H).
  destruct (r (recreate n cs)) as [res|] eqn:E.
  - subst res. rewrite (Hr _ _ E). apply recreate_is_Relation.
  - injection H as <-. apply recreate_is_Relation.
Qed.

Lemma core_rules_class (params : list (node * scalar)) (n m : node) :
  core_rules params n = Some (Ok m) -> is_Relation m = is_Relation n.
Proof.
  unfold core_rules, alt.
  destruct n; simpl; try discriminate;
    try (intros [= <-]; reflexivity).
  - destruct n; simpl; try discriminate;
      destruct where_; simpl; try discriminate;
      intros [= <-]; reflexivity.
  - destruct k; simpl; try discriminate.
    destruct (find _ params); intros [= <-]. reflexivity.
Qed.

Lemma merge_select_select_class (n m : node) :
  merge_select_select n = Some (Ok m) -> is_Relation m = is_Relation n.
Proof.
  intros H.
  assert (P : is_select_pair n = true)
    by (apply merge_select_select_match; congruence).
  destruct (merge_select_select_cases n P) as [E|(_ & _ & _ & E)];
    rewrite E in H; injection H as <-; [reflexivity|].
  destruct n; try discriminate. reflexivity.
Qed.

Lemma extract_ctes_relation (root n : node) :
  In n (extract_ctes root) -> is_Relation n = true.
Proof.
  intros H. apply extract_ctes_In in H. destruct H as [_ [V|[C _]]].
  - now apply View_is_Relation.
  - now apply cte_types_is_Relation.
Qed.

Lemma wrap_ctes_class (simplified n : node) :
  is_Relation (wrap_ctes simplified n) = is_Relation n.
Proof.
  unfold wrap_ctes. rewrite replace_fn_eq. unfold wrap.
  destruct (mem n (extract_ctes simplified)) eqn:M.
  - apply mem_In, extract_ctes_relation in M. now rewrite M.
  - apply recreate_is_Relation.
Qed.

(** X10: with no backend rules, a window function over a First or Last
    that carries a [where] filter, anywhere in the graph, makes [sqlize]
    fail: the exception of a rule aborts the whole lowering. *)
Theorem sqlize_rejects_filtered_first_last (root m : node)
  (params : list (node * scalar)) :
  descends root m -> filtered_first_last m = true ->
  exists e, sqlize root params [] = Raise e.
Proof.
  intros Hd Hf. unfold sqlize.
  destruct (negb (is_Relation root)); [now exists AssertionError|]. simpl.
  destruct (replace_core_filtered params m Hf) as (e & E).
  destruct (replace_rule_raise_below (core_rules params) root m Hd e E)
    as (e' & ->).
  now exists e'.
Qed.

Lemma sqlize_rejects_filtered_first_last_witness :
  let w := WindowFunction (First (Field ex_R "x") (Some (Field ex_R "y")))
             "rows" None None [] [] in
  let root := Project (Project ex_R [("a", w)]) [("b", int_lit 1)] in
  descends root w /\ filtered_first_last w = true
  /\ exists e, sqlize root [] [] = Raise e.
Proof.
  intros w root.
  assert (Hd : descends root w)
    by (apply descends_by_bfs; vm_compute; reflexivity).
  split; [exact Hd|]. split; [reflexivity|].
  exact (sqlize_rejects_filtered_first_last root w [] Hd eq_refl).
Defined.

Lemma all_below_by_bfs (P : node -> bool) (g : node) :
  forallb P (nodes (from_bfs [g] no_filter)) = true -> all_below P g.
Proof.
  intros H m Hm. rewrite forallb_forall in H. apply H.
  now apply from_bfs_nodes.
Qed.

(** X11: with no backend rules and no scalar parameter in the graph,
    [sqlize] fails in two ways only: with [AssertionError] when the root is
    not a relation, and with [UnsupportedOperationError] on a relation
    whose graph holds a window function over a First or Last that carries a
    [where] filter. *)
Theorem sqlize_failure_causes (root : node) (params : list (node * scalar))
  (e : exn) :
  (forall m, descends root m -> is_kind KScalarParameter m = false) ->
  sqlize root params [] = Raise e ->
  (e = AssertionError /\ is_Relation root = false)
  \/ (is_Relation root = true
      /\ exists msg m, e = UnsupportedOperationError msg
                       /\ descends root m /\ filtered_first_last m = true).
Proof.
  intros Hp. unfold sqlize. destruct (is_Relation root) eqn:Rel; simpl.
  - destruct (replace_rule (core_rules params) root) as [sqlized|e0] eqn:C;
      simpl.
    + destruct (replace_rule_total merge_select_select
                  merge_select_select_no_raise sqlized) as (s & ->).
      simpl. discriminate.
    + intros [= <-]. right. split; [reflexivity|].
      destruct (replace_core_raise_origin params root e0 C)
        as (m & Hm & [[F (msg & ->)]|[K ->]]).
      * now exists msg, m.
      * rewrite (Hp m Hm) in K. discriminate.
  - intros [= <-]. now left.
Qed.

Lemma sqlize_failure_causes_witness :
  let w := WindowFunction (Last (Field ex_R "x") (Some (Field ex_R "y")))
             "rows" None None [] [] in
  let root := Project ex_R [("a", w)] in
  let e := UnsupportedOperationError
             "`last` with `where` is unsupported in a window function" in
  (forall m, descends root m -> is_kind KScalarParameter m = false)
  /\ sqlize root [] [] = Raise e
  /\ is_Relation root = true
  /\ exists msg m, e = UnsupportedOperationError msg
                   /\ descends root m /\ filtered_first_last m = true.
Proof.
  intros w root e.
  assert (Hp : forall m, descends root m ->
                         is_kind KScalarParameter m = false).
  { intros m Hm.
    apply (all_below_by_bfs (fun m => negb (is_kind KScalarParameter m)))
      in Hm; [now apply negb_true_iff in Hm | vm_compute; reflexivity]. }
  assert (H : sqlize root [] [] = Raise e) by (vm_compute; reflexivity).
  split; [exact Hp|]. split; [exact H|].
  destruct (sqlize_failure_causes root [] e Hp H) as [[E _]|R];
    [discriminate E | exact R].
Defined.

(** X12: with no backend rules, [sqlize] succeeds on every relation whose
    graph holds no scalar parameter and no window function over a First or
    Last with a [where] filter, and what it returns is a relation. *)
Theorem sqlize_succeeds (root : node) (params : list (node * scalar)) :
  is_Relation root = true ->
  (forall m, descends root m ->
             filtered_first_last m = false
             /\ is_kind KScalarParameter m = false) ->
  exists g ctes,
    sqlize root params [] = Ok (g, ctes) /\ is_Relation g = true.
Proof.
  intros Rel H. unfold sqlize. rewrite Rel. simpl.
  destruct (replace_core_ok params root H) as (sqlized & C). rewrite C.
  simpl.
  destruct (replace_rule_total merge_select_select
              merge_select_select_no_raise sqlized) as (s & M).
  rewrite M. simpl. do 2 eexists. split; [reflexivity|].
  fold (wrap_ctes s s). rewrite wrap_ctes_class.
  rewrite (replace_rule_class merge_select_select
             merge_select_select_class sqlized s M).
  rewrite (replace_rule_class (core_rules params)
             (core_rules_class params) root sqlized C).
  exact Rel.
Qed.

Lemma clean_by_bfs (root : node) :
  forallb (fun m => negb (filtered_first_last m)
                    && negb (is_kind KScalarParameter m))
          (nodes (from_bfs [root] no_filter)) = true ->
  forall m, descends root m ->
            filtered_first_last m = false
            /\ is_kind KScalarParameter m = false.
Proof.
  intros H m Hm. rewrite forallb_forall in H.
  apply from_bfs_nodes in Hm. specialize (H m Hm).
  apply andb_true_iff in H. destruct H as [H1 H2].
  now rewrite negb_true_iff in H1, H2.
Qed.

Lemma sqlize_succeeds_witness :
  is_Relation ex_window = true
  /\ (forall m, descends ex_window m ->
                filtered_first_last m = false
                /\ is_kind KScalarParameter m = false)
  /\ exists g ctes,
       sqlize ex_window [] [] = Ok (g, ctes) /\ is_Relation g = true.
Proof.
  assert (H : forall m, descends ex_window m ->
                filtered_first_last m = false
                /\ is_kind KScalarParameter m = false)
    by (apply clean_by_bfs; vm_compute; reflexivity).
  split; [reflexivity|]. split; [exact H|].
  exact (sqlize_succeeds ex_window [] eq_refl H).
Defined.

(** *** Project, Filter and Sort do not survive the lowering *)

Lemma all_below_intro (P : node -> bool) (g : node) :
  P g = true -> (forall c, In c (children g) -> all_below P c) ->
  all_below P g.
Proof.
  intros Hg Hc m Hm. destruct (descends_inv g m Hm) as [->|(c & Hin & Hd)];
    [assumption | now apply (Hc c Hin)].
Qed.

Lemma all_below_child (P : node -> bool) (g c : node) :
  all_below P g -> In c (children g) -> all_below P c.
Proof.
  intros H Hc m Hm. apply H. now apply descends_child with (c := c).
Qed.

Lemma all_below_head (P : node -> bool) (g : node) :
  all_below P g -> P g = true.
Proof. intros H. apply H, descends_refl. Qed.

Lemma all_below_recreate (P : node -> bool) (n : node) (cs : list node) :
  P (recreate n cs) = true ->
  length cs = length (children n) ->
  (forall x, In x cs -> all_below P x) ->
  all_below P (recreate n cs).
Proof.
  intros Hp L H. apply all_below_intro; [assumption|].
  rewrite children_recreate by assumption. exact H.
Qed.

Lemma lowered_head_recreate (n : node) (cs : list node) :
  lowered_head (recreate n cs) = lowered_head n.
Proof. unfold lowered_head. now rewrite recreate_is_high_level. Qed.

(** A rewriting pass keeps a property of all nodes when the rule does. *)
Lemma replace_rule_below (P Q : node -> bool) (r : rule) :
  (forall n cs, length cs = length (children n) ->
                Q (recreate n cs) = Q n) ->
  (forall rec, Q rec = true -> r rec = None -> P rec = true) ->
  (forall rec g, Q rec = true ->
                 (forall x, In x (children rec) -> all_below P x) ->
                 r rec = Some (Ok g) -> all_below P g) ->
  forall n g, all_below Q n -> replace_rule r n = Ok g -> all_below P g.
Proof.
  intros HQ Hnone Hsome n. induction n as [n IH] using node_children_ind.
  intros g Hn H. apply replace_rule_Ok_inv in H.
  destruct H as (cs & S_ & H). apply sequence_Ok_inv in S_.
  destruct S_ as (L & S_ & _).
  assert (Hcs : forall x, In x cs -> all_below P x).
  { intros x Hx. destruct (S_ x Hx) as (c & Hc & E).
    apply (IH c Hc x); [|assumption]. now apply all_below_child with (g := n). }
  assert (Hq : Q (recreate n cs) = true)
    by (rewrite HQ by exact L; now apply all_below_head).
  destruct (r (recreate n cs)) as [res|] eqn:E.
  - subst res. apply (Hsome _ g Hq); [|assumption].
    now rewrite children_recreate.
  - injection H as <-. apply all_below_recreate; auto.
Qed.

Lemma all_below_Field (P : node -> bool) (p : node) (k : string) :
  P (Field p k) = true -> all_below P p -> all_below P (Field p k).
Proof.
  intros Hp H. apply all_below_intro; [assumption|].
  intros c [<-|[]]. assumption.
Qed.

Lemma core_rules_none_lowered (params : list (node * scalar)) (n : node) :
  core_rules params n = None -> lowered_head n = true.
Proof. unfold core_rules, alt. destruct n; simpl; try discriminate; reflexivity. Qed.

(** What the core rules build keeps a property of all nodes that holds of
    every node other than a window function or a Project, Filter or Sort,
    and that does not depend on the function of a window function. *)
Lemma core_rules_below (P : node -> bool) (params : list (node * scalar))
  (rec g : node) :
  (forall n, is_WindowFunction n = false -> is_high_level n = false ->
             P n = true) ->
  (forall f f' how s e gb o,
     P (WindowFunction f how s e gb o) = P (WindowFunction f' how s e gb o)) ->
  (is_WindowFunction rec = true -> P rec = true) ->
  (forall x, In x (children rec) -> all_below P x) ->
  core_rules params rec = Some (Ok g) -> all_below P g.
Proof.
  intros HP HW Hrec H. unfold core_rules, alt.
  destruct rec; simpl; try discriminate.
  - (* Project *)
    intros [= <-]. apply all_below_intro; [now apply HP|]. simpl.
    rewrite app_nil_r. exact H.
  - (* Filter *)
    intros [= <-]. apply all_below_intro; [now apply HP|]. simpl.
    rewrite app_nil_r. intros c [<-|Hc]; [apply H; now left|].
    apply in_app_or in Hc. destruct Hc as [Hc|Hc]; [|apply H; now right].
    rewrite map_map in Hc. apply in_map_iff in Hc.
    destruct Hc as (k & <- & _). simpl.
    apply all_below_Field; [now apply HP | apply H; now left].
  - (* Sort *)
    intros [= <-]. apply all_below_intro; [now apply HP|]. simpl.
    intros c [<-|Hc]; [apply H; now left|].
    apply in_app_or in Hc. destruct Hc as [Hc|Hc]; [|apply H; now right].
    rewrite map_map in Hc. apply in_map_iff in Hc.
    destruct Hc as (k & <- & _). simpl.
    apply all_below_Field; [now apply HP | apply H; now left].
  - (* WindowFunction *)
    specialize (Hrec eq_refl).
    destruct rec; simpl; try discriminate;
      destruct where_; simpl; try discriminate;
      intros [= <-];
      (apply all_below_intro;
       [erewrite HW; exact Hrec|]); simpl;
      (intros c [<-|Hc]; [|apply H; simpl; now right]);
      (apply all_below_intro; [now apply HP|]); simpl;
      intros c [<-|[]];
      (eapply all_below_child; [apply H; simpl; left; reflexivity|]);
      simpl; now left.
  - (* scalar parameter *)
    destruct k; simpl; try discriminate.
    destruct (find _ params); intros [= <-].
    apply all_below_intro; [now apply HP|]. intros c [].
Qed.

Lemma reach_child (filt : node -> bool) (v c w : node) :
  filt v = true -> In c (children v) -> reach filt [c] w ->
  reach filt [v] w.
Proof.
  intros Hv Hc H. induction H as [r [<-|[]] Hf | m c' Hm IH Hin Hf].
  - apply reach_step with (m := v);
      [apply reach_root; [now left | assumption] | assumption | assumption].
  - now apply reach_step with (m := m).
Qed.

Lemma reach_roots (filt : node -> bool) (r : node) (roots : list node)
  (w : node) :
  In r roots -> reach filt [r] w -> reach filt roots w.
Proof.
  intros Hr H. induction H as [r' [<-|[]] Hf | m c Hm IH Hin Hf].
  - now apply reach_root.
  - now apply reach_step with (m := m).
Qed.

(** A substitution keeps a property of all nodes that reconstruction keeps
    for every node other than a window function, when it rebuilds no window
    function. *)
Lemma replace_mapping_below (P : node -> bool) (subs : list (node * node))
  (filt : node -> bool) :
  (forall n cs, is_WindowFunction n = false ->
                length cs = length (children n) ->
                P (recreate n cs) = P n) ->
  (forall k e, In (k, e) subs -> all_below P e) ->
  forall v, (forall w, reach filt [v] w -> is_WindowFunction w = false) ->
            all_below P v -> all_below P (replace_mapping subs filt v).
Proof.
  intros HP Hs v. induction v as [v IH] using node_children_ind.
  intros Hw Hv.
  destruct (filt v) eqn:F; [|now rewrite replace_mapping_excluded].
  rewrite replace_mapping_eq by assumption.
  destruct (dict_get v subs) as [e|] eqn:G.
  - apply dict_get_Some in G. now apply (Hs v e).
  - apply all_below_recreate.
    + rewrite HP; [now apply all_below_head | | now rewrite length_map].
      apply Hw. apply reach_root; [now left | assumption].
    + now rewrite length_map.
    + intros x Hx. apply in_map_iff in Hx. destruct Hx as (c & <- & Hc).
      apply IH; [assumption | | now apply all_below_child with (g := v)].
      intros w Hr. apply Hw. now apply reach_child with (c := c).
Qed.

Lemma all_below_In_Select (P : node -> bool) (p : node)
  (sels : list (string * node)) (ps ks : list node) :
  P (Select p sels ps ks) = true ->
  all_below P p ->
  (forall kv, In kv sels -> all_below P (snd kv)) ->
  (forall x, In x ps -> all_below P x) ->
  (forall x, In x ks -> all_below P x) ->
  all_below P (Select p sels ps ks).
Proof.
  intros Hp H0 H1 H2 H3. apply all_below_intro; [assumption|]. simpl.
  intros c [<-|Hc]; [assumption|].
  apply in_app_or in Hc. destruct Hc as [Hc|Hc].
  - apply in_map_iff in Hc. destruct Hc as (kv & <- & Hkv). now apply H1.
  - apply in_app_or in Hc. destruct Hc as [Hc|Hc]; auto.
Qed.

Lemma blocking_window (w : node) :
  blocking w = false -> is_WindowFunction w = false.
Proof. unfold blocking. now destruct (is_WindowFunction w). Qed.

Lemma merged_select_below (P : node -> bool) (rec : node) :
  (forall n cs, is_WindowFunction n = false ->
                length cs = length (children n) ->
                P (recreate n cs) = P n) ->
  (forall p sels ps ks, P (Select p sels ps ks) = true) ->
  is_select_pair rec = true -> unblocked rec ->
  (forall x, In x (children rec) -> all_below P x) ->
  all_below P (merged_select rec).
Proof.
  intros HP HS.
  destruct rec as [| | | |p sels ps ks| | | | | | | | | |]; try discriminate.
  destruct p as [| | | |pp sels1 ps1 ks1| | | | | | | | | |]; try discriminate.
  intros _ Hu H.
  set (inner := Select pp sels1 ps1 ks1) in *.
  assert (Hi : all_below P inner) by (apply H; now left).
  assert (Hsub : forall k e, In (k, e) (field_subs inner) ->
                             all_below P e).
  { intros k e Hin. apply field_subs_value in Hin.
    apply (all_below_child _ inner); [assumption|].
    simpl. right. apply in_or_app. now left. }
  assert (Hrm : forall v, In v (children (Select inner sels ps ks)) ->
                  all_below P
                    (replace_mapping (field_subs inner) is_Value v)).
  { intros v Hv. apply replace_mapping_below;
      [exact HP | exact Hsub | | now apply H].
    intros w Hw. apply blocking_window, Hu. unfold value_below.
    now apply reach_roots with (r := v). }
  pose proof (merged_select_eq pp sels1 sels ps1 ks1 ps ks) as Q.
  cbv zeta in Q. fold inner in Q. rewrite Q.
  apply all_below_In_Select; [apply HS| | | |].
  - apply (all_below_child _ inner); [assumption | now left].
  - intros kv Hkv. apply in_map_iff in Hkv. destruct Hkv as (kv0 & <- & Hin).
    simpl. apply Hrm. simpl. right. apply in_or_app. left.
    now apply in_map.
  - intros x Hx. rewrite unique_dedup in Hx.
    apply (proj1 (dedup_first_In _ _)) in Hx.
    apply in_app_or in Hx. destruct Hx as [Hx|Hx].
    + apply (all_below_child _ inner); [assumption|]. simpl. right.
      apply in_or_app. right. apply in_or_app. now left.
    + apply in_map_iff in Hx. destruct Hx as (x0 & <- & Hin). apply Hrm.
      simpl. right. apply in_or_app. right. apply in_or_app.
      now left.
  - intros x Hx. apply in_app_or in Hx. destruct Hx as [Hx|Hx].
    + apply in_map_iff in Hx. destruct Hx as (x0 & <- & Hin). apply Hrm.
      simpl. right. apply in_or_app. right. apply in_or_app.
      now right.
    + apply filter_In in Hx. destruct Hx as [Hx _].
      apply (all_below_child _ inner); [assumption|]. simpl. right.
      apply in_or_app. right. apply in_or_app. now right.
Qed.

Lemma merge_select_select_below (P : node -> bool) (rec g : node) :
  (forall n cs, is_WindowFunction n = false ->
                length cs = length (children n) ->
                P (recreate n cs) = P n) ->
  (forall p sels ps ks, P (Select p sels ps ks) = true) ->
  P rec = true ->
  (forall x, In x (children rec) -> all_below P x) ->
  merge_select_select rec = Some (Ok g) -> all_below P g.
Proof.
  intros HP HS Hh H E.
  assert (S_ : is_select_pair rec = true)
    by (apply merge_select_select_match; congruence).
  destruct (merge_select_select_cases rec S_) as [E'|(Hu & _ & _ & E')];
    rewrite E' in E; injection E as <-.
  - now apply all_below_intro.
  - now apply merged_select_below.
Qed.

(** The bodies that [sqlize] returns are parts of the graph it returns. *)
Lemma sqlize_ctes_below (root : node) (params : list (node * scalar))
  (rewrites : list rule) (g : node) (ctes : list node) (b m : node) :
  sqlize root params rewrites = Ok (g, ctes) ->
  In b ctes -> descends b m -> descends g m.
Proof.
  intros H Hb Hm.
  destruct (sqlize_stages root params rewrites g ctes H) as (s0 & _ & ->).
  apply in_rev, in_map_iff in Hb. destruct Hb as (c & <- & Hc).
  unfold find_nodes in Hc. apply filter_In in Hc. destruct Hc as [Hc Hcte].
  apply from_bfs_nodes in Hc. destruct c; try discriminate. simpl in Hm.
  clear - Hc Hm.
  assert (T : forall x y z, descends x y -> descends y z -> descends x z).
  { intros x y z Hxy Hyz.
    induction Hyz as [r [<-|[]] _ | m' c' Hm' IH Hin _]; [assumption|].
    apply reach_step with (m := m'); [assumption | assumption | reflexivity]. }
  apply (T g (CTE c) m); [assumption|].
  apply descends_child with (c := c); [now left | assumption].
Qed.

Lemma wrap_below (P : node -> bool) (ctes : list node) :
  (forall n cs, length cs = length (children n) ->
                P (recreate n cs) = P n) ->
  (forall n, P (CTE n) = true) ->
  forall n, all_below P n -> all_below P (replace_fn (wrap ctes) n).
Proof.
  intros HP HC n. induction n as [n IH] using node_children_ind. intros Hn.
  rewrite replace_fn_eq. unfold wrap.
  assert (N : all_below P
                (recreate n (map (replace_fn (wrap ctes)) (children n)))).
  { apply all_below_recreate.
    - rewrite HP by (now rewrite length_map). now apply all_below_head.
    - now rewrite length_map.
    - intros x Hx. apply in_map_iff in Hx. destruct Hx as (c & <- & Hc).
      apply IH; [assumption|]. now apply all_below_child with (g := n). }
  destruct (mem n ctes); [|assumption].
  apply all_below_intro; [apply HC|]. intros c [<-|[]]. assumption.
Qed.

(** X13: whatever backend rules are given, the graph and the CTE bodies
    that [sqlize] returns hold no Project, Filter or Sort node: the core
    rules lower every one of them, and neither the Select merge nor the CTE
    wrapping brings one back. *)
Theorem sqlize_lowers_everything (root : node)
  (params : list (node * scalar)) (rewrites : list rule)
  (g : node) (ctes : list node) :
  sqlize root params rewrites = Ok (g, ctes) ->
  (forall m, descends g m -> is_high_level m = false)
  /\ (forall b m, In b ctes -> descends b m -> is_high_level m = false).
Proof.
  intros H.
  assert (G : all_below lowered_head g).
  { revert H. unfold sqlize.
    destruct (negb (is_Relation root)); [discriminate|].
    destruct (match rewrites with
              | [] => Ok root
              | r :: rs => replace_rule (fold_left alt rs r) root
              end) as [n1|]; [|discriminate]. simpl.
    destruct (replace_rule (core_rules params) n1) as [sqlized|] eqn:C;
      [|discriminate]. simpl.
    destruct (replace_rule merge_select_select sqlized) as [s|] eqn:M;
      [|discriminate]. simpl.
    intros [= <- _].
    assert (C' : all_below lowered_head sqlized).
    { refine (replace_rule_below lowered_head (fun _ => true)
                (core_rules params) _ _ _ n1 sqlized _ C).
      - reflexivity.
      - intros rec _. apply core_rules_none_lowered.
      - intros rec g0 _ Hc E.
        refine (core_rules_below lowered_head params rec g0 _ _ _ Hc E).
        + intros x _ Hx. unfold lowered_head. now rewrite Hx.
        + reflexivity.
        + now destruct rec.
      - intros m _. reflexivity. }
    assert (M' : all_below lowered_head s).
    { refine (replace_rule_below lowered_head lowered_head
                merge_select_select _ _ _ sqlized s C' M).
      - intros x cs _. apply lowered_head_recreate.
      - intros rec Hq _. exact Hq.
      - intros rec g0 Hq Hc E.
        refine (merge_select_select_below lowered_head rec g0 _ _ Hq Hc E);
          [intros x cs _ _; apply lowered_head_recreate | reflexivity]. }
    apply wrap_below;
      [intros x cs _; apply lowered_head_recreate | reflexivity
      | exact M']. }
  assert (G' : forall m, descends g m -> is_high_level m = false).
  { intros m Hm. apply G in Hm. unfold lowered_head in Hm.
    now apply negb_true_iff in Hm. }
  split; [exact G'|].
  intros b m Hb Hm. apply G'.
  exact (sqlize_ctes_below root params rewrites g ctes b m H Hb Hm).
Qed.

Lemma sqlize_lowers_everything_witness :
  sqlize ex_chain [] [] = Ok (Select ex_inner [("c", int_lit 1)] [] [], [])
  /\ forall m, descends (Select ex_inner [("c", int_lit 1)] [] []) m ->
               is_high_level m = false.
Proof.
  assert (H : sqlize ex_chain [] []
              = Ok (Select ex_inner [("c", int_lit 1)] [] [], []))
    by (vm_compute; reflexivity).
  split; [exact H|].
  exact (proj1 (sqlize_lowers_everything ex_chain [] [] _ _ H)).
Defined.

(** ** Sampling and merging *)

Lemma merge_blocked_by (n inner b : node) :
  is_select_pair n = true -> parent_of n = inner -> blocking b = true ->
  value_below n b \/ value_below inner b ->
  merge_select_select n = Some (Ok n).
Proof.
  destruct n as [| | | |p sels ps ks| | | | | | | | | |]; try discriminate.
  destruct p as [| | | |pp sels1 ps1 ks1| | | | | | | | | |]; try discriminate.
  intros _ <- Hb [H|H]; unfold merge_select_select; cbn [parent_of] in *.
  - now rewrite (find_below_truthy blocking is_Value _ b H Hb).
  - rewrite (find_below_truthy blocking is_Value _ b H Hb).
    now destruct (truthy _).
Qed.

Lemma sample_condition_below (p : node) (sels : list (string * node))
  (x : node) (ks : list node) :
  value_below (Select p sels [LessEqual RandomScalar x] ks) RandomScalar.
Proof.
  unfold value_below.
  apply reach_step with (m := LessEqual RandomScalar x);
    [|now left | reflexivity].
  apply reach_root; [|reflexivity]. simpl. right.
  apply in_or_app. right. now left.
Qed.

(** X14: a sample lowered by [rewrite_sample_as_filter] and then by
    [filter_to_select] is a Select whose predicate draws a random number;
    the Select merge never touches it, neither as the inner Select of a
    pair nor as the outer one: the sampling condition is never moved. *)
Theorem sample_is_never_merged :
  forall (p : node) (fraction : Q) (method : string),
    let cond := LessEqual RandomScalar (Literal (SFloat fraction) "float64") in
    let lowered := Select p (values_of (Filter p [cond])) [cond] [] in
    rewrite_sample_as_filter (Sample p fraction method None)
    = Some (Ok (Filter p [cond]))
    /\ filter_to_select (Filter p [cond]) = Some (Ok lowered)
    /\ (forall sel2 pred2 sort2,
          merge_select_select (Select lowered sel2 pred2 sort2)
          = Some (Ok (Select lowered sel2 pred2 sort2)))
    /\ (is_Select p = true ->
        merge_select_select lowered = Some (Ok lowered)).
Proof.
  intros p fraction method cond lowered.
  split; [reflexivity|]. split; [reflexivity|]. split.
  - intros sel2 pred2 sort2.
    apply (merge_blocked_by (Select lowered sel2 pred2 sort2) lowered
             RandomScalar); [reflexivity | reflexivity | reflexivity |].
    right. apply sample_condition_below.
  - intros Hp. destruct p; try discriminate.
    apply (merge_blocked_by lowered (parent_of lowered) RandomScalar);
      [reflexivity | reflexivity | reflexivity |].
    left. apply sample_condition_below.
Qed.

(** ** The lowering rules do not overlap *)

(** X15: no node is matched by more than one of [project_to_select],
    [filter_to_select], [sort_to_select] and [first_to_firstvalue], so the
    order in which [sqlize] alternates them makes no difference. *)
Theorem lowering_rules_exclusive (n : node) :
  alt project_to_select
    (alt filter_to_select (alt sort_to_select first_to_firstvalue)) n
  = alt first_to_firstvalue
      (alt sort_to_select (alt filter_to_select project_to_select)) n
  /\ (project_to_select n <> None ->
      filter_to_select n = None /\ sort_to_select n = None
      /\ first_to_firstvalue n = None)
  /\ (filter_to_select n <> None ->
      sort_to_select n = None /\ first_to_firstvalue n = None)
  /\ (sort_to_select n <> None -> first_to_firstvalue n = None).
Proof.
  unfold alt. destruct n; simpl; repeat split; try congruence;
    try (intros H; now destruct H);
    destruct n; simpl; try reflexivity; destruct where_; reflexivity.
Qed.

(** ** Window frame rewrites *)

(** The result of [exclude_unsupported_window_frame_from_ops] is matched
    again and returned as it is. *)
Lemma exclude_unsupported_window_frame_from_ops_fixed
  (NULL zero n m : node) :
  exclude_unsupported_window_frame_from_ops NULL zero n = Some (Ok m) ->
  exclude_unsupported_window_frame_from_ops NULL zero m = Some (Ok m)
  /\ exists f how e g o,
       n = WindowFunction f how None e g o
       /\ m = WindowFunction f how None (Some zero) g (order_by_or o [NULL]).
Proof.
  destruct n; try discriminate. destruct start; try discriminate.
  cbn [exclude_unsupported_window_frame_from_ops].
  destruct (is_class _ n) eqn:C; [|discriminate].
  intros [= <-]. cbn [copy_frame exclude_unsupported_window_frame_from_ops].
  rewrite C. split.
  - destruct order_by; reflexivity.
  - do 5 eexists. split; reflexivity.
Qed.

Lemma no_window_fixed (r : rule) (x : node) :
  (forall m, is_WindowFunction m = false -> r m = None) ->
  all_below no_window x -> all_below (rule_fixesb r) x.
Proof.
  intros Hr H m Hm. apply H in Hm. unfold no_window in Hm.
  apply negb_true_iff in Hm. unfold rule_fixesb. now rewrite (Hr m Hm).
Qed.

(** X17: rewriting a whole graph with
    [exclude_unsupported_window_frame_from_ops] always succeeds, and it is
    idempotent: rewriting the result once more returns it unchanged (the
    constants NULL and [0] hold no window function). *)
Theorem exclude_unsupported_window_frame_from_ops_idempotent
  (NULL zero n : node) :
  all_below no_window NULL -> all_below no_window zero ->
  exists g,
    replace_rule (exclude_unsupported_window_frame_from_ops NULL zero) n
    = Ok g
    /\ replace_rule (exclude_unsupported_window_frame_from_ops NULL zero) g
       = Ok g.
Proof.
  intros HN HZ.
  set (r := exclude_unsupported_window_frame_from_ops NULL zero).
  assert (Hr : forall m, is_WindowFunction m = false -> r m = None)
    by (intros m Hm; destruct m; try reflexivity; discriminate Hm).
  assert (T : forall m e, r m <> Some (Raise e)).
  { intros m e. unfold r. destruct m; try discriminate.
    destruct start; try discriminate.
    cbn [exclude_unsupported_window_frame_from_ops].
    destruct (is_class _ m); discriminate. }
  destruct (replace_rule_total r T n) as (g & H). exists g.
  split; [exact H|].
  apply replace_rule_fixed. intros m Hm. apply rule_fixesb_true.
  revert m Hm. change (all_below (rule_fixesb r) g).
  refine (replace_rule_below (rule_fixesb r) (fun _ => true) r _ _ _ n g _ H).
  - reflexivity.
  - intros rec _ E. unfold rule_fixesb. now rewrite E.
  - intros rec g0 _ Hc E.
    destruct (exclude_unsupported_window_frame_from_ops_fixed
                NULL zero rec g0 E) as (F & f & how & e & gb & o & -> & ->).
    apply all_below_intro.
    + unfold rule_fixesb. fold r in F. rewrite F. apply node_eqb_refl.
    + cbn [children opt_list app] in *. intros c [<-|Hin].
      * apply Hc. now left.
      * destruct Hin as [<-|Hin]; [now apply no_window_fixed|].
        assert (Hgo : forall x, In x (gb ++ o) -> all_below (rule_fixesb r) x).
        { intros x Hx. apply Hc. right. apply in_or_app. now right. }
        apply in_app_or in Hin. destruct Hin as [Hin|Hin].
        -- apply Hgo. apply in_or_app. now left.
        -- destruct o as [|o1 o]; cbn [order_by_or] in Hin.
           ++ destruct Hin as [<-|[]]. now apply no_window_fixed.
           ++ apply Hgo. apply in_or_app. now right.
  - intros m _. reflexivity.
Qed.

Lemma exclude_unsupported_window_frame_from_ops_idempotent_witness :
  let null := Literal SNone "null" in
  let zero := Literal (SInt 0) "int8" in
  let lag := Op KValue "Lag" [] [Field ex_R "x"] in
  let n := Project ex_R
             [("a", WindowFunction lag "rows" None None [] [])] in
  let g := Project ex_R
             [("a", WindowFunction lag "rows" None (Some zero) [] [null])] in
  all_below no_window null /\ all_below no_window zero
  /\ replace_rule (exclude_unsupported_window_frame_from_ops null zero) n
     = Ok g
  /\ exists g',
       replace_rule (exclude_unsupported_window_frame_from_ops null zero) n
       = Ok g'
       /\ replace_rule (exclude_unsupported_window_frame_from_ops null zero)
            g' = Ok g'.
Proof.
  intros null zero lag n g.
  assert (HN : all_below no_window null)
    by (apply all_below_by_bfs; vm_compute; reflexivity).
  assert (HZ : all_below no_window zero)
    by (apply all_below_by_bfs; vm_compute; reflexivity).
  split; [exact HN|]. split; [exact HZ|].
  split; [vm_compute; reflexivity|].
  exact (exclude_unsupported_window_frame_from_ops_idempotent
           null zero n HN HZ).
Defined.

(** X18: [exclude_unsupported_window_frame_from_row_number] is not
    idempotent: its result is the difference of a window function and [1],
    which the rule itself does not match, but that window function, with
    the function, frame kind, grouping and ordering keys of the input, is
    matched again and rewritten to the same difference, so that rewriting
    the result once more subtracts [1] a second time. *)
Theorem exclude_unsupported_window_frame_from_row_number_again
  (zero one n m : node) :
  exclude_unsupported_window_frame_from_row_number zero one n
  = Some (Ok m) ->
  exists f how s e g o,
    n = WindowFunction f how s e g o
    /\ let w := WindowFunction f how None (Some zero) g o in
       m = Subtract w one
       /\ exclude_unsupported_window_frame_from_row_number zero one m = None
       /\ exclude_unsupported_window_frame_from_row_number zero one w
          = Some (Ok (Subtract w one)).
Proof.
  destruct n; try discriminate.
  cbn [exclude_unsupported_window_frame_from_row_number].
  destruct (is_class _ n) eqn:C; [|discriminate].
  intros [= <-]. do 6 eexists. split; [reflexivity|].
  cbn zeta. split; [reflexivity|]. split; [reflexivity|].
  cbn [copy_frame exclude_unsupported_window_frame_from_row_number].
  now rewrite C.
Qed.

Lemma exclude_unsupported_window_frame_from_row_number_again_witness :
  let zero := Literal (SInt 0) "int8" in
  let one := Literal (SInt 1) "int8" in
  let n := WindowFunction (Op KValue "RowNumber" [] []) "rows"
             None None [] [SortKey (Field ex_R "x") true] in
  let w := WindowFunction (Op KValue "RowNumber" [] []) "rows"
             None (Some zero) [] [SortKey (Field ex_R "x") true] in
  exclude_unsupported_window_frame_from_row_number zero one n
  = Some (Ok (Subtract w one))
  /\ exclude_unsupported_window_frame_from_row_number zero one w
     = Some (Ok (Subtract w one)).
Proof.
  intros zero one n w.
  assert (H : exclude_unsupported_window_frame_from_row_number zero one n
              = Some (Ok (Subtract w one))) by reflexivity.
  split; [exact H|].
  destruct (exclude_unsupported_window_frame_from_row_number_again
              zero one n (Subtract w one) H)
    as (f & how & s & e & g & o & En & _ & _ & Hw).
  injection En as <- <- _ _ <- <-. exact Hw.
Defined.

(** ** The core lowering pass is idempotent *)

Lemma core_rules_no_match_below (params : list (node * scalar))
  (rec g : node) :
  (forall x, In x (children rec) -> all_below (no_core_match params) x) ->
  core_rules params rec = Some (Ok g) ->
  all_below (no_core_match params) g.
Proof.
  intros H. unfold core_rules, alt.
  destruct rec; simpl; try discriminate.
  - intros [= <-]. apply all_below_intro; [reflexivity|]. simpl.
    rewrite app_nil_r. exact H.
  - intros [= <-]. apply all_below_intro; [reflexivity|]. simpl.
    rewrite app_nil_r. intros c [<-|Hc]; [apply H; now left|].
    apply in_app_or in Hc. destruct Hc as [Hc|Hc]; [|apply H; now right].
    rewrite map_map in Hc. apply in_map_iff in Hc.
    destruct Hc as (k & <- & _). simpl.
    apply all_below_Field; [reflexivity | apply H; now left].
  - intros [= <-]. apply all_below_intro; [reflexivity|]. simpl.
    intros c [<-|Hc]; [apply H; now left|].
    apply in_app_or in Hc. destruct Hc as [Hc|Hc]; [|apply H; now right].
    rewrite map_map in Hc. apply in_map_iff in Hc.
    destruct Hc as (k & <- & _). simpl.
    apply all_below_Field; [reflexivity | apply H; now left].
  - destruct rec; simpl; try discriminate;
      destruct where_; simpl; try discriminate;
      intros [= <-]; (apply all_below_intro; [reflexivity|]); simpl;
      (intros c [<-|Hc]; [|apply H; simpl; now right]);
      (apply all_below_intro; [reflexivity|]); simpl;
      intros c [<-|[]];
      (eapply all_below_child; [apply H; simpl; left; reflexivity|]);
      simpl; now left.
  - destruct k; simpl; try discriminate.
    destruct (find _ params); intros [= <-].
    apply all_below_intro; [reflexivity|]. intros c [].
Qed.

(** X19: the core lowering pass of [sqlize] is idempotent: in what it
    returns no core rule matches any node, so lowering it again with the
    same parameters returns it unchanged. *)
Theorem core_lowering_idempotent (params : list (node * scalar))
  (n g : node) :
  replace_rule (core_rules params) n = Ok g ->
  (forall m, descends g m -> core_rules params m = None)
  /\ replace_rule (core_rules params) g = Ok g.
Proof.
  intros H.
  assert (B : all_below (no_core_match params) g).
  { refine (replace_rule_below (no_core_match params) (fun _ => true)
              (core_rules params) _ _ _ n g _ H).
    - reflexivity.
    - intros rec _ E. unfold no_core_match. now rewrite E.
    - intros rec g0 _ Hc E.
      now apply core_rules_no_match_below with (rec := rec).
    - intros m _. reflexivity. }
  assert (N : forall m, descends g m -> core_rules params m = None).
  { intros m Hm. apply B in Hm. unfold no_core_match in Hm.
    destruct (core_rules params m); [discriminate | reflexivity]. }
  split; [exact N|].
  apply replace_rule_fixed. intros m Hm. left. now apply N.
Qed.

Lemma core_lowering_idempotent_witness :
  replace_rule (core_rules []) ex_window
  = Ok (let w := WindowFunction (FirstValue (Field ex_R "x")) "rows"
                   None None [] [] in
        let s := Select ex_R [("a", w)] [] [] in
        Select s [("b", Field s "a")] [] [])
  /\ replace_rule (core_rules [])
       (let w := WindowFunction (FirstValue (Field ex_R "x")) "rows"
                   None None [] [] in
        let s := Select ex_R [("a", w)] [] [] in
        Select s [("b", Field s "a")] [] [])
     = Ok (let w := WindowFunction (FirstValue (Field ex_R "x")) "rows"
                   None None [] [] in
           let s := Select ex_R [("a", w)] [] [] in
           Select s [("b", Field s "a")] [] []).
Proof.
  assert (H : replace_rule (core_rules []) ex_window
  = Ok (let w := WindowFunction (FirstValue (Field ex_R "x")) "rows"
                   None None [] [] in
        let s := Select ex_R [("a", w)] [] [] in
        Select s [("b", Field s "a")] [] []))
    by (vm_compute; reflexivity).
  split; [exact H|].
  exact (proj2 (core_lowering_idempotent [] ex_window _ H)).
Defined.

(** ** The CTE wrapping only adds wrappers *)

Lemma map_fst_combine (ks : list string) (vs : list node) :
  length ks <= length vs -> map fst (combine ks vs) = ks.
Proof.
  revert vs. induction ks as [|k ks IH]; intros [|v vs] H; simpl in *;
    try reflexivity; try lia.
  f_equal. apply IH. lia.
Qed.

Lemma re_dict_cong (d1 d2 : list (string * node)) (cs : list node) :
  map fst d1 = map fst d2 -> re_dict d1 cs = re_dict d2 cs.
Proof.
  intros H. unfold re_dict.
  assert (L : length d1 = length d2)
    by (rewrite <- (length_map fst d1), H; apply length_map).
  now rewrite H, L.
Qed.

Lemma re_list_cong (l1 l2 cs : list node) :
  length l1 = length l2 -> re_list l1 cs = re_list l2 cs.
Proof. intros H. unfold re_list. now rewrite H. Qed.

Lemma re_dict_keys (d : list (string * node)) (cs : list node) :
  length d <= length cs -> map fst (fst (re_dict d cs)) = map fst d.
Proof.
  intros H. unfold re_dict. simpl. apply map_fst_combine.
  rewrite length_map, length_firstn. lia.
Qed.

Lemma re_list_length (l cs : list node) :
  length l <= length cs -> length (fst (re_list l cs)) = length l.
Proof. intros H. unfold re_list. simpl. rewrite length_firstn. lia. Qed.

Lemma re_opt_cong (d1 d2 : node) (cs : list node) :
  cs <> [] -> re_opt (Some d1) cs = re_opt (Some d2) cs.
Proof. destruct cs; [congruence | reflexivity]. Qed.

Lemma recreate_recreate (n : node) (cs cs' : list node) :
  length cs = length (children n) ->
  length cs' = length (children n) ->
  recreate (recreate n cs) cs' = recreate n cs'.
Proof.
  destruct n; cbn [children]; intros H H';
    repeat (rewrite ?length_app, ?length_map in H, H';
            cbn [length] in H, H');
    try (destruct cs as [|c cs]; [discriminate H|]);
    try (destruct cs' as [|c' cs']; [discriminate H'|]);
    cbn [recreate re_node]; try reflexivity.
  - (* Project *)
    pose proof (re_dict_keys values cs) as K.
    destruct (re_dict values cs) as [d r]. simpl in K.
    cbn [recreate re_node].
    rewrite (re_dict_cong d values) by (apply K; simpl in H; lia).
    reflexivity.
  - (* Filter *)
    pose proof (re_list_length predicates cs) as K.
    destruct (re_list predicates cs) as [d r]. simpl in K.
    cbn [recreate re_node].
    rewrite (re_list_cong d predicates) by (apply K; simpl in H; lia).
    reflexivity.
  - (* Sort *)
    match goal with
    | |- context [re_list ?l cs] =>
        pose proof (re_list_length l cs) as K;
        destruct (re_list l cs) as [d r]; simpl in K;
        cbn [recreate re_node];
        rewrite (re_list_cong d l) by (apply K; simpl in H; lia)
    end.
    reflexivity.
  - (* Select *)
    pose proof (re_dict_keys selections cs) as K1.
    pose proof (re_dict_children selections cs) as [_ L1].
    destruct (re_dict selections cs) as [d r]. simpl in K1, L1.
    pose proof (re_list_length predicates r) as K2.
    pose proof (re_list_children predicates r) as [_ L2].
    destruct (re_list predicates r) as [d2 r2]. simpl in K2, L2.
    pose proof (re_list_length sort_keys r2) as K3.
    destruct (re_list sort_keys r2) as [d3 r3]. simpl in K3.
    cbn [recreate re_node]. simpl in H.
    rewrite (re_dict_cong d selections) by (apply K1; lia).
    destruct (re_dict selections cs') as [e1 s1].
    rewrite (re_list_cong d2 predicates) by (apply K2; lia).
    destruct (re_list predicates s1) as [e2 s2].
    rewrite (re_list_cong d3 sort_keys) by (apply K3; lia).
    reflexivity.
  - (* WindowFunction *)
    simpl in H, H'.
    destruct start as [d1|], end_ as [d2|]; cbn [opt_list length] in H, H';
      cbn [re_opt];
      repeat match goal with
             | |- context [re_node ?d cs] =>
                 destruct cs as [|? cs]; [simpl in H; lia|];
                 cbn [re_node]; simpl in H
             end;
      pose proof (re_list_length group_by cs) as K2;
      pose proof (re_list_children group_by cs) as [_ L2];
      destruct (re_list group_by cs) as [g2 r2]; simpl in K2, L2;
      pose proof (re_list_length order_by r2) as K3;
      destruct (re_list order_by r2) as [g3 r3]; simpl in K3;
      cbn [recreate re_node re_opt];
      repeat match goal with
             | |- context [re_node ?d cs'] =>
                 destruct cs' as [|? cs']; [simpl in H'; lia|];
                 cbn [re_node]; simpl in H'
             end;
      rewrite (re_list_cong g2 group_by) by (apply K2; lia);
      destruct (re_list group_by cs') as [e2 s2];
      rewrite (re_list_cong g3 order_by) by (apply K3; lia);
      reflexivity.
  - (* First *)
    simpl in H, H'. destruct where_ as [d1|]; cbn [opt_list length] in H, H';
      cbn [re_opt]; [|reflexivity].
    destruct cs as [|? cs]; [simpl in H; lia|].
    destruct cs' as [|? cs']; [simpl in H'; lia|]. reflexivity.
  - (* Last *)
    simpl in H, H'. destruct where_ as [d1|]; cbn [opt_list length] in H, H';
      cbn [re_opt]; [|reflexivity].
    destruct cs as [|? cs]; [simpl in H; lia|].
    destruct cs' as [|? cs']; [simpl in H'; lia|]. reflexivity.
  - (* Op *)
    pose proof (re_list_length args cs) as K.
    destruct (re_list args cs) as [d r]. simpl in K.
    cbn [recreate]. rewrite (re_list_cong d args) by (apply K; lia).
    reflexivity.
Qed.

Lemma strip_ctes_eq (n : node) :
  strip_ctes n
  = if is_CTE n
    then hd (recreate n []) (map strip_ctes (children n))
    else recreate n (map strip_ctes (children n)).
Proof.
  unfold strip_ctes at 1. rewrite fold_node_eq. fold strip_ctes.
  destruct n; reflexivity.
Qed.

(** X20: on a graph without CTE nodes the wrapping done by [sqlize] only
    adds CTE wrappers, whatever graph the set of relations to wrap was
    extracted from: removing every CTE node from the wrapped graph gives
    the graph back. *)
Theorem strip_ctes_wrap_ctes (simplified n : node) :
  all_below not_CTE n -> strip_ctes (wrap_ctes simplified n) = n.
Proof.
  induction n as [n IH] using node_children_ind. intros Hn.
  set (rw := wrap_ctes simplified) in *.
  set (new := recreate n (map rw (children n))).
  assert (Hnew : strip_ctes new = n).
  { rewrite strip_ctes_eq.
    assert (C : is_CTE new = false).
    { unfold new. rewrite recreate_is_CTE.
      apply all_below_head in Hn. unfold not_CTE in Hn.
      now apply negb_true_iff in Hn. }
    assert (Ch : map strip_ctes (children new) = children n).
    { unfold new. rewrite children_recreate by (now rewrite length_map).
      rewrite map_map. rewrite <- (map_id (children n)) at 2.
      apply map_ext_in. intros c Hc. apply IH; [assumption|].
      now apply all_below_child with (g := n). }
    rewrite C, Ch.
    unfold new. rewrite recreate_recreate;
      [apply recreate_children | now rewrite length_map | reflexivity]. }
  unfold rw, wrap_ctes. rewrite replace_fn_eq. unfold wrap.
  fold (wrap_ctes simplified). fold rw. fold new.
  destruct (mem n (extract_ctes simplified)); [|exact Hnew].
  rewrite strip_ctes_eq. cbn [is_CTE children map hd]. exact Hnew.
Qed.

Lemma strip_ctes_wrap_ctes_witness :
  all_below not_CTE ex_union
  /\ wrap_ctes ex_union ex_union = ex_union'
  /\ strip_ctes (wrap_ctes ex_union ex_union) = ex_union.
Proof.
  assert (H : all_below not_CTE ex_union)
    by (apply all_below_by_bfs; vm_compute; reflexivity).
  split; [exact H|]. split; [vm_compute; reflexivity|].
  exact (strip_ctes_wrap_ctes ex_union ex_union H).
Defined.

(** ** Windows without ordering after [rewrite_empty_order_by_window] *)

Lemma recreate_ordered (n : node) (cs : list node) :
  length cs = length (children n) -> ordered (recreate n cs) = ordered n.
Proof.
  intros L. pose proof (children_recreate n cs L) as C.
  destruct n;
    try (cbn [recreate];
         repeat match goal with
                | |- context [let (_, _) := ?e in _] => destruct e
                end; reflexivity).
  cbn [recreate children] in *.
  destruct (re_node n cs) as [f' r1].
  destruct (re_opt start r1) as [s' r2] eqn:E2.
  destruct (re_opt end_ r2) as [e' r3] eqn:E3.
  pose proof (firstn_le_length (length group_by) r3) as K4.
  destruct (re_list group_by r3) as [g' r4] eqn:E4.
  pose proof (firstn_le_length (length order_by) r4) as K5.
  destruct (re_list order_by r4) as [o' r5] eqn:E5.
  unfold re_list in E4, E5. injection E4 as <- <-. injection E5 as <- <-.
  assert (S2 : length (opt_list s') <= length (opt_list start)).
  { destruct start; simpl in E2; [destruct (re_node _ r1)|];
      injection E2 as <- <-; simpl; lia. }
  assert (S3 : length (opt_list e') <= length (opt_list end_)).
  { destruct end_; simpl in E3; [destruct (re_node _ r2)|];
      injection E3 as <- <-; simpl; lia. }
  cbn [children] in C. rewrite <- C in L.
  cbn [length] in L. rewrite !length_app in L.
  destruct order_by as [|o1 order_by]; [reflexivity|].
  cbn [length] in *.
  destruct (firstn _ (skipn _ r3)) as [|o1' o'] eqn:F; [|reflexivity].
  cbn [length] in L. lia.
Qed.

Lemma rewrite_empty_order_by_window_below (NULL rec g : node) :
  all_below ordered NULL ->
  (forall x, In x (children rec) -> all_below ordered x) ->
  rewrite_empty_order_by_window NULL rec = Some (Ok g) ->
  all_below ordered g.
Proof.
  intros HN H. destruct rec; try discriminate.
  destruct order_by; try discriminate. simpl. intros [= <-].
  apply all_below_intro; [reflexivity|]. cbn [children] in *.
  intros c Hc. rewrite app_nil_r in H.
  rewrite !app_comm_cons, !app_assoc in Hc. apply in_app_or in Hc.
  destruct Hc as [Hc|[<-|[]]]; [|exact HN].
  apply H. now rewrite !app_comm_cons, !app_assoc.
Qed.

(** X16: with [rewrite_empty_order_by_window] as the backend rewrite, no
    window function of the graph or of the CTE bodies that [sqlize] returns
    is left without an ordering key: the rewrite orders every window
    function by NULL (a constant that holds no unordered window function
    itself), and neither the lowering, the Select merge nor the CTE
    wrapping drops an ordering. *)
Theorem sqlize_orders_every_window (NULL root : node)
  (params : list (node * scalar)) (g : node) (ctes : list node) :
  all_below ordered NULL ->
  sqlize root params [rewrite_empty_order_by_window NULL] = Ok (g, ctes) ->
  forall f how s e gb o,
    (descends g (WindowFunction f how s e gb o)
     \/ exists b, In b ctes /\ descends b (WindowFunction f how s e gb o)) ->
    o <> [].
Proof.
  intros HN H.
  assert (R : forall n cs, length cs = length (children n) ->
                           ordered (recreate n cs) = ordered n)
    by exact recreate_ordered.
  assert (G : all_below ordered g).
  { revert H. unfold sqlize.
    destruct (negb (is_Relation root)); [discriminate|].
    cbn [fold_left].
    destruct (replace_rule (rewrite_empty_order_by_window NULL) root)
      as [n1|] eqn:W; [|discriminate]. simpl.
    destruct (replace_rule (core_rules params) n1) as [sqlized|] eqn:C;
      [|discriminate]. simpl.
    destruct (replace_rule merge_select_select sqlized) as [s0|] eqn:M;
      [|discriminate]. simpl.
    intros [= <- _].
    assert (W' : all_below ordered n1).
    { refine (replace_rule_below ordered (fun _ => true)
                (rewrite_empty_order_by_window NULL) _ _ _ root n1 _ W).
      - reflexivity.
      - intros rec _. destruct rec; try reflexivity.
        destruct order_by; [discriminate | reflexivity].
      - intros rec g0 _ Hc E.
        now apply rewrite_empty_order_by_window_below
          with (NULL := NULL) (rec := rec).
      - intros m _. reflexivity. }
    assert (C' : all_below ordered sqlized).
    { refine (replace_rule_below ordered ordered
                (core_rules params) R _ _ n1 sqlized W' C).
      - intros rec Hq _. exact Hq.
      - intros rec g0 Hq Hc E.
        refine (core_rules_below ordered params rec g0 _ _ _ Hc E).
        + intros x Hx _. now destruct x.
        + reflexivity.
        + intros _. exact Hq. }
    assert (M' : all_below ordered s0).
    { refine (replace_rule_below ordered ordered
                merge_select_select R _ _ sqlized s0 C' M).
      - intros rec Hq _. exact Hq.
      - intros rec g0 Hq Hc E.
        refine (merge_select_select_below ordered rec g0 _ _ Hq Hc E);
          [intros x cs _; apply R | reflexivity]. }
    apply wrap_below; [exact R | reflexivity | exact M']. }
  intros f how s e gb o Hd.
  assert (D : descends g (WindowFunction f how s e gb o)).
  { destruct Hd as [Hd|(b & Hb & Hd)]; [exact Hd|].
    exact (sqlize_ctes_below root params _ g ctes b _ H Hb Hd). }
  apply G in D. intros ->. discriminate D.
Qed.

Lemma sqlize_orders_every_window_witness :
  let null := Literal SNone "null" in
  let f := FirstValue (Field ex_R "x") in
  let inner := Select ex_R
                 [("a", WindowFunction f "rows" None None [] [null])] [] [] in
  let g := Select inner [("b", Field inner "a")] [] [] in
  all_below ordered null
  /\ sqlize ex_window [] [rewrite_empty_order_by_window null] = Ok (g, [])
  /\ descends g (WindowFunction f "rows" None None [] [null])
  /\ [null] <> [].
Proof.
  intros null f inner g.
  assert (HN : all_below ordered null)
    by (apply all_below_by_bfs; vm_compute; reflexivity).
  assert (H : sqlize ex_window [] [rewrite_empty_order_by_window null]
              = Ok (g, []))
    by (vm_compute; reflexivity).
  assert (D : descends g (WindowFunction f "rows" None None [] [null]))
    by (apply descends_by_bfs; vm_compute; reflexivity).
  split; [exact HN|]. split; [exact H|]. split; [exact D|].
  exact (sqlize_orders_every_window null ex_window [] g [] HN H
           f "rows" None None [] [null] (or_introl D)).
Defined.

(** ** The frame rewrite for rank functions *)

(** X21: the window function that
    [exclude_unsupported_window_frame_from_rank] builds has no start bound,
    the end bound of [0] and at least one ordering key, so that
    [rewrite_empty_order_by_window] never matches it; the rule does not
    match its own result, a difference, but it matches that window function
    again and then returns the same difference. *)
Theorem exclude_unsupported_window_frame_from_rank_result
  (NULL zero one n m : node) :
  exclude_unsupported_window_frame_from_rank NULL zero one n = Some (Ok m) ->
  exists f how e g o,
    n = WindowFunction f how None e g o
    /\ let w := WindowFunction f how None (Some zero) g
                  (order_by_or o [NULL]) in
       m = Subtract w one
       /\ rewrite_empty_order_by_window NULL w = None
       /\ exclude_unsupported_window_frame_from_rank NULL zero one m = None
       /\ exclude_unsupported_window_frame_from_rank NULL zero one w
          = Some (Ok m).
Proof.
  destruct n; try discriminate. destruct start; try discriminate.
  cbn [exclude_unsupported_window_frame_from_rank].
  destruct (is_class _ n) eqn:C; [|discriminate].
  intros [= <-]. do 5 eexists. split; [reflexivity|].
  cbn zeta. split; [reflexivity|].
  split; [destruct order_by; reflexivity|]. split; [reflexivity|].
  cbn [copy_frame exclude_unsupported_window_frame_from_rank].
  rewrite C. destruct order_by; reflexivity.
Qed.

Lemma exclude_unsupported_window_frame_from_rank_result_witness :
  let null := Literal SNone "null" in
  let zero := Literal (SInt 0) "int8" in
  let one := Literal (SInt 1) "int8" in
  let n := WindowFunction (Op KValue "DenseRank" [] []) "rows"
             None None [Field ex_R "y"] [] in
  let w := WindowFunction (Op KValue "DenseRank" [] []) "rows"
             None (Some zero) [Field ex_R "y"] [null] in
  exclude_unsupported_window_frame_from_rank null zero one n
  = Some (Ok (Subtract w one))
  /\ rewrite_empty_order_by_window null w = None
  /\ exclude_unsupported_window_frame_from_rank null zero one w
     = Some (Ok (Subtract w one)).
Proof.
  intros null zero one n w.
  assert (H : exclude_unsupported_window_frame_from_rank null zero one n
              = Some (Ok (Subtract w one))) by reflexivity.
  split; [exact H|].
  destruct (exclude_unsupported_window_frame_from_rank_result
              null zero one n (Subtract w one) H)
    as (f & how & e & g & o & En & _ & Hr & _ & Hw).
  injection En as <- <- <- <- <-. split; [exact Hr | exact Hw].
Defined.

(** ** Lowering a lowered graph again *)

(** *** The wrapping leaves nothing to extract *)

Lemma wrap_ctes_eq (s n : node) :
  wrap_ctes s n
  = if mem n (extract_ctes s) then CTE (reconstructed s n)
    else reconstructed s n.
Proof. unfold wrap_ctes. rewrite replace_fn_eq. reflexivity. Qed.

Lemma reconstructed_children (s m : node) :
  children (reconstructed s m) = map (wrap_ctes s) (children m).
Proof. apply children_recreate. now rewrite length_map. Qed.

Lemma recreate_cte_types (n : node) (cs : list node) :
  cte_types (recreate n cs) = cte_types n.
Proof.
  destruct n; cbn [recreate];
    repeat match goal with
           | |- context [let (_, _) := ?e in _] => destruct e
           end; reflexivity.
Qed.

Lemma recreate_counted (n : node) (cs : list node) :
  counted (recreate n cs) = counted n.
Proof.
  destruct n; cbn [recreate];
    repeat match goal with
           | |- context [let (_, _) := ?e in _] => destruct e
           end; reflexivity.
Qed.

Lemma cte_types_not_CTE (n : node) : cte_types n = true -> is_CTE n = false.
Proof. now destruct n. Qed.

Lemma extracted_not_CTE (s m : node) :
  In m (extract_ctes s) -> is_CTE m = false.
Proof.
  intros H. apply extract_ctes_In in H. destruct H as [_ [V|[C _]]].
  - now destruct m.
  - now apply cte_types_not_CTE.
Qed.

Lemma extracted_counted (s m : node) :
  In m (extract_ctes s) -> counted m = true.
Proof.
  intros H. apply extract_ctes_In in H. destruct H as [H _].
  destruct H as [r [<-|[]] Hf | m' c _ _ Hf]; exact Hf.
Qed.

Lemma wrap_ctes_counted (s c : node) :
  counted (wrap_ctes s c) = counted c.
Proof.
  rewrite wrap_ctes_eq. destruct (mem c (extract_ctes s)) eqn:M.
  - apply mem_In, extracted_counted in M. now rewrite M.
  - apply recreate_counted.
Qed.

Lemma map_inj_in {A B : Type} (f : A -> B) (l l' : list A) :
  (forall c, In c l -> forall d, f c = f d -> c = d) ->
  map f l = map f l' -> l = l'.
Proof.
  revert l'. induction l as [|c l IH]; intros [|d l'] H E;
    try discriminate; [reflexivity|].
  simpl in E. injection E as E1 E2.
  rewrite (H c (or_introl eq_refl) d E1). f_equal.
  apply IH; [|assumption]. intros x Hx. apply H. now right.
Qed.

(** Two nodes with the same children and the same reconstruction are
    equal. *)
Lemma recreate_inj (n z : node) (cs cs' : list node) :
  length cs = length (children n) -> length cs' = length (children z) ->
  recreate n cs = recreate z cs' -> children n = children z -> n = z.
Proof.
  intros L L' E C.
  rewrite <- (recreate_children n), <- (recreate_children z).
  rewrite <- (recreate_recreate n cs (children n)) by auto.
  rewrite <- (recreate_recreate z cs' (children z)) by auto.
  now rewrite E, C.
Qed.

(** The rewriting by [wrap] is injective, and so is the reconstruction. *)
Lemma wrap_ctes_inj (s x : node) :
  (forall z, reconstructed s x = reconstructed s z -> x = z)
  /\ (forall z, wrap_ctes s x = wrap_ctes s z -> x = z).
Proof.
  induction x as [x IH] using node_children_ind.
  assert (R : forall z, reconstructed s x = reconstructed s z -> x = z).
  { intros z E.
    assert (Ec : children x = children z).
    { apply (map_inj_in (wrap_ctes s)).
      - intros c Hc. apply (IH c Hc).
      - now rewrite <- !reconstructed_children, E. }
    unfold reconstructed in E.
    apply (recreate_inj x z _ _) in E;
      [assumption | now rewrite length_map | now rewrite length_map
      | assumption]. }
  split; [exact R|].
  intros z. rewrite !wrap_ctes_eq.
  destruct (mem x (extract_ctes s)) eqn:Mx,
           (mem z (extract_ctes s)) eqn:Mz.
  - intros [= E]. now apply R.
  - intros E. exfalso.
    assert (Cz : is_CTE z = true).
    { rewrite <- (recreate_is_CTE z (map (wrap_ctes s) (children z))).
      fold (reconstructed s z). now rewrite <- E. }
    destruct z as [| | | | |z1| | | | | | | | |]; try discriminate.
    unfold reconstructed in E at 2. cbn in E. injection E as E.
    rewrite wrap_ctes_eq in E.
    destruct (mem z1 (extract_ctes s)) eqn:M1.
    + apply mem_In, extracted_not_CTE in Mx.
      rewrite <- (recreate_is_CTE x (map (wrap_ctes s) (children x))) in Mx.
      fold (reconstructed s x) in Mx. rewrite E in Mx. discriminate.
    + apply R in E. subst z1. congruence.
  - intros E. exfalso.
    assert (Cx : is_CTE x = true).
    { rewrite <- (recreate_is_CTE x (map (wrap_ctes s) (children x))).
      fold (reconstructed s x). now rewrite E. }
    destruct x as [| | | | |x1| | | | | | | | |]; try discriminate.
    unfold reconstructed in E at 1. cbn in E. injection E as E.
    rewrite wrap_ctes_eq in E.
    destruct (mem x1 (extract_ctes s)) eqn:M1.
    + apply mem_In, extracted_not_CTE in Mz.
      rewrite <- (recreate_is_CTE z (map (wrap_ctes s) (children z))) in Mz.
      fold (reconstructed s z) in Mz. rewrite <- E in Mz. discriminate.
    + apply (proj1 (IH x1 (or_introl eq_refl))) in E. subst x1. congruence.
  - apply R.
Qed.

(** Every node of the dependency graph of the wrapped graph is the
    reconstruction of a node of the dependency graph, or the wrapper of the
    reconstruction of an extracted node. *)
Lemma wrapped_nodes (s m' : node) :
  reach counted [wrap_ctes s s] m' ->
  exists m, reach counted [s] m
            /\ (m' = reconstructed s m
                \/ (m' = CTE (reconstructed s m)
                    /\ In m (extract_ctes s))).
Proof.
  intros H. induction H as [r [<-|[]] Hf | m' c' Hm IH Hc Hf].
  - exists s. split.
    + apply reach_root; [now left|]. now rewrite <- (wrap_ctes_counted s).
    + rewrite wrap_ctes_eq. destruct (mem s (extract_ctes s)) eqn:M.
      * right. split; [reflexivity | now apply mem_In].
      * now left.
  - destruct IH as (m & Hr & [->|[-> Hin]]).
    + rewrite reconstructed_children in Hc. apply in_map_iff in Hc.
      destruct Hc as (c & <- & Hc). exists c. split.
      * apply reach_step with (m := m); [assumption | assumption|].
        now rewrite <- (wrap_ctes_counted s).
      * rewrite wrap_ctes_eq. destruct (mem c (extract_ctes s)) eqn:M.
        -- right. split; [reflexivity | now apply mem_In].
        -- now left.
    + simpl in Hc. destruct Hc as [<-|[]]. exists m. split; [assumption|].
      now left.
Qed.

Lemma list_sum_nat_zero {A : Type} (f : A -> nat) (l : list A) :
  (forall a, In a l -> f a = 0) -> list_sum_nat (map f l) = 0.
Proof.
  induction l as [|a l IH]; intros H; simpl; [reflexivity|].
  rewrite (H a (or_introl eq_refl)), IH; [reflexivity|].
  intros b Hb. apply H. now right.
Qed.

(** A sum whose only non-zero term is the one of [z]. *)
Lemma list_sum_nat_single {A : Type} (f : A -> nat) (z : A) (l : list A) :
  NoDup l -> (forall a, In a l -> f a <> 0 -> a = z) ->
  list_sum_nat (map f l) <= f z.
Proof.
  induction l as [|a l IH]; intros ND H; simpl; [lia|].
  inversion ND as [|a' l' Ha ND']; subst.
  destruct (Nat.eq_dec (f a) 0) as [E|E].
  - rewrite E. simpl. apply IH; [assumption|].
    intros b Hb. apply H. now right.
  - assert (a = z) by (apply H; [now left | assumption]). subst a.
    rewrite list_sum_nat_zero; [lia|].
    intros b Hb. destruct (Nat.eq_dec (f b) 0) as [E0|E0]; [assumption|].
    exfalso. apply Ha.
    assert (b = z) by (apply H; [now right | assumption]). now subst b.
Qed.

(** A sum over distinct elements is bounded by the sum over their
    preimages. *)
Lemma list_sum_nat_inj_le {A : Type} (h : A -> A) (f' f : A -> nat)
  (l' : list A) :
  NoDup l' ->
  forall l,
    (forall a, In a l' ->
       f' a = 0 \/ exists m, In m l /\ h m = a /\ f' a <= f m) ->
    list_sum_nat (map f' l') <= list_sum_nat (map f l).
Proof.
  induction l' as [|a l' IH]; intros ND l H; simpl; [lia|].
  inversion ND as [|a' l0 Ha ND']; subst.
  destruct (H a (or_introl eq_refl)) as [E|(m & Hm & Em & Le)].
  - rewrite E. simpl. apply IH; [assumption|].
    intros b Hb. apply H. now right.
  - apply in_split in Hm. destruct Hm as (l1 & l2 & ->).
    rewrite map_app, list_sum_nat_app. simpl.
    assert (R : list_sum_nat (map f' l')
                <= list_sum_nat (map f (l1 ++ l2))).
    { apply IH; [assumption|]. intros b Hb.
      destruct (H b (or_intror Hb)) as [E|(mb & Hmb & Emb & Leb)];
        [now left|].
      right. exists mb. split; [|now split].
      apply in_app_or in Hmb. apply in_or_app.
      destruct Hmb as [?|[->|?]]; [now left | | now right].
      exfalso. apply Ha. now rewrite <- Em, Emb. }
    rewrite map_app, list_sum_nat_app in R. lia.
Qed.

Lemma count_occ_map_le (f : node -> node) (x y : node) (l : list node) :
  (forall c, In c l -> f c = y -> c = x) ->
  count_occ node_eq_dec (map f l) y <= count_occ node_eq_dec l x.
Proof.
  induction l as [|c l IH]; intros H; simpl; [lia|].
  assert (R : count_occ node_eq_dec (map f l) y
              <= count_occ node_eq_dec l x)
    by (apply IH; intros d Hd; apply H; now right).
  destruct (node_eq_dec (f c) y) as [E|E].
  - rewrite (H c (or_introl eq_refl) E).
    destruct (node_eq_dec x x); [lia | easy].
  - destruct (node_eq_dec c x); lia.
Qed.

(** In the wrapped graph no CTE-eligible node is referenced twice. *)
Lemma wrapped_references (s y : node) :
  reach counted [wrap_ctes s s] y -> cte_types y = true ->
  references (dependency_graph (wrap_ctes s s)) y <= 1.
Proof.
  intros Hy Cy.
  destruct (wrapped_nodes s y Hy) as (x & Hx & [->|[-> _]]);
    [|discriminate].
  unfold reconstructed in Cy. rewrite recreate_cte_types in Cy.
  fold (reconstructed s x) in *.
  assert (NC : is_CTE x = false) by now apply cte_types_not_CTE.
  assert (K : forall c, wrap_ctes s c = reconstructed s x ->
                        c = x /\ mem x (extract_ctes s) = false).
  { intros c. rewrite wrap_ctes_eq.
    destruct (mem c (extract_ctes s)) eqn:M; intros E.
    - exfalso.
      rewrite <- (recreate_is_CTE x (map (wrap_ctes s) (children x))) in NC.
      fold (reconstructed s x) in NC. rewrite <- E in NC. discriminate.
    - apply (proj1 (wrap_ctes_inj s c)) in E. now subst c. }
  assert (ND : NoDup (nodes (dependency_graph (wrap_ctes s s))))
    by apply from_bfs_NoDup.
  unfold references.
  destruct (mem x (extract_ctes s)) eqn:Mx.
  - apply Nat.le_trans
      with (count_occ node_eq_dec
              (children (CTE (reconstructed s x))) (reconstructed s x)).
    + apply (list_sum_nat_single
               (fun m => count_occ node_eq_dec (children m)
                           (reconstructed s x))); [exact ND|].
      intros a Ha Hne. apply from_bfs_nodes in Ha.
      assert (Hin : In (reconstructed s x) (children a)).
      { apply (count_occ_In node_eq_dec). lia. }
      destruct (wrapped_nodes s a Ha) as (m & Hm & [->|[-> _]]).
      * rewrite reconstructed_children in Hin. apply in_map_iff in Hin.
        destruct Hin as (c & E & _). apply K in E. destruct E. congruence.
      * simpl in Hin. destruct Hin as [<-|[]]. reflexivity.
    + simpl. destruct (node_eq_dec _ _); lia.
  - apply Nat.le_trans with (references (dependency_graph s) x).
    + unfold references.
      apply (list_sum_nat_inj_le (reconstructed s)); [exact ND|].
      intros a Ha. apply from_bfs_nodes in Ha.
      destruct (wrapped_nodes s a Ha) as (m & Hm & [->|[-> Hin]]).
      * right. exists m. split; [now apply from_bfs_nodes|].
        split; [reflexivity|]. rewrite reconstructed_children.
        apply count_occ_map_le. intros c _ E. now apply K in E.
      * left. simpl.
        destruct (node_eq_dec (reconstructed s m) (reconstructed s x))
          as [E|E]; [|reflexivity].
        apply (proj1 (wrap_ctes_inj s m)) in E. subst m.
        apply mem_In in Hin. congruence.
    + destruct (le_lt_dec 2 (references (dependency_graph s) x)) as [L|L];
        [|lia].
      exfalso. apply mem_not_In in Mx. apply Mx.
      apply extract_ctes_In. split; [assumption|]. right.
      split; [assumption|].
      rewrite (proj1 (dependents_spec s x)); [exact L|].
      now apply cte_types_counted.
Qed.

(** The wrapped graph holds no node that qualifies for extraction, unless
    it holds a view. *)
Lemma wrap_ctes_extracts_nothing (s : node) :
  view_free (wrap_ctes s s) -> extract_ctes (wrap_ctes s s) = [].
Proof.
  intros Hv. destruct (extract_ctes (wrap_ctes s s)) as [|y l] eqn:E;
    [reflexivity|].
  exfalso. assert (Hin : In y (extract_ctes (wrap_ctes s s)))
    by (rewrite E; now left).
  apply extract_ctes_In in Hin. destruct Hin as [Hr [V|[Ct L]]].
  - rewrite (Hv y (reach_descends _ _ _ Hr)) in V. discriminate.
  - rewrite (proj1 (dependents_spec (wrap_ctes s s) y)) in L
      by now apply cte_types_counted.
    pose proof (wrapped_references s y Hr Ct). lia.
Qed.

(** *** The core rules match nothing in the output *)

Lemma sequence_Forall2 {A B : Type} (f : A -> result B) (l : list A)
  (xs : list B) :
  sequence (map f l) = Ok xs -> Forall2 (fun c x => f c = Ok x) l xs.
Proof.
  revert xs. induction l as [|c l IH]; simpl; intros xs H.
  - injection H as <-. constructor.
  - destruct (f c) as [x|e] eqn:E; [|discriminate]. simpl in H.
    destruct (sequence (map f l)) as [ys|e]; [|discriminate].
    simpl in H. injection H as <-. constructor; [assumption|].
    now apply IH.
Qed.

Lemma Forall2_impl_in {A B : Type} (R R' : A -> B -> Prop) (l : list A)
  (xs : list B) :
  (forall c x, In c l -> R c x -> R' c x) ->
  Forall2 R l xs -> Forall2 R' l xs.
Proof.
  intros H F. induction F as [|c x l xs Hcx F IH]; constructor.
  - apply H; [now left | assumption].
  - apply IH. intros c' x' Hc'. apply H. now right.
Qed.

Lemma Forall2_in_r {A B : Type} (R : A -> B -> Prop) (l : list A)
  (xs : list B) (x : B) :
  Forall2 R l xs -> In x xs -> exists c, In c l /\ R c x.
Proof.
  intros F. induction F as [|c y l xs Hcy F IH]; intros Hx; [easy|].
  destruct Hx as [<-|Hx].
  - exists c. split; [now left | assumption].
  - destruct (IH Hx) as (c' & Hc' & Hr). exists c'. split; [now right|].
    assumption.
Qed.

Lemma Forall2_map_r {A B : Type} (R : A -> B -> Prop) (f : A -> B)
  (l : list A) :
  (forall c, In c l -> R c (f c)) -> Forall2 R l (map f l).
Proof.
  induction l as [|c l IH]; intros H; simpl; constructor.
  - apply H. now left.
  - apply IH. intros c' Hc'. apply H. now right.
Qed.

(** A rewriting pass keeps a property [P] of all nodes that depends on the
    class [K] of the children, when the rule keeps both. *)
Lemma replace_rule_below_rel (P K : node -> bool) (r : rule) :
  (forall n cs, K (recreate n cs) = K n) ->
  (forall rec g, r rec = Some (Ok g) -> K g = K rec) ->
  (forall n cs, Forall2 (fun c x => K x = K c) (children n) cs ->
                P (recreate n cs) = P n) ->
  (forall rec g, P rec = true ->
                 (forall x, In x (children rec) -> all_below P x) ->
                 r rec = Some (Ok g) -> all_below P g) ->
  forall n g, all_below P n -> replace_rule r n = Ok g ->
              all_below P g /\ K g = K n.
Proof.
  intros HK HKr HP Hsome n. induction n as [n IH] using node_children_ind.
  intros g Hn H. apply replace_rule_Ok_inv in H.
  destruct H as (cs & S_ & H). apply sequence_Forall2 in S_.
  assert (F : Forall2 (fun c x => all_below P x /\ K x = K c)
                (children n) cs).
  { apply (Forall2_impl_in _ _ _ _ (fun c x Hc E => IH c Hc x
             (all_below_child P n c Hn Hc) E) S_). }
  assert (L : length cs = length (children n))
    by (symmetry; exact (Forall2_length S_)).
  assert (Hcs : forall x, In x cs -> all_below P x).
  { intros x Hx. destruct (Forall2_in_r _ _ _ x F Hx) as (c & _ & Hc & _).
    exact Hc. }
  assert (Hq : P (recreate n cs) = true).
  { rewrite HP; [now apply all_below_head|].
    apply (Forall2_impl_in _ _ _ _ (fun c x _ (E : _ /\ _) => proj2 E) F). }
  destruct (r (recreate n cs)) as [res|] eqn:E.
  - subst res. split.
    + apply (Hsome _ g Hq); [|assumption]. now rewrite children_recreate.
    + now rewrite (HKr _ _ E).
  - injection H as <-. split; [|apply HK].
    now apply all_below_recreate.
Qed.

Lemma wrap_below_rel (P K : node -> bool) (ctes : list node) :
  (forall n cs, K (recreate n cs) = K n) ->
  (forall n, K (CTE n) = false) -> (forall n, In n ctes -> K n = false) ->
  (forall n cs, Forall2 (fun c x => K x = K c) (children n) cs ->
                P (recreate n cs) = P n) ->
  (forall n, P (CTE n) = true) ->
  forall n, all_below P n ->
            all_below P (replace_fn (wrap ctes) n)
            /\ K (replace_fn (wrap ctes) n) = K n.
Proof.
  intros HK HKC HKc HP HC n. induction n as [n IH] using node_children_ind.
  intros Hn. rewrite replace_fn_eq. unfold wrap.
  set (cs := map (replace_fn (wrap ctes)) (children n)).
  assert (F : Forall2 (fun c x => all_below P x /\ K x = K c)
                (children n) cs).
  { apply Forall2_map_r. intros c Hc. apply IH; [assumption|].
    now apply all_below_child with (g := n). }
  assert (N : all_below P (recreate n cs)).
  { apply all_below_recreate.
    - rewrite HP; [now apply all_below_head|].
      apply (Forall2_impl_in _ _ _ _
               (fun c x _ (E : _ /\ _) => proj2 E) F).
    - unfold cs. now rewrite length_map.
    - intros x Hx. destruct (Forall2_in_r _ _ _ x F Hx) as (c & _ & Hc & _).
      exact Hc. }
  destruct (mem n ctes) eqn:M.
  - split.
    + apply all_below_intro; [apply HC|]. intros c [<-|[]]. assumption.
    + apply mem_In in M. now rewrite HKC, (HKc n M).
  - split; [assumption | apply HK].
Qed.

Lemma recreate_first_last (n : node) (cs : list node) :
  first_last (recreate n cs) = first_last n.
Proof.
  destruct n; cbn [recreate];
    repeat match goal with
           | |- context [let (_, _) := ?e in _] => destruct e
           end; reflexivity.
Qed.

Lemma no_core_match_window (params : list (node * scalar))
  (f : node) (how : string) (s e : option node) (g o : list node) :
  no_core_match params (WindowFunction f how s e g o)
  = negb (first_last f).
Proof.
  unfold no_core_match, core_rules, alt. simpl.
  destruct f; try reflexivity; destruct where_; reflexivity.
Qed.

Lemma no_core_match_recreate_plain (params : list (node * scalar))
  (n : node) (cs : list node) :
  is_WindowFunction n = false ->
  no_core_match params (recreate n cs) = no_core_match params n.
Proof.
  intros W.
  destruct n; try discriminate W;
    try (unfold no_core_match, core_rules, alt; cbn [recreate];
         repeat match goal with
                | |- context [let (_, _) := ?e in _] => destruct e
                end; reflexivity).
  (* Op *)
  unfold no_core_match, core_rules, alt. cbn [recreate].
  destruct (re_list args cs) as [args' r]. simpl.
  destruct k; try reflexivity.
  repeat match goal with
         | |- context [find ?f params] => destruct (find f params)
         end; reflexivity.
Qed.

Lemma no_core_match_recreate (params : list (node * scalar))
  (n : node) (cs : list node) :
  Forall2 (fun c x => first_last x = first_last c) (children n) cs ->
  no_core_match params (recreate n cs) = no_core_match params n.
Proof.
  intros F.
  destruct (is_WindowFunction n) eqn:W;
    [|now apply no_core_match_recreate_plain].
  destruct n; try discriminate W.
  cbn [children] in F. inversion F as [|c x l xs Hx F']; subst.
  cbn [recreate re_node].
  repeat match goal with
         | |- context [let (_, _) := ?e in _] => destruct e
         end.
  now rewrite !no_core_match_window, Hx.
Qed.

Lemma merge_select_select_first_last (rec g : node) :
  merge_select_select rec = Some (Ok g) -> first_last g = first_last rec.
Proof.
  intros H.
  assert (S_ : is_select_pair rec = true)
    by (apply merge_select_select_match; congruence).
  destruct (merge_select_select_cases rec S_) as [E|(_ & _ & _ & E)];
    rewrite E in H; injection H as <-; [reflexivity|].
  destruct rec as [| | | |p sels ps ks| | | | | | | | | |]; try discriminate.
  destruct p; try discriminate. reflexivity.
Qed.

(** The passes behind a successful run of [sqlize]. *)
Lemma sqlize_passes (root : node) (params : list (node * scalar))
  (rewrites : list rule) (g : node) (l : list node) :
  sqlize root params rewrites = Ok (g, l) ->
  exists n1 sqlized simplified,
    replace_rule (core_rules params) n1 = Ok sqlized
    /\ replace_rule merge_select_select sqlized = Ok simplified
    /\ g = wrap_ctes simplified simplified
    /\ l = rev (map parent_of (find_nodes is_CTE no_filter g)).
Proof.
  unfold sqlize. destruct (negb (is_Relation root)); [discriminate|].
  destruct (match rewrites with
            | [] => Ok root
            | r :: rs => replace_rule (fold_left alt rs r) root
            end) as [n1|]; [|discriminate]. simpl.
  destruct (replace_rule (core_rules params) n1) as [sqlized|] eqn:C;
    [|discriminate]. simpl.
  destruct (replace_rule merge_select_select sqlized) as [simplified|] eqn:M;
    [|discriminate]. simpl.
  intros [= <- <-]. exists n1, sqlized, simplified. repeat split; assumption.
Qed.

(** No core rule matches a node of a graph that [sqlize] returns. *)
Lemma sqlize_no_core_match (root : node) (params : list (node * scalar))
  (rewrites : list rule) (g : node) (l : list node) :
  sqlize root params rewrites = Ok (g, l) ->
  forall m, descends g m -> core_rules params m = None.
Proof.
  intros H.
  destruct (sqlize_passes root params rewrites g l H)
    as (n1 & sqlized & s & C & M & -> & _).
  assert (B1 : all_below (no_core_match params) sqlized).
  { refine (replace_rule_below (no_core_match params) (fun _ => true)
              (core_rules params) _ _ _ n1 sqlized _ C).
    - reflexivity.
    - intros rec _ E. unfold no_core_match. now rewrite E.
    - intros rec g0 _ Hc E.
      now apply core_rules_no_match_below with (rec := rec).
    - intros m _. reflexivity. }
  assert (B2 : all_below (no_core_match params) s).
  { refine (proj1 (replace_rule_below_rel (no_core_match params) first_last
                     merge_select_select _ _ _ _ sqlized s B1 M)).
    - apply recreate_first_last.
    - apply merge_select_select_first_last.
    - apply no_core_match_recreate.
    - intros rec g0 Hq Hc E.
      refine (merge_select_select_below (no_core_match params) rec g0
                _ _ Hq Hc E); [|reflexivity].
      intros n cs W _. now apply no_core_match_recreate_plain. }
  assert (B3 : all_below (no_core_match params) (wrap_ctes s s)).
  { refine (proj1 (wrap_below_rel (no_core_match params) first_last
                     (extract_ctes s) _ _ _ _ _ s B2)).
    - apply recreate_first_last.
    - reflexivity.
    - intros n Hn. apply extract_ctes_relation in Hn. now destruct n.
    - apply no_core_match_recreate.
    - reflexivity. }
  intros m Hm. apply B3 in Hm. unfold no_core_match in Hm.
  destruct (core_rules params m); [discriminate | reflexivity].
Qed.

(** No Select merge changes a node of a fully merged graph. *)
Lemma fully_merged_fixed (g : node) :
  fully_merged g ->
  forall m, descends g m -> rule_fixes merge_select_select m.
Proof.
  intros Hm m Hd. destruct (is_select_pair m) eqn:S_.
  - right. specialize (Hm m Hd S_).
    destruct m as [| | | |p sels ps ks| | | | | | | | | |];
      try discriminate.
    destruct p as [| | | |pp sels1 ps1 ks1| | | | | | | | | |];
      try discriminate.
    unfold merge_select_select. cbn [parent_of] in Hm.
    destruct (truthy (find_below blocking is_Value
                        (Select (Select pp sels1 ps1 ks1) sels ps ks)));
      [reflexivity|].
    destruct (truthy (find_below blocking is_Value
                        (Select pp sels1 ps1 ks1))); [reflexivity|].
    destruct Hm as [Hm|[Hm|Hm]]; try discriminate.
    apply Nat.leb_gt in Hm. now rewrite Hm.
  - left. destruct (merge_select_select m) eqn:E; [|reflexivity].
    rewrite merge_select_select_match in S_; [discriminate | congruence].
Qed.

(** C9 (as amended): lowering is idempotent on what it returns, when that
    is a relation that holds no view and is fully merged: lowering it again
    returns the same graph and the same CTE list.  No core rule matches a
    node of a returned graph, and the wrapping leaves no node that
    qualifies for extraction, whatever was wrapped. *)
Theorem sqlize_idempotent :
  forall (root : node) (params : list (node * scalar))
         (rewrites : list rule) (g : node) (ctes : list node),
    sqlize root params rewrites = Ok (g, ctes) ->
    is_Relation g = true -> view_free g -> fully_merged g ->
    sqlize g params [] = Ok (g, ctes).
Proof.
  intros root params rewrites g ctes H Hrel Hv Hm.
  pose proof (sqlize_no_core_match root params rewrites g ctes H) as Hc.
  destruct (sqlize_passes root params rewrites g ctes H)
    as (n1 & sqlized & s & _ & _ & -> & ->).
  unfold sqlize. rewrite Hrel. simpl.
  rewrite (replace_rule_fixed (core_rules params) (wrap_ctes s s))
    by (intros n Hn; left; now apply Hc). simpl.
  rewrite (replace_rule_fixed merge_select_select (wrap_ctes s s))
    by (now apply fully_merged_fixed). simpl.
  rewrite (wrap_ctes_extracts_nothing s Hv), wrap_nil_id. reflexivity.
Qed.

Lemma view_free_by_bfs (g : node) :
  forallb (fun m => negb (is_View m)) (nodes (from_bfs [g] no_filter))
  = true ->
  view_free g.
Proof.
  intros H m Hm. rewrite forallb_forall in H. apply from_bfs_nodes in Hm.
  apply H in Hm. now apply negb_true_iff in Hm.
Qed.

Lemma fully_merged_by_bfs (g : node) :
  forallb (fun m => negb (is_select_pair m)
                    || truthy (find_below blocking is_Value m)
                    || truthy (find_below blocking is_Value (parent_of m))
                    || (complexity m <? complexity (merged_select m)))
          (nodes (from_bfs [g] no_filter)) = true ->
  fully_merged g.
Proof.
  intros H m Hm S_. rewrite forallb_forall in H. apply from_bfs_nodes in Hm.
  apply H in Hm. rewrite S_ in Hm. simpl in Hm.
  apply orb_true_iff in Hm. destruct Hm as [Hm|Hm].
  - apply orb_true_iff in Hm. tauto.
  - right. right. now apply Nat.ltb_lt.
Qed.

(** Lowering a union of two limits of the same costly pair of Selects: the
    pair stays unmerged and is wrapped once; the second run returns the
    wrapped graph and its CTE. *)
Lemma sqlize_idempotent_witness :
  let root := Union (Limit ex_thrice 1) (Limit ex_thrice 2) in
  let g := Union (Limit (CTE ex_thrice) 1) (Limit (CTE ex_thrice) 2) in
  sqlize root [] [] = Ok (g, [ex_thrice])
  /\ is_Relation g = true /\ view_free g /\ fully_merged g
  /\ sqlize g [] [] = Ok (g, [ex_thrice]).
Proof.
  intros root g.
  assert (H : sqlize root [] [] = Ok (g, [ex_thrice]))
    by (vm_compute; reflexivity).
  assert (Hv : view_free g)
    by (apply view_free_by_bfs; vm_compute; reflexivity).
  assert (Hm : fully_merged g)
    by (apply fully_merged_by_bfs; vm_compute; reflexivity).
  split; [exact H|]. split; [reflexivity|]. split; [exact Hv|].
  split; [exact Hm|].
  exact (sqlize_idempotent root [] [] g [ex_thrice] H eq_refl Hv Hm).
Defined.

(** C9 (as stated) fails: lowering a view gives the wrapped view, a
    relation without a Select, hence fully merged, and CTE-wrapped;
    lowering that graph again wraps the view a second time and returns a
    longer CTE list. *)
Lemma sqlize_not_idempotent_on_view :
  sqlize ex_view [] [] = Ok (CTE ex_view, [ex_view])
  /\ is_Relation (CTE ex_view) = true
  /\ fully_merged (CTE ex_view)
  /\ sqlize (CTE ex_view) [] []
     = Ok (CTE (CTE ex_view), [ex_view; CTE ex_view])
  /\ sqlize (CTE ex_view) [] [] <> sqlize ex_view [] [].
Proof.
  split; [vm_compute; reflexivity|]. split; [reflexivity|].
  split; [apply fully_merged_by_bfs; vm_compute; reflexivity|].
  split; [vm_compute; reflexivity|].
  vm_compute. discriminate.
Qed.

(** The returned graph has to be a relation for a second run: a backend
    rule may replace the root by a value, which the second run refuses. *)
Example sqlize_rewrite_to_value :
  let to_value : rule := fun n =>
    match n with
    | Op KTable _ _ _ => Some (Ok (int_lit 1))
    | _ => None
    end in
  sqlize ex_R [] [to_value] = Ok (int_lit 1, [])
  /\ sqlize (int_lit 1) [] [] = Raise AssertionError.
Proof. split; vm_compute; reflexivity. Qed.
